(** * Connected-component labelling of 3D volumes on a union-find forest

    A verification development for
    [Source/projects/ImageProcessing/connectedComponents.h]:
    the disjoint-set node [Set<U>] with its [find] (path compression) and
    [unite] (union by rank, overflow-checked rank counter), and the volume
    labeller [findConnectedComponents3d] built on it. *)

From Stdlib Require Import ZArith Lia.
From stdpp Require Import base option list relations gmap.

Local Open Scope Z_scope.

(** ** The disjoint-set node *)

(** [Set<U>]: the fields in declaration order.  [rank_] is an
    [unsigned short], kept as a [Z] with the wrap-around of its increment
    written out; [label_] is a value of the integral label type [U];
    [parent_] is a pointer to another node of the same array, kept as the
    index of that node, the null pointer being [None]. *)
Record SetNode : Type := mkSet {
  rank_ : Z;
  hasLabel_ : bool;
  label_ : Z;
  parent_ : option nat
}.

#[global] Instance SetNode_eq_dec : EqDecision SetNode.
Proof. solve_decision. Defined.

(** [static const U UNITIALIZED = U(0)] *)
Definition UNITIALIZED : Z := 0.

(** [std::numeric_limits<RANK_TYPE>::max()] for [unsigned short]. *)
Definition RANK_MAX : Z := 65535.
Definition RANK_MODULUS : Z := 65536.

(** [Set(): rank_(0), parent_(0), label_(UNITIALIZED), hasLabel_(false)] *)
Definition default_Set : SetNode :=
  {| rank_ := 0; hasLabel_ := false; label_ := UNITIALIZED; parent_ := None |}.

(** Field assignments. *)
Definition set_parent (p : option nat) (n : SetNode) : SetNode :=
  {| rank_ := rank_ n; hasLabel_ := hasLabel_ n; label_ := label_ n; parent_ := p |}.

(** [rank_++] on an [unsigned short]. *)
Definition incr_rank (n : SetNode) : SetNode :=
  {| rank_ := (rank_ n + 1) mod RANK_MODULUS; hasLabel_ := hasLabel_ n;
     label_ := label_ n; parent_ := parent_ n |}.

Definition set_label (l : Z) (n : SetNode) : SetNode :=
  {| rank_ := rank_ n; hasLabel_ := true; label_ := l; parent_ := parent_ n |}.

(** The forest: the array of nodes that the pointers point into. *)
Abbreviation forest := (list SetNode).

(** [Set* find()].  The recursion follows parent pointers, so it is driven
    by a fuel; [None] stands for a call that does not return (a cycle of
    parent pointers, or a pointer out of the array). The node's [parent_] is
    overwritten after the recursive call has returned, in the forest that
    call left behind. *)
Fixpoint find_fuel (fuel : nat) (f : forest) (this : nat) : option (forest * nat) :=
  match fuel with
  | O => None
  | S k =>
      match f !! this with
      | None => None
      | Some n =>
          match parent_ n with
          | None => Some (f, this)
          | Some p =>
              match find_fuel k f p with
              | None => None
              | Some (f', r) => Some (alter (set_parent (Some r)) this f', r)
              end
          end
      end
  end.

(** A walk to the root visits pairwise different nodes of the array, so
    as many steps as the array has nodes are enough (lemma
    [find_fuel_enough] below). *)
Definition find (f : forest) (this : nat) : option (forest * nat) :=
  find_fuel (length f) f this.

(** How a call of [unite] ends: by returning, or by
    [throw std::exception("Connected components graph overflow.")]. *)
Inductive unite_status : Type := UniteDone | UniteOverflow.

#[global] Instance unite_status_eq_dec : EqDecision unite_status.
Proof. solve_decision. Defined.

(** [static void unite(Set* x, Set* y)], to which the member
    [void unite(Set* x)] forwards with [this] as first argument.  The forest
    is returned in both cases: the exception leaves the writes made before
    it in place. *)
Definition unite (f : forest) (x y : nat) : option (forest * unite_status) :=
  match find f x with
  | None => None
  | Some (f1, xRoot) =>
      match find f1 y with
      | None => None
      | Some (f2, yRoot) =>
          match f2 !! xRoot, f2 !! yRoot with
          | Some nx, Some ny =>
              if rank_ nx >? rank_ ny then
                Some (alter (set_parent (Some xRoot)) yRoot f2, UniteDone)
              else if rank_ nx <? rank_ ny then
                Some (alter (set_parent (Some yRoot)) xRoot f2, UniteDone)
              else if decide (xRoot ≠ yRoot) then
                let f3 := alter (set_parent (Some xRoot)) yRoot f2 in
                match f3 !! xRoot with
                | None => None
                | Some nx' =>
                    if rank_ nx' =? RANK_MAX then Some (f3, UniteOverflow)
                    else Some (alter incr_rank xRoot f3, UniteDone)
                end
              else Some (f2, UniteDone)
          | _, _ => None
          end
      end
  end.

(** ** Trees of the forest *)

(** Only the parent pointers shape the forest. *)
Definition parents (f : forest) : list (option nat) := parent_ <$> f.

(** [walk P x r d]: following [d] parent links from [x] ends in [r], whose
    parent is null. *)
Inductive walk (P : list (option nat)) : nat → nat → nat → Prop :=
  | walk_root x : P !! x = Some None → walk P x x 0
  | walk_step x p r d :
      P !! x = Some (Some p) → walk P p r d → walk P x r (S d).

Definition root_of (f : forest) (x r : nat) : Prop := ∃ d, walk (parents f) x r d.

(** [on_walk P x y]: [y] is visited when walking from [x] to its root. *)
Inductive on_walk (P : list (option nat)) : nat → nat → Prop :=
  | on_walk_here x : on_walk P x x
  | on_walk_next x p y : P !! x = Some (Some p) → on_walk P p y → on_walk P x y.

(** Every node of the array has a root, and every rank is a value of
    [unsigned short]. *)
Definition acyclic (f : forest) : Prop :=
  ∀ x, (x < length f)%nat → ∃ r, root_of f x r.

Definition ranks_valid (f : forest) : Prop :=
  ∀ x n, f !! x = Some n → 0 ≤ rank_ n ≤ RANK_MAX.

Definition wf (f : forest) : Prop := acyclic f ∧ ranks_valid f.

(** Two nodes are in the same component when they have the same root. *)
Definition same (f : forest) (x y : nat) : Prop :=
  ∃ r, root_of f x r ∧ root_of f y r.

Definition rank_of (f : forest) (x : nat) : Z :=
  match f !! x with Some n => rank_ n | None => 0 end.

Definition parent_of (f : forest) (x : nat) : option nat :=
  match f !! x with Some n => parent_ n | None => None end.

Definition label_state (n : SetNode) : bool * Z := (hasLabel_ n, label_ n).

(** The forest states that the two operations produce from an array of
    freshly constructed nodes; [unite] counts when it returns normally. *)
Inductive reachable (n : nat) : forest → Prop :=
  | reachable_init : reachable n (replicate n default_Set)
  | reachable_find f x f' r :
      reachable n f → find f x = Some (f', r) → reachable n f'
  | reachable_unite f x y f' :
      reachable n f → unite f x y = Some (f', UniteDone) → reachable n f'.

(** One call of either operation on valid node pointers, however it ends. *)
Inductive op_step : forest → forest → Prop :=
  | op_find f x f' r : find f x = Some (f', r) → op_step f f'
  | op_unite f x y f' st : unite f x y = Some (f', st) → op_step f f'.

(** ** Object representation of a node *)

(** [std::vector<unsigned char> components_(n*sizeof(Set<U>), 0)] is read
    through a pointer to [Set<U>] cast from the address of its first byte.
    The layout is the one of the common 64-bit ABIs: fields in declaration
    order, each aligned to its size, the object padded at its end to a
    multiple of its strictest alignment, pointers of 8 bytes, integers
    little-endian, the null pointer all zero bits, [false] the zero byte.
    [U] is an integral type of 1, 2, 4, 8 or 16 bytes. *)
Definition POINTER_SIZE : Z := 8.

Definition label_size_ok (sizeofU : Z) : Prop :=
  sizeofU = 1 ∨ sizeofU = 2 ∨ sizeofU = 4 ∨ sizeofU = 8 ∨ sizeofU = 16.

Definition align_up (off a : Z) : Z := ((off + a - 1) / a) * a.

Definition offset_rank : Z := 0.
Definition offset_hasLabel : Z := 2.
Definition offset_label (sizeofU : Z) : Z := align_up 3 sizeofU.
Definition offset_parent (sizeofU : Z) : Z :=
  align_up (offset_label sizeofU + sizeofU) POINTER_SIZE.
Definition alignof_Set (sizeofU : Z) : Z := Z.max POINTER_SIZE sizeofU.
Definition sizeof_Set (sizeofU : Z) : Z :=
  align_up (offset_parent sizeofU + POINTER_SIZE) (alignof_Set sizeofU).

Definition le_decode (bs : list Z) : Z := foldr (λ b acc, b + 256 * acc) 0 bs.

(** The integer held by the [size] bytes at offset [off] of the bytes [bs];
    there is none when these bytes do not all lie inside [bs]. *)
Definition field (off size : Z) (bs : list Z) : option Z :=
  if decide (0 ≤ off ∧ 0 ≤ size ∧ off + size ≤ Z.of_nat (length bs))
  then Some (le_decode (take (Z.to_nat size) (drop (Z.to_nat off) bs)))
  else None.

(** A non-null pointer into the array whose first node is at address
    [base] designates the node it points to. *)
Definition decode_pointer (sizeofU base p : Z) : option nat :=
  if p =? 0 then None else Some (Z.to_nat ((p - base) / sizeof_Set sizeofU)).

(** The node whose object representation is [bs]: exactly
    [sizeof(Set<U>)] bytes. *)
Definition decode_Set (sizeofU base : Z) (bs : list Z) : option SetNode :=
  if decide (Z.of_nat (length bs) = sizeof_Set sizeofU) then
    r ← field offset_rank 2 bs;
    h ← field offset_hasLabel 1 bs;
    l ← field (offset_label sizeofU) sizeofU bs;
    p ← field (offset_parent sizeofU) POINTER_SIZE bs;
    Some {| rank_ := r; hasLabel_ := negb (h =? 0); label_ := l;
            parent_ := decode_pointer sizeofU base p |}
  else None.

(** The first [n] nodes of the array laid over the bytes [bs], node [i] in
    the bytes from [i*sizeof(Set<U>)] on; there is no such array when [bs]
    is too short for [n] nodes. *)
Fixpoint decode_array (sizeofU base : Z) (n : nat) (bs : list Z) : option forest :=
  match n with
  | O => Some []
  | S k =>
      nd ← decode_Set sizeofU base (take (Z.to_nat (sizeof_Set sizeofU)) bs);
      f ← decode_array sizeofU base k (drop (Z.to_nat (sizeof_Set sizeofU)) bs);
      Some (nd :: f)
  end.

(** The commented-out alternative of the source,
    [std::vector<Set<U>> components_(width*height*depth)]. *)
Definition constructed_array (n : nat) : forest := replicate n default_Set.

(** ** The volume labeller *)

(** [struct ComponentStatistics].  [pixelCount_] is an [unsigned long], of
    32 bits with the compiler the source is written for; its increment wraps. *)
Definition ULONG_MODULUS : Z := 2 ^ 32.

Record ComponentStatistics : Type := mkStats {
  pixelCount_ : Z;
  inputLabel_ : Z
}.

#[global] Instance ComponentStatistics_eq_dec : EqDecision ComponentStatistics.
Proof. solve_decision. Defined.

(** The template parameters and the arguments of
    [findConnectedComponents3d].  [T] and [U] are integral types given by
    their sizes in bytes and, for [U], its largest value.  The input buffer
    is the memory read through [inputBuffer]: the [T] found at a byte
    offset.  The output buffer is the memory written through [outputBuffer]:
    the [U] values stored at byte offsets, with its content at the call.
    [componentsBase] is the address the forest happens to be allocated at,
    [heapBytes] the number of bytes the allocator can grant at the call. *)
Record Args : Type := mkArgs {
  sizeofT : Z;
  sizeofU : Z;
  maxU : Z;
  width : Z;
  height : Z;
  depth : Z;
  inputBuffer : Z → Z;
  inputLeap : Z;
  inputStride : Z;
  backgroundColor : Z;
  outputBuffer : gmap Z Z;
  outputLeap : Z;
  outputStride : Z;
  backgroundLabel : Z;
  componentsBase : Z;
  heapBytes : Z
}.

(** How a call ends: by returning, by the exception of [unite], by the
    label-range failure of section 7 of the specification, by the
    [std::length_error] or the [std::bad_alloc] of the [std::vector]
    constructor, with behaviour that the language leaves undefined, or not at
    all ([find] not returning). *)
Inductive result (A : Type) : Type :=
  | Ok (a : A)
  | CapacityOverflow
  | LabelRangeOverflow
  | LengthError
  | BadAlloc
  | Undefined
  | NoReturn.
Arguments Ok {A} a.
Arguments CapacityOverflow {A}.
Arguments LabelRangeOverflow {A}.
Arguments LengthError {A}.
Arguments BadAlloc {A}.
Arguments Undefined {A}.
Arguments NoReturn {A}.

Definition rbind {A B : Type} (r : result A) (k : A → result B) : result B :=
  match r with
  | Ok a => k a
  | CapacityOverflow => CapacityOverflow
  | LabelRangeOverflow => LabelRangeOverflow
  | LengthError => LengthError
  | BadAlloc => BadAlloc
  | Undefined => Undefined
  | NoReturn => NoReturn
  end.

(** Arithmetic on [int], of 32 bits: a sum or product outside the range of
    the type is undefined.  [size_t] has 64 bits and wraps around;
    [max_size()] of a vector of bytes is the largest [ptrdiff_t]. *)
Definition INT_MIN : Z := -2147483648.
Definition INT_MAX : Z := 2147483647.
Definition SIZE_MODULUS : Z := 18446744073709551616.
Definition MAX_SIZE : Z := 9223372036854775807.

Definition in_int (x : Z) : bool := (INT_MIN <=? x) && (x <=? INT_MAX).

Definition int_mul (x y : Z) : result Z :=
  if in_int (x * y) then Ok (x * y) else Undefined.

Definition int_add (x y : Z) : result Z :=
  if in_int (x + y) then Ok (x + y) else Undefined.

(** [for (...) body], left as soon as the body throws. *)
Fixpoint for_each {A S : Type} (l : list A) (body : A → S → result S) (s : S) : result S :=
  match l with
  | [] => Ok s
  | x :: l' => rbind (body x s) (for_each l' body)
  end.

(** [for (int i = 0; i < n; i++)] *)
Definition zrange (n : Z) : list Z := seqZ 0 n.

(** [width*height*depth], computed on [int] from left to right. *)
Definition node_count (a : Args) : result Z :=
  rbind (int_mul (width a) (height a)) (λ wh, int_mul wh (depth a)).

(** [std::vector<unsigned char> components_(width*height*depth*sizeof(Set<U>), 0)]:
    the count is converted to [size_t] and multiplied by [sizeof(Set<U>)]
    there.  The constructor throws [std::length_error] for a size beyond
    [max_size()], which is where a negative count ends up, and
    [std::bad_alloc] when the allocator does not grant the bytes; an empty
    vector asks for none. *)
Definition components_ (a : Args) : result (list Z) :=
  rbind (node_count a) (λ n,
  let size := (n mod SIZE_MODULUS * sizeof_Set (sizeofU a)) mod SIZE_MODULUS in
  if MAX_SIZE <? size then LengthError
  else if (0 <? size) && (heapBytes a <? size) then BadAlloc
  else Ok (replicate (Z.to_nat size) 0)).

(** The allocation at the head of the function: the vector of bytes, and
    the pointer [components] to its first byte, [&components_[0]], which is
    undefined on an empty vector.  The forest is the array of
    [width*height*depth] nodes seen through that pointer. *)
Definition allocate (a : Args) : result forest :=
  rbind (components_ a) (λ bytes,
  match bytes with
  | [] => Undefined
  | _ :: _ =>
      rbind (node_count a) (λ n,
      match decode_array (sizeofU a) (componentsBase a) (Z.to_nat n) bytes with
      | Some components => Ok components
      | None => Undefined
      end)
  end).

(** Face connectivity: back, left, up. *)
Definition N : nat := 3.
Definition du : list Z := [0; -1; 0].
Definition dv : list Z := [0; 0; -1].
Definition dw : list Z := [-1; 0; 0].

(** [p[u]], where [p] points to a [T] at byte offset
    [w*inputLeap + v*inputStride] from [inputBuffer]. *)
Definition voxel (a : Args) (u v w : Z) : Z :=
  inputBuffer a (w * inputLeap a + v * inputStride a + u * sizeofT a).

(** [s + u] for [s = &components[w*width*height + v*width]]. *)
Definition node_index (a : Args) (u v w : Z) : nat :=
  Z.to_nat (w * width a * height a + v * width a + u).

Definition output_offset (a : Args) (u v w : Z) : Z :=
  w * outputLeap a + v * outputStride a + u * sizeofU a.

Definition in_volume (a : Args) (u v w : Z) : bool :=
  (0 <=? u) && (u <? width a) && (0 <=? v) && (v <? height a)
  && (0 <=? w) && (w <? depth a).

Definition foreground (a : Args) (u v w : Z) : bool :=
  negb (voxel a u v w =? backgroundColor a).

Definition unite_result (f : forest) (x y : nat) : result forest :=
  match unite f x y with
  | None => NoReturn
  | Some (f', UniteDone) => Ok f'
  | Some (_, UniteOverflow) => CapacityOverflow
  end.

(** Modelled from the spec: the body of the scan loop, before which the
    source file breaks off (section 4.2, step 2).  A background voxel is
    left alone; a foreground voxel is united with each of its three backward
    face neighbours that lies in the volume and is foreground. *)
Definition scan_voxel (a : Args) (w v u : Z) (f : forest) : result forest :=
  if foreground a u v w then
    for_each (seq 0 N)
      (λ n f,
         let uu := u + nth n du 0 in
         let vv := v + nth n dv 0 in
         let ww := w + nth n dw 0 in
         if in_volume a uu vv ww && foreground a uu vv ww
         then unite_result f (node_index a u v w) (node_index a uu vv ww)
         else Ok f)
      f
  else Ok f.

(** The head of the row loop.  The row pointer [p] is [inputBuffer] moved
    by [w*inputLeap] and then by [v*inputStride] bytes, each product computed
    on [int]; the first node [s] of the row has the index
    [w*width*height + v*width], computed on [int]. *)
Definition row_offset (a : Args) (v w : Z) : result Z :=
  rbind (int_mul w (inputLeap a)) (λ x,
  rbind (int_mul v (inputStride a)) (λ y, Ok (x + y))).

Definition row_index (a : Args) (v w : Z) : result Z :=
  rbind (int_mul w (width a)) (λ x,
  rbind (int_mul x (height a)) (λ y,
  rbind (int_mul v (width a)) (λ z, int_add y z))).

Definition row_head (a : Args) (v w : Z) : result (Z * Z) :=
  rbind (row_offset a v w) (λ p, rbind (row_index a v w) (λ s, Ok (p, s))).

(** The forward scan: the loops over [w] and [v] of the source with the
    head of the row loop, around the loop over the columns of the row with
    the body above. *)
Definition scan (a : Args) (f : forest) : result forest :=
  for_each (zrange (depth a))
    (λ w, for_each (zrange (height a))
       (λ v f, rbind (row_head a v w)
                 (λ _, for_each (zrange (width a)) (scan_voxel a w v) f)))
    f.

(** [pixelCount_++] *)
Definition bump (c : ComponentStatistics) : ComponentStatistics :=
  {| pixelCount_ := (pixelCount_ c + 1) mod ULONG_MODULUS;
     inputLabel_ := inputLabel_ c |}.

(** The state of the resolution pass: forest, statistics, output memory. *)
Abbreviation resolution := (list SetNode * list ComponentStatistics * gmap Z Z)%type.

(** Modelled from the spec: the body of the resolution pass, absent from
    the source file (section 4.2, step 3).  A background voxel gets
    [backgroundLabel].  A foreground voxel gets the label of its root; a
    root without a label first receives the next unused label, the number of
    records after a new record [{0, voxel value}] is pushed, so labels count
    from 1 in discovery order and index the statistics list; a label beyond
    the range of [U] is the failure of section 7. *)
Definition resolve_voxel (a : Args) (w v u : Z) (st : resolution) : result resolution :=
  let '(f, stats, out) := st in
  let q := output_offset a u v w in
  if foreground a u v w then
    match find f (node_index a u v w) with
    | None => NoReturn
    | Some (f1, root) =>
        match f1 !! root with
        | None => NoReturn
        | Some nr =>
            if hasLabel_ nr then
              Ok (f1, alter bump (Z.to_nat (label_ nr - 1)) stats,
                  <[q := label_ nr]> out)
            else
              let l := Z.of_nat (length stats) + 1 in
              if maxU a <? l then LabelRangeOverflow
              else
                let stats' := stats ++ [mkStats 0 (voxel a u v w)] in
                Ok (alter (set_label l) root f1,
                    alter bump (Z.to_nat (l - 1)) stats',
                    <[q := l]> out)
        end
    end
  else Ok (f, stats, <[q := backgroundLabel a]> out).

(** Modelled from the spec: the resolution pass visits the voxels in the
    order of the scan (section 4.2, step 3). *)
Definition resolve (a : Args) (st : resolution) : result resolution :=
  for_each (zrange (depth a))
    (λ w, for_each (zrange (height a))
       (λ v, for_each (zrange (width a)) (resolve_voxel a w v)))
    st.

(** [findConnectedComponents3d]: allocation, scan, resolution.  The result
    is the returned statistics and the output memory the call leaves behind.
    The loop bodies, which the specification describes without machine
    arithmetic, compute their offsets and indices on [Z]. *)
Definition findConnectedComponents3d (a : Args)
  : result (list ComponentStatistics * gmap Z Z) :=
  rbind (allocate a) (λ components,
  rbind (scan a components) (λ f,
  rbind (resolve a (f, [], outputBuffer a)) (λ st,
  let '(_, stats, out) := st in Ok (stats, out)))).

(** ** Notions of the specification *)

(** The voxels of the volume, as coordinates [(u, v, w)]. *)
Abbreviation coord := (Z * Z * Z)%type.

Definition in_vol (a : Args) (c : coord) : Prop :=
  let '(u, v, w) := c in
  0 ≤ u < width a ∧ 0 ≤ v < height a ∧ 0 ≤ w < depth a.

Definition is_fg (a : Args) (c : coord) : Prop :=
  let '(u, v, w) := c in voxel a u v w ≠ backgroundColor a.

(** Two voxels share a face: they differ by one in exactly one axis. *)
Definition face_adjacent (c c' : coord) : Prop :=
  let '(u, v, w) := c in
  let '(u', v', w') := c' in
  Z.abs (u - u') + Z.abs (v - v') + Z.abs (w - w') = 1.

(** One step of a path of face-adjacent foreground voxels. *)
Definition fg_step (a : Args) (c c' : coord) : Prop :=
  in_vol a c ∧ is_fg a c ∧ in_vol a c' ∧ is_fg a c' ∧ face_adjacent c c'.

Definition connected (a : Args) (c c' : coord) : Prop := rtc (fg_step a) c c'.

Definition label_at (a : Args) (out : gmap Z Z) (c : coord) : option Z :=
  let '(u, v, w) := c in out !! output_offset a u v w.

(** The volume in scan order. *)
Definition voxels (a : Args) : list coord :=
  w ← zrange (depth a); v ← zrange (height a); u ← zrange (width a); [(u, v, w)].

Definition background_count (a : Args) : Z :=
  Z.of_nat (length (filter (λ c, ¬ is_fg a c) (voxels a))).

Definition foreground_count (a : Args) : Z :=
  Z.of_nat (length (filter (is_fg a) (voxels a))).

Definition total_pixelCount (stats : list ComponentStatistics) : Z :=
  foldr (λ c acc, pixelCount_ c + acc) 0 stats.

(** The pairs of nodes the scan unites, in the order it unites them. *)
Definition voxel_edges (a : Args) (c : coord) : list (nat * nat) :=
  let '(u, v, w) := c in
  if foreground a u v w then
    n ← seq 0 N;
    let uu := u + nth n du 0 in
    let vv := v + nth n dv 0 in
    let ww := w + nth n dw 0 in
    if in_volume a uu vv ww && foreground a uu vv ww
    then [(node_index a u v w, node_index a uu vv ww)]
    else []
  else [].

Definition scan_edges (a : Args) : list (nat * nat) := voxels a ≫= voxel_edges a.

Definition unite_list (es : list (nat * nat)) (f : forest) : result forest :=
  for_each es (λ e g, unite_result g e.1 e.2) f.

Definition resolve_at (a : Args) (c : coord) (st : resolution) : result resolution :=
  let '(u, v, w) := c in resolve_voxel a w v u st.

(** The addressing of the output rows and slices does not overlap
    (section 3: the caller's responsibility). *)
Definition output_layout_ok (a : Args) : Prop :=
  0 < sizeofU a ∧ width a * sizeofU a ≤ outputStride a
  ∧ height a * outputStride a ≤ outputLeap a.

(** Inputs for the examples: a tightly packed volume of bytes given by its
    voxels in scan order, labels of one byte. *)
Definition packed (w h d : Z) (vox : list Z) (bg bgl : Z) : Args :=
  {| sizeofT := 1; sizeofU := 1; maxU := 255;
     width := w; height := h; depth := d;
     inputBuffer := λ off, nth (Z.to_nat off) vox 0;
     inputLeap := w * h; inputStride := w;
     backgroundColor := bg;
     outputBuffer := ∅;
     outputLeap := w * h; outputStride := w;
     backgroundLabel := bgl;
     componentsBase := 4096;
     heapBytes := 1048576 |}.

Definition row_5_5_0 : Args := packed 3 1 1 [5; 5; 0] 0 0.
Definition row_5_0_5 : Args := packed 3 1 1 [5; 0; 5] 0 0.
Definition block_2_2 : Args := packed 2 2 1 [9; 9; 9; 9] 0 0.

(** A volume with two sides below zero, and a 2×2×1 volume of voxels 5
    whose strides and leaps are all zero. *)
Definition negative_sides : Args := packed (-1) (-1) 1 [] 0 0.
Definition strides_zero : Args :=
  mkArgs 1 1 255 2 2 1 (λ _, 5) 0 0 0 ∅ 0 0 0 4096 1048576.

Definition stats_of (r : result (list ComponentStatistics * gmap Z Z))
  : option (list ComponentStatistics) :=
  match r with Ok (s, _) => Some s | _ => None end.

Definition labels_of (a : Args) (r : result (list ComponentStatistics * gmap Z Z))
  : option (list (option Z)) :=
  match r with
  | Ok (_, out) => Some ((λ c, label_at a out c) <$> voxels a)
  | _ => None
  end.

(** ** Notions used in the proofs *)

(** [P'] is [P] with some nodes of the tree of root [r], the root apart,
    re-pointed to [r]. *)
Definition repointed (P P' : list (option nat)) (r : nat) : Prop :=
  ∀ y, P' !! y = P !! y ∨ ((∃ d, walk P y r (S d)) ∧ P' !! y = Some (Some r)).

(** What a call [x->find()] returning [r] does to the forest: nodes visited
    by the walk, the root apart, get [r] as parent; nothing else changes. *)
Definition compressed (f : forest) (x r : nat) (f' : forest) : Prop :=
  length f' = length f
  ∧ (∀ y, f' !! y = f !! y
          ∨ (on_walk (parents f) x y ∧ y ≠ r
             ∧ f' !! y = set_parent (Some r) <$> f !! y))
  ∧ (∀ y, on_walk (parents f) x y → y ≠ r →
          f' !! y = set_parent (Some r) <$> f !! y).

(** Forests that differ by path compressions only. *)
Inductive settled : forest → forest → Prop :=
  | settled_refl f : settled f f
  | settled_step f x r f1 f2 :
      root_of f x r → compressed f x r f1 → settled f1 f2 → settled f f2.

(** The branches of [unite] once both roots are found: [f2] is the forest
    after the two [find]s, [rx] and [ry] the ranks of the roots. *)
Inductive linked (f2 : forest) (xr yr : nat) (rx ry : Z)
  : forest → unite_status → Prop :=
  | linked_gt :
      rx > ry →
      linked f2 xr yr rx ry (alter (set_parent (Some xr)) yr f2) UniteDone
  | linked_lt :
      rx < ry →
      linked f2 xr yr rx ry (alter (set_parent (Some yr)) xr f2) UniteDone
  | linked_eq :
      rx = ry → xr ≠ yr → rx ≠ RANK_MAX →
      linked f2 xr yr rx ry
        (alter incr_rank xr (alter (set_parent (Some xr)) yr f2)) UniteDone
  | linked_overflow :
      rx = ry → xr ≠ yr → rx = RANK_MAX →
      linked f2 xr yr rx ry (alter (set_parent (Some xr)) yr f2) UniteOverflow
  | linked_same :
      rx = ry → xr = yr → linked f2 xr yr rx ry f2 UniteDone.

(** [relinked f l w f']: the trees of [f'] are those of [f], except that
    the tree of root [l] has become part of the tree of root [w]. *)
Definition relinked (f : forest) (l w : nat) (f' : forest) : Prop :=
  ∀ z s, root_of f z s → root_of f' z (if decide (s = l) then w else s).

(** A forest the operations build from four fresh nodes:
    [unite(0,1); unite(2,3); unite(0,2)] leaves the chain 3 → 2 → 0. *)
Definition chain4 : forest :=
  [ mkSet 2 false 0 None; mkSet 0 false 0 (Some 0%nat);
    mkSet 1 false 0 (Some 0%nat); mkSet 0 false 0 (Some 2%nat) ].

(** Two roots whose rank counter is at its largest value. *)
Definition saturated2 : forest :=
  [ mkSet 65535 false 0 None; mkSet 65535 false 0 None ].

(** Union by rank: a node's rank is below its parent's. *)
Definition ranked (f : forest) : Prop :=
  ∀ x p, parent_of f x = Some p → rank_of f x < rank_of f p.

(** The equivalence generated by the components of [f] and the pairs [es]. *)
Definition joined (f : forest) (es : list (nat * nat)) : relation nat :=
  rtsc (λ a b, same f a b ∨ (a, b) ∈ es).

(** [c'] is one of the three backward face neighbours of [c]. *)
Definition backward (c c' : coord) : Prop :=
  let '(u, v, w) := c in
  c' = (u, v, w - 1) ∨ c' = (u - 1, v, w) ∨ c' = (u, v - 1, w).

(** The pairs of voxels the scan unites. *)
Definition scan_pair (a : Args) (c c' : coord) : Prop :=
  in_vol a c ∧ is_fg a c ∧ in_vol a c' ∧ is_fg a c' ∧ backward c c'.

(** The forest node of a voxel. *)
Definition index_of (a : Args) (c : coord) : nat :=
  let '(u, v, w) := c in node_index a u v w.

(** The state of the resolution pass after the voxels [pre], on the forest
    [fs] that the scan produced. *)
Definition resolved (a : Args) (fs : forest) (pre : list coord) (st : resolution) : Prop :=
  let '(f, stats, out) := st in
  wf f ∧ length f = length fs
  ∧ (∀ x r, root_of f x r ↔ root_of fs x r)
  ∧ (∀ x nd, f !! x = Some nd → hasLabel_ nd = true →
       1 ≤ label_ nd ≤ Z.of_nat (length stats))
  ∧ (∀ x y nx ny, f !! x = Some nx → f !! y = Some ny →
       hasLabel_ nx = true → hasLabel_ ny = true → label_ nx = label_ ny → x = y)
  ∧ (length stats ≤ length (filter (is_fg a) pre))%nat
  ∧ (Z.of_nat (length (voxels a)) < ULONG_MODULUS →
       Forall (λ c, 0 ≤ pixelCount_ c) stats
       ∧ total_pixelCount stats = Z.of_nat (length (filter (is_fg a) pre)))
  ∧ (output_layout_ok a →
       (∀ c, c ∈ pre → is_fg a c →
          ∃ r nr, root_of f (index_of a c) r ∧ f !! r = Some nr
                  ∧ hasLabel_ nr = true ∧ label_at a out c = Some (label_ nr))
       ∧ (∀ c, c ∈ pre → ¬ is_fg a c → label_at a out c = Some (backgroundLabel a))).

(** ** Notions of the further properties *)

(** The chain 3 → 2 → 0 after [find] on node 3. *)
Definition chain4_flat : forest :=
  [ mkSet 2 false 0 None; mkSet 0 false 0 (Some 0%nat);
    mkSet 1 false 0 (Some 0%nat); mkSet 0 false 0 (Some 0%nat) ].

(** Union by rank keeps trees heavy: the tree of a root of rank [k] has at
    least [2^k] nodes. *)
Definition heavy (f : forest) : Prop :=
  ∀ r, root_of f r r →
    ∃ l : list nat, NoDup l ∧ (∀ x, x ∈ l → root_of f x r)
      ∧ 2 ^ rank_of f r ≤ Z.of_nat (length l).

(** The number of components: the nodes whose parent is null. *)
Definition count_roots (f : forest) : nat :=
  length (filter (λ n, parent_ n = None) f).

(** The offsets of all rows from [inputBuffer] are values of [int]. *)
Definition row_offsets_in_int (a : Args) : Prop :=
  (INT_MIN ≤ (depth a - 1) * inputLeap a ≤ INT_MAX)
  ∧ (INT_MIN ≤ (height a - 1) * inputStride a ≤ INT_MAX).

(** The layout under which rows and slices of the input do not overlap. *)
Definition input_layout_ok (a : Args) : Prop :=
  0 < sizeofT a ∧ width a * sizeofT a ≤ inputStride a
  ∧ height a * inputStride a ≤ inputLeap a.

(** ** [printImage] *)

(** What [printImage] puts to [cout]: pixel values, tabs and line ends. *)
Inductive token : Type := Value (t : Z) | Tab | Endl.

#[global] Instance token_eq_dec : EqDecision token.
Proof. solve_decision. Defined.

(** [template<typename T> void printImage(int width, int height,
    void* buffer, int stride)]: [buffer] is the memory read through the
    pointer, the [T] found at a byte offset; [p] starts each row at
    [v*stride] and advances by one [T] per column. *)
Definition printImage (sizeofT : Z) (width height : Z) (buffer : Z → Z) (stride : Z)
  : list token :=
  v ← zrange height;
  (u ← zrange width;
   Value (buffer (v * stride + u * sizeofT))
   :: (if decide (u ≠ width - 1) then [Tab] else []))
  ++ [Endl].



(** * Properties *)

Example scenario_A :
  let a := packed 1 1 1 [7] 0 0 in
  stats_of (findConnectedComponents3d a) = Some [mkStats 1 7]
  ∧ labels_of a (findConnectedComponents3d a) = Some [Some 1].
Proof. vm_compute. done. Qed.

Example scenario_B :
  let a := packed 3 1 1 [5; 5; 0] 0 0 in
  stats_of (findConnectedComponents3d a) = Some [mkStats 2 5]
  ∧ labels_of a (findConnectedComponents3d a) = Some [Some 1; Some 1; Some 0].
Proof. vm_compute. done. Qed.

Example scenario_C :
  let a := packed 3 1 1 [5; 0; 5] 0 0 in
  stats_of (findConnectedComponents3d a) = Some [mkStats 1 5; mkStats 1 5]
  ∧ labels_of a (findConnectedComponents3d a) = Some [Some 1; Some 0; Some 2].
Proof. vm_compute. done. Qed.

Example scenario_D :
  let a := packed 2 2 1 [9; 9; 9; 9] 0 0 in
  stats_of (findConnectedComponents3d a) = Some [mkStats 4 9]
  ∧ labels_of a (findConnectedComponents3d a)
    = Some [Some 1; Some 1; Some 1; Some 1].
Proof. vm_compute. done. Qed.

(** The node has the padded size of 16 bytes that the source counts on, as
    long as the label type has at most 4 bytes. *)
Example sizeof_Set_padded :
  sizeof_Set 1 = 16 ∧ sizeof_Set 2 = 16 ∧ sizeof_Set 4 = 16 ∧ sizeof_Set 8 = 24
  ∧ sizeof_Set 16 = 48.
Proof. vm_compute. done. Qed.

(** The bytes of a node of rank 1 with the label 7 that points to the
    second node of an array at address 4096, for a label type of one byte;
    one byte less is no node. *)
Example decode_Set_fields :
  decode_Set 1 4096 [1; 0; 1; 7; 0; 0; 0; 0; 16; 16; 0; 0; 0; 0; 0; 0]
  = Some (mkSet 1 true 7 (Some 1%nat))
  ∧ decode_Set 1 4096 [1; 0; 1; 7; 0; 0; 0; 0; 16; 16; 0; 0; 0; 0; 0] = None.
Proof. vm_compute. done. Qed.

(** A product of the dimensions that is no value of [int]: the call is
    undefined. *)
Example count_overflow : allocate (packed 46341 46341 1 [] 0 0) = Undefined.
Proof. vm_compute. reflexivity. Qed.

(** Dimensions below zero are outside the interface (section 6): with two
    of them negative the call returns an empty list for a positive
    [width*height*depth]. *)
Example negative_dimensions :
  findConnectedComponents3d negative_sides = Ok ([], ∅).
Proof. vm_compute. reflexivity. Qed.

(** ** Walks in a parent array *)

Lemma walk_det P x r d r' d' : walk P x r d → walk P x r' d' → r = r' ∧ d = d'.
Proof.
  intros H. revert r' d'. induction H as [x Hx | x p r d Hx Hp IH]; intros r' d' H'.
  - inversion H'; simplify_eq; done.
  - inversion H' as [| ? p' ? e Hx' Hp']; simplify_eq.
    destruct (IH _ _ Hp') as [-> ->]. done.
Qed.

Lemma walk_lt P x r d : walk P x r d → (x < length P)%nat.
Proof. destruct 1; eapply lookup_lt_Some; eauto. Qed.

Lemma walk_ends_in_root P x r d : walk P x r d → P !! r = Some None.
Proof. induction 1; auto. Qed.

Lemma walk_root_lt P x r d : walk P x r d → (r < length P)%nat.
Proof. intros H. eapply lookup_lt_Some, walk_ends_in_root, H. Qed.

Lemma walk_from_root P x r d : walk P x r d → P !! x = Some None → r = x ∧ d = 0%nat.
Proof. intros H Hx. eapply walk_det; [exact H | by constructor]. Qed.

Lemma on_walk_walk P x r d y :
  walk P x r d → on_walk P x y → ∃ e, (e ≤ d)%nat ∧ walk P y r e.
Proof.
  intros H Hy. revert r d H. induction Hy as [x | x p y Hx Hy IH]; intros r d H.
  - exists d. split; [lia | done].
  - inversion H as [? Hx' | ? p' ? e Hx' Hp']; simplify_eq.
    destruct (IH _ _ Hp') as (e' & Hle & Hw). exists e'. split; [lia | done].
Qed.

Lemma on_walk_root P x r d : walk P x r d → on_walk P x r.
Proof. induction 1; [constructor | econstructor; eauto]. Qed.

Lemma on_walk_trans P x y z : on_walk P x y → on_walk P y z → on_walk P x z.
Proof. induction 1; [done | econstructor; eauto]. Qed.

(** A node is not visited by the walk that starts at its parent. *)
Lemma on_walk_parent_fresh P x p r d :
  P !! x = Some (Some p) → walk P p r d → ¬ on_walk P p x.
Proof.
  intros Hx Hp Hon.
  destruct (on_walk_walk _ _ _ _ _ Hp Hon) as (e & Hle & Hw).
  destruct (walk_det _ _ _ _ _ _ Hw (walk_step _ _ _ _ _ Hx Hp)) as [_ ->]. lia.
Qed.

(** The nodes of a walk: pairwise different indices of the array. *)
Lemma walk_nodes P x r d :
  walk P x r d →
  ∃ l : list nat, length l = S d ∧ NoDup l
    ∧ ∀ y, y ∈ l → ∃ e, (e ≤ d)%nat ∧ walk P y r e.
Proof.
  induction 1 as [x Hx | x p r d Hx Hp (l & Hlen & Hnd & Hl)].
  - exists [x]. split; [done |]. split; [apply NoDup_singleton |].
    intros y ->%list_elem_of_singleton. exists 0%nat. split; [lia | by constructor].
  - exists (x :: l). split; [simpl; lia |]. split.
    + apply NoDup_cons. split; [| done]. intros Hin.
      destruct (Hl _ Hin) as (e & Hle & Hw).
      destruct (walk_det _ _ _ _ _ _ Hw (walk_step _ _ _ _ _ Hx Hp)) as [_ ->]. lia.
    + intros y [-> | Hin]%elem_of_cons.
      * exists (S d). split; [lia | by econstructor].
      * destruct (Hl _ Hin) as (e & Hle & Hw). exists e. split; [lia | done].
Qed.

Lemma walk_bound P x r d : walk P x r d → (d < length P)%nat.
Proof.
  intros H. destruct (walk_nodes _ _ _ _ H) as (l & Hlen & Hnd & Hl).
  assert (l ⊆+ seq 0 (length P)) as Hsub.
  { apply NoDup_submseteq; [done |]. intros y Hy.
    destruct (Hl _ Hy) as (e & _ & Hw). apply elem_of_seq.
    pose proof (walk_lt _ _ _ _ Hw). lia. }
  apply submseteq_length in Hsub. rewrite length_seq in Hsub. lia.
Qed.

(** ** Re-pointing nodes to their root, and linking two roots *)

Lemma compress_root_kept P P' r y :
  repointed P P' r → P !! y = Some None → P' !! y = Some None.
Proof.
  intros Hchg Hy. destruct (Hchg y) as [-> | [[d Hw] _]]; [done |].
  destruct (walk_from_root _ _ _ _ Hw Hy) as [_ ?]. lia.
Qed.

Lemma walk_compress P P' r y s e :
  repointed P P' r → walk P y s e → ∃ e', (e' ≤ e)%nat ∧ walk P' y s e'.
Proof.
  intros Hchg. induction 1 as [y Hy | y p s e Hy Hp (e' & Hle & IH)].
  - exists 0%nat. split; [lia |]. constructor. by eapply compress_root_kept.
  - destruct (Hchg y) as [Heq | [[d Hw] Hy']].
    + exists (S e'). split; [lia |]. econstructor; [by rewrite Heq | done].
    + destruct (walk_det _ _ _ _ _ _ Hw (walk_step _ _ _ _ _ Hy Hp)) as [-> _].
      exists 1%nat. split; [lia |]. econstructor; [done |]. constructor.
      eapply compress_root_kept; [done |]. eapply walk_ends_in_root, Hw.
Qed.

Lemma walk_compress_inv P P' r y s e :
  repointed P P' r → walk P' y s e → ∃ e', walk P y s e'.
Proof.
  intros Hchg. induction 1 as [y Hy | y p s e Hy Hp (e' & IH)].
  - destruct (Hchg y) as [Heq | [_ Hy']]; [| congruence].
    exists 0%nat. constructor. congruence.
  - destruct (Hchg y) as [Heq | [[d Hw] Hy']].
    + exists (S e'). econstructor; [by rewrite <- Heq | done].
    + assert (p = r) as -> by congruence.
      destruct (walk_from_root _ _ _ _ IH (walk_ends_in_root _ _ _ _ Hw)) as [-> _].
      eauto.
Qed.

(** After the root [l] is attached under the root [w], the trees of [l]
    and [w] have root [w] and all other trees are as before. *)
Lemma walk_link P l w y s e :
  P !! l = Some None → P !! w = Some None → l ≠ w →
  walk P y s e →
  ∃ e', walk (<[l := Some w]> P) y (if decide (s = l) then w else s) e'.
Proof.
  intros Hl Hw Hne. induction 1 as [y Hy | y p s e Hy Hp (e' & IH)].
  - destruct (decide (y = l)) as [-> | Hyl].
    + exists 1%nat. econstructor.
      * apply list_lookup_insert_eq. eapply lookup_lt_Some, Hl.
      * constructor. by rewrite list_lookup_insert_ne.
    + exists 0%nat. constructor. by rewrite list_lookup_insert_ne.
  - exists (S e'). econstructor; [| exact IH].
    rewrite list_lookup_insert_ne; [done |]. intros ->. congruence.
Qed.

(** ** The forest seen through its parent array *)

Lemma parents_lookup f y : parents f !! y = parent_ <$> f !! y.
Proof. apply list_lookup_fmap. Qed.

Lemma parents_length f : length (parents f) = length f.
Proof. apply length_fmap. Qed.

Lemma parents_alter_parent f x q :
  parents (alter (set_parent q) x f) = <[x := q]> (parents f).
Proof.
  revert x. induction f as [| n f IH]; intros [| x]; simpl; try done.
  f_equal. apply IH.
Qed.

Lemma parents_alter_keep g f x :
  (∀ n, parent_ (g n) = parent_ n) → parents (alter g x f) = parents f.
Proof.
  intros Hg. revert x. induction f as [| n f IH]; intros [| x]; simpl; try done.
  - unfold parents in *. simpl. by rewrite Hg.
  - f_equal. apply IH.
Qed.

Lemma root_of_det f x r r' : root_of f x r → root_of f x r' → r = r'.
Proof. intros [d H] [d' H']. by destruct (walk_det _ _ _ _ _ _ H H'). Qed.

Lemma root_of_lt f x r : root_of f x r → (x < length f)%nat.
Proof. intros [d H]. apply walk_lt in H. by rewrite parents_length in H. Qed.

Lemma root_of_root f x r : root_of f x r → root_of f r r.
Proof. intros [d H]. exists 0%nat. constructor. eapply walk_ends_in_root, H. Qed.

Lemma root_of_is_root f x r :
  root_of f x r → ∃ n, f !! r = Some n ∧ parent_ n = None.
Proof.
  intros [d H]. apply walk_ends_in_root in H. rewrite parents_lookup in H.
  destruct (f !! r) as [n |]; simplify_eq/=. eauto.
Qed.

(** ** [find] *)

Lemma find_fuel_S fuel f x :
  find_fuel (S fuel) f x =
  match f !! x with
  | None => None
  | Some n =>
      match parent_ n with
      | None => Some (f, x)
      | Some p =>
          match find_fuel fuel f p with
          | None => None
          | Some (f', r) => Some (alter (set_parent (Some r)) x f', r)
          end
      end
  end.
Proof. reflexivity. Qed.

Lemma find_fuel_spec f x r d :
  walk (parents f) x r d →
  ∀ fuel, (d < fuel)%nat →
  ∃ f', find_fuel fuel f x = Some (f', r) ∧ compressed f x r f'.
Proof.
  induction 1 as [x Hx | x p r d Hx Hp IH]; intros [| fuel] Hfuel; try lia.
  - rewrite parents_lookup in Hx.
    destruct (f !! x) as [n |] eqn:Hn; simpl in Hx; simplify_eq.
    exists f. split; [by rewrite find_fuel_S, Hn, Hx |].
    split; [done |]. split; [by left |].
    intros y Hy Hyx. exfalso. inversion Hy; simplify_eq.
    rewrite parents_lookup, Hn in *. simplify_eq/=.
  - pose proof Hx as Hx'. rewrite parents_lookup in Hx'.
    destruct (f !! x) as [n |] eqn:Hn; simpl in Hx'; simplify_eq.
    destruct (IH fuel ltac:(lia)) as (f1 & Hrec & Hlen & Hchg & Hpath).
    assert (x ≠ r) as Hxr.
    { intros ->. apply walk_ends_in_root in Hp. congruence. }
    assert (f1 !! x = Some n) as Hx1.
    { destruct (Hchg x) as [-> | (Hon & _)]; [done |].
      by destruct (on_walk_parent_fresh _ _ _ _ _ Hx Hp). }
    exists (alter (set_parent (Some r)) x f1).
    split; [by rewrite find_fuel_S, Hn, Hx', Hrec |].
    split; [by rewrite length_alter |].
    assert (∀ y, on_walk (parents f) x y → y ≠ r →
      alter (set_parent (Some r)) x f1 !! y = set_parent (Some r) <$> f !! y) as Hon.
    { intros y Hy Hyr. destruct (decide (y = x)) as [-> | Hyx].
      - rewrite list_lookup_alter_eq, Hx1, Hn. done.
      - rewrite list_lookup_alter_ne by done.
        inversion Hy as [| ? p' ? Hxp Hpy]; simplify_eq. by apply Hpath. }
    split; [| done].
    intros y. destruct (decide (y = x)) as [-> | Hyx].
    + right. split; [constructor |]. split; [done |]. apply Hon; [constructor | done].
    + rewrite list_lookup_alter_ne by done.
      destruct (Hchg y) as [? | (? & ? & ?)]; [by left |].
      right. split; [by econstructor |]. done.
Qed.

Lemma find_fuel_walk fuel f x f' r :
  find_fuel fuel f x = Some (f', r) → ∃ d, (d < fuel)%nat ∧ walk (parents f) x r d.
Proof.
  revert x f' r. induction fuel as [| fuel IH]; intros x f' r; [done |].
  rewrite find_fuel_S.
  destruct (f !! x) as [n |] eqn:Hn; [| done].
  destruct (parent_ n) as [p |] eqn:Hp.
  - destruct (find_fuel fuel f p) as [[f1 r1] |] eqn:Hrec; [| done].
    intros ?; simplify_eq. destruct (IH _ _ _ Hrec) as (d & Hd & Hw).
    exists (S d). split; [lia |]. econstructor; [| done].
    by rewrite parents_lookup, Hn; simpl; rewrite Hp.
  - intros ?; simplify_eq. exists 0%nat. split; [lia |]. constructor.
    by rewrite parents_lookup, Hn; simpl; rewrite Hp.
Qed.

(** The fuel of [find] is enough: on a node that has a root it returns. *)
Lemma find_fuel_enough f x r :
  root_of f x r → ∃ f', find f x = Some (f', r) ∧ compressed f x r f'.
Proof.
  intros [d H]. apply (find_fuel_spec _ _ _ _ H).
  rewrite <- parents_length. by eapply walk_bound.
Qed.

Lemma find_Some f x f' r :
  find f x = Some (f', r) → root_of f x r ∧ compressed f x r f'.
Proof.
  intros Hf. destruct (find_fuel_walk _ _ _ _ _ Hf) as (d & _ & Hw).
  assert (root_of f x r) as Hr by (by exists d).
  destruct (find_fuel_enough _ _ _ Hr) as (f'' & Hf' & Hc).
  split; [done |]. congruence.
Qed.

(** ** What [find] keeps *)

Lemma compressed_repointed f x r d f' :
  walk (parents f) x r d → compressed f x r f' →
  repointed (parents f) (parents f') r.
Proof.
  intros Hw (Hlen & Hchg & _) y. rewrite !parents_lookup.
  destruct (Hchg y) as [-> | (Hon & Hyr & ->)]; [by left |].
  destruct (on_walk_walk _ _ _ _ _ Hw Hon) as (e & _ & Hwy).
  destruct e as [| e].
  { inversion Hwy; simplify_eq. }
  inversion Hwy as [| ? p ? ? Hy Hp]; simplify_eq.
  rewrite parents_lookup in Hy.
  destruct (f !! y) as [n |]; simplify_eq/=. right. eauto.
Qed.

Lemma compressed_fields f x r f' y n' :
  compressed f x r f' → f' !! y = Some n' →
  ∃ n, f !! y = Some n ∧ rank_ n' = rank_ n
       ∧ hasLabel_ n' = hasLabel_ n ∧ label_ n' = label_ n.
Proof.
  intros (_ & Hchg & _) Hy.
  destruct (Hchg y) as [Heq | (_ & _ & Heq)]; rewrite Heq in Hy.
  - eauto.
  - destruct (f !! y) as [n |]; simplify_eq/=. eauto.
Qed.

Lemma compressed_fields_fwd f x r f' y n :
  compressed f x r f' → f !! y = Some n →
  ∃ n', f' !! y = Some n' ∧ rank_ n' = rank_ n
        ∧ hasLabel_ n' = hasLabel_ n ∧ label_ n' = label_ n.
Proof.
  intros (_ & Hchg & _) Hy.
  destruct (Hchg y) as [Heq | (_ & _ & Heq)]; rewrite Heq, Hy; simpl; eauto.
Qed.

Lemma compressed_root_node f x r f' d :
  walk (parents f) x r d → compressed f x r f' → f' !! r = f !! r.
Proof.
  intros Hw (_ & Hchg & _). destruct (Hchg r) as [-> | (_ & ? & _)]; done.
Qed.

Lemma compressed_root_of f x r f' y s :
  root_of f x r → compressed f x r f' → root_of f y s ↔ root_of f' y s.
Proof.
  intros [d Hw] Hc. pose proof (compressed_repointed _ _ _ _ _ Hw Hc) as Hrep.
  split; intros [e He].
  - destruct (walk_compress _ _ _ _ _ _ Hrep He) as (e' & _ & ?). by exists e'.
  - destruct (walk_compress_inv _ _ _ _ _ _ Hrep He) as (e' & ?). by exists e'.
Qed.

Lemma compressed_same f x r f' y z :
  root_of f x r → compressed f x r f' → same f y z ↔ same f' y z.
Proof.
  intros Hr Hc. unfold same. split; intros (s & H1 & H2); exists s.
  - by rewrite <- !(compressed_root_of _ _ _ _ _ _ Hr Hc).
  - by rewrite !(compressed_root_of _ _ _ _ _ _ Hr Hc).
Qed.

Lemma compressed_acyclic f x r f' :
  root_of f x r → compressed f x r f' → acyclic f → acyclic f'.
Proof.
  intros Hr Hc Hac y Hy. destruct Hc as (Hlen & Hc').
  destruct (Hac y ltac:(lia)) as [s Hs]. exists s.
  by apply (compressed_root_of _ _ _ _ _ _ Hr (conj Hlen Hc')).
Qed.

Lemma compressed_ranks_valid f x r f' :
  compressed f x r f' → ranks_valid f → ranks_valid f'.
Proof.
  intros Hc Hrv y n' Hy.
  destruct (compressed_fields _ _ _ _ _ _ Hc Hy) as (n & Hn & -> & _). eauto.
Qed.

Lemma compressed_wf f x r f' :
  root_of f x r → compressed f x r f' → wf f → wf f'.
Proof.
  intros Hr Hc [Hac Hrv]. split.
  - by eapply compressed_acyclic.
  - by eapply compressed_ranks_valid.
Qed.

Lemma compressed_label_states f x r f' :
  compressed f x r f' → label_state <$> f' = label_state <$> f.
Proof.
  intros Hc. apply list_eq. intros y. rewrite !list_lookup_fmap.
  destruct (f' !! y) as [n' |] eqn:Hy; simpl.
  - destruct (compressed_fields _ _ _ _ _ _ Hc Hy) as (n & -> & _ & H1 & H2).
    simpl. unfold label_state. by rewrite H1, H2.
  - destruct Hc as (Hlen & _). apply lookup_ge_None in Hy.
    rewrite (proj2 (lookup_ge_None f y)); [done | lia].
Qed.

(** After [find], every node visited is the root or a child of the root. *)
Lemma compressed_flat f x r d f' y :
  walk (parents f) x r d → compressed f x r f' →
  on_walk (parents f) x y →
  ∃ e, (e ≤ 1)%nat ∧ walk (parents f') y r e.
Proof.
  intros Hw Hc Hon.
  assert (parents f' !! r = Some None) as Hr'.
  { rewrite parents_lookup, (compressed_root_node _ _ _ _ _ Hw Hc), <- parents_lookup.
    eapply walk_ends_in_root, Hw. }
  destruct (decide (y = r)) as [-> | Hyr].
  - exists 0%nat. split; [lia |]. by constructor.
  - exists 1%nat. split; [lia |]. econstructor; [| by constructor].
    destruct Hc as (_ & _ & Hpath). rewrite parents_lookup, (Hpath _ Hon Hyr).
    destruct (on_walk_walk _ _ _ _ _ Hw Hon) as (e & _ & Hwy).
    apply walk_lt in Hwy. rewrite parents_length in Hwy.
    apply lookup_lt_is_Some in Hwy as [n ->]. done.
Qed.

(** ** [unite] *)

Lemma settled_length f f2 : settled f f2 → length f2 = length f.
Proof. induction 1 as [| f x r f1 f2 _ (Hlen & _) _ IH]; [done | lia]. Qed.

Lemma settled_root_of f f2 y s : settled f f2 → root_of f y s ↔ root_of f2 y s.
Proof.
  induction 1 as [| f x r f1 f2 Hr Hc _ IH]; [done |].
  by rewrite (compressed_root_of _ _ _ _ _ _ Hr Hc).
Qed.

Lemma settled_fields f f2 y n2 :
  settled f f2 → f2 !! y = Some n2 →
  ∃ n, f !! y = Some n ∧ rank_ n2 = rank_ n
       ∧ hasLabel_ n2 = hasLabel_ n ∧ label_ n2 = label_ n.
Proof.
  intros H. revert n2. induction H as [| f x r f1 f2 Hr Hc _ IH]; intros n2 Hy; [eauto |].
  destruct (IH _ Hy) as (n1 & Hy1 & -> & -> & ->).
  by apply (compressed_fields _ _ _ _ _ _ Hc).
Qed.

Lemma settled_rank_of f f2 y : settled f f2 → rank_of f2 y = rank_of f y.
Proof.
  intros H. unfold rank_of. destruct (f2 !! y) as [n2 |] eqn:Hy.
  - by destruct (settled_fields _ _ _ _ H Hy) as (n & -> & -> & _).
  - apply lookup_ge_None in Hy. rewrite (settled_length _ _ H) in Hy.
    by apply lookup_ge_None in Hy as ->.
Qed.

Lemma settled_label_states f f2 :
  settled f f2 → label_state <$> f2 = label_state <$> f.
Proof.
  induction 1 as [| f x r f1 f2 _ Hc _ IH]; [done |].
  by rewrite IH, (compressed_label_states _ _ _ _ Hc).
Qed.

Lemma settled_wf f f2 : settled f f2 → wf f → wf f2.
Proof.
  induction 1 as [| f x r f1 f2 Hr Hc _ IH]; [done |].
  intros Hwf. apply IH. by eapply compressed_wf.
Qed.

Lemma settled_trans f f1 f2 : settled f f1 → settled f1 f2 → settled f f2.
Proof. induction 1; [done |]. intros. econstructor; eauto. Qed.

Lemma find_settled f x f' r : find f x = Some (f', r) → settled f f'.
Proof.
  intros [Hr Hc]%find_Some. econstructor; [done | done | constructor].
Qed.

Lemma unite_inv f x y f' st :
  unite f x y = Some (f', st) →
  ∃ f2 xr yr,
    root_of f x xr ∧ root_of f y yr ∧ settled f f2
    ∧ linked f2 xr yr (rank_of f xr) (rank_of f yr) f' st.
Proof.
  unfold unite. intros H.
  destruct (find f x) as [[f1 xr] |] eqn:Hfx; [| done].
  destruct (find f1 y) as [[f2 yr] |] eqn:Hfy; [| done].
  destruct (find_Some _ _ _ _ Hfx) as [Hxr Hc1].
  destruct (find_Some _ _ _ _ Hfy) as [Hyr Hc2].
  assert (settled f f2) as Hset.
  { eapply settled_trans; eapply find_settled; eauto. }
  exists f2, xr, yr. split; [done |].
  split; [by apply (compressed_root_of _ _ _ _ _ _ Hxr Hc1) |].
  split; [done |].
  rewrite <- !(settled_rank_of _ _ _ Hset). unfold rank_of.
  destruct (f2 !! xr) as [nx |] eqn:Hnx; [| done].
  destruct (f2 !! yr) as [ny |] eqn:Hny; [| done].
  rewrite Z.gtb_ltb in H.
  destruct (Z.ltb_spec (rank_ ny) (rank_ nx)).
  { simplify_eq. constructor. lia. }
  destruct (Z.ltb_spec (rank_ nx) (rank_ ny)).
  { simplify_eq. by constructor. }
  destruct (decide (xr ≠ yr)) as [Hne | Heq].
  - simpl in H. rewrite list_lookup_alter_ne, Hnx in H by done.
    destruct (Z.eqb_spec (rank_ nx) RANK_MAX); simplify_eq.
    + apply linked_overflow; [lia | done | done].
    + apply linked_eq; [lia | done | done].
  - simplify_eq. apply linked_same; [lia |].
    by destruct (decide (xr = yr)).
Qed.

Lemma unite_finds f x y f' st :
  unite f x y = Some (f', st) →
  ∃ f1 f2 xr yr,
    find f x = Some (f1, xr) ∧ find f1 y = Some (f2, yr)
    ∧ linked f2 xr yr (rank_of f xr) (rank_of f yr) f' st.
Proof.
  unfold unite. intros H.
  destruct (find f x) as [[f1 xr] |] eqn:Hfx; [| done].
  destruct (find f1 y) as [[f2 yr] |] eqn:Hfy; [| done].
  assert (settled f f2) as Hset.
  { eapply settled_trans; eapply find_settled; eauto. }
  exists f1, f2, xr, yr. split; [done |]. split; [done |].
  rewrite <- !(settled_rank_of _ _ _ Hset). unfold rank_of.
  destruct (f2 !! xr) as [nx |] eqn:Hnx; [| done].
  destruct (f2 !! yr) as [ny |] eqn:Hny; [| done].
  rewrite Z.gtb_ltb in H.
  destruct (Z.ltb_spec (rank_ ny) (rank_ nx)).
  { simplify_eq. constructor. lia. }
  destruct (Z.ltb_spec (rank_ nx) (rank_ ny)).
  { simplify_eq. by constructor. }
  destruct (decide (xr ≠ yr)) as [Hne | Heq].
  - simpl in H. rewrite list_lookup_alter_ne, Hnx in H by done.
    destruct (Z.eqb_spec (rank_ nx) RANK_MAX); simplify_eq.
    + apply linked_overflow; [lia | done | done].
    + apply linked_eq; [lia | done | done].
  - simplify_eq. apply linked_same; [lia |].
    by destruct (decide (xr = yr)).
Qed.

(** [unite] returns or throws whenever both nodes have a root. *)
Lemma unite_total f x y xr yr :
  root_of f x xr → root_of f y yr → ∃ f' st, unite f x y = Some (f', st).
Proof.
  intros Hx Hy. unfold unite.
  destruct (find_fuel_enough _ _ _ Hx) as (f1 & -> & Hc1).
  assert (root_of f1 y yr) as Hy1 by (by apply (compressed_root_of _ _ _ _ _ _ Hx Hc1)).
  assert (root_of f1 x xr) as Hx1 by (by apply (compressed_root_of _ _ _ _ _ _ Hx Hc1)).
  destruct (find_fuel_enough _ _ _ Hy1) as (f2 & -> & Hc2).
  assert (root_of f2 x xr) as Hx2 by (by apply (compressed_root_of _ _ _ _ _ _ Hy1 Hc2)).
  assert (root_of f2 y yr) as Hy2 by (by apply (compressed_root_of _ _ _ _ _ _ Hy1 Hc2)).
  destruct (root_of_is_root _ _ _ Hx2) as (nx & -> & _).
  destruct (root_of_is_root _ _ _ Hy2) as (ny & Hny & _). rewrite Hny.
  destruct (rank_ nx >? rank_ ny); [eauto |].
  destruct (rank_ nx <? rank_ ny); [eauto |].
  destruct (decide (xr ≠ yr)) as [Hne | Heq]; [| eauto].
  simpl. rewrite list_lookup_alter_ne by done.
  destruct (root_of_is_root _ _ _ Hx2) as (nx' & -> & _).
  destruct (rank_ nx' =? RANK_MAX); eauto.
Qed.

Lemma relinked_refl f l : relinked f l l f.
Proof. intros z s Hs. by destruct (decide (s = l)) as [-> |]. Qed.

Lemma link_relinked f l w :
  root_of f l l → root_of f w w → l ≠ w →
  relinked f l w (alter (set_parent (Some w)) l f).
Proof.
  intros [dl Hl] [dw Hw] Hne z s [e He].
  apply walk_ends_in_root in Hl, Hw.
  destruct (walk_link _ _ _ _ _ _ Hl Hw Hne He) as (e' & He').
  exists e'. by rewrite parents_alter_parent.
Qed.

Lemma root_of_alter_keep g f x z s :
  (∀ n, parent_ (g n) = parent_ n) → root_of (alter g x f) z s ↔ root_of f z s.
Proof. intros Hg. unfold root_of. by rewrite (parents_alter_keep _ _ _ Hg). Qed.

Lemma linked_relinked g f2 xr yr f' st :
  root_of f2 xr xr → root_of f2 yr yr →
  linked f2 xr yr (rank_of g xr) (rank_of g yr) f' st →
  ∃ l w, (l = yr ∧ w = xr ∨ l = xr ∧ w = yr) ∧ (xr = yr → f' = f2)
         ∧ relinked f2 l w f'.
Proof.
  intros Hx Hy H. inversion H as [Hgt | Hlt | Heq Hne Hmax | Heq Hne Hmax | Heq Hsame];
    subst.
  - assert (yr ≠ xr) by (intros ->; lia).
    exists yr, xr. split; [by left |]. split; [done |]. by apply link_relinked.
  - assert (xr ≠ yr) by (intros ->; lia).
    exists xr, yr. split; [by right |]. split; [done |]. by apply link_relinked.
  - exists yr, xr. split; [by left |]. split; [done |].
    intros z s Hs. apply root_of_alter_keep; [done |].
    by apply link_relinked.
  - exists yr, xr. split; [by left |]. split; [done |]. by apply link_relinked.
  - exists yr, yr. split; [by left |]. split; [done |]. apply relinked_refl.
Qed.

Lemma linked_length f2 xr yr rx ry f' st :
  linked f2 xr yr rx ry f' st → length f' = length f2.
Proof. destruct 1; by rewrite ?length_alter. Qed.

(** The effect of [unite] on the trees. *)
Lemma unite_relinked f x y f' st :
  unite f x y = Some (f', st) →
  ∃ xr yr l w,
    root_of f x xr ∧ root_of f y yr ∧ (l = yr ∧ w = xr ∨ l = xr ∧ w = yr)
    ∧ length f' = length f ∧ relinked f l w f'.
Proof.
  intros (f2 & xr & yr & Hx & Hy & Hset & Hl)%unite_inv.
  assert (root_of f2 xr xr) as Hx2.
  { apply (settled_root_of _ _ _ _ Hset). by eapply root_of_root. }
  assert (root_of f2 yr yr) as Hy2.
  { apply (settled_root_of _ _ _ _ Hset). by eapply root_of_root. }
  destruct (linked_relinked _ _ _ _ _ _ Hx2 Hy2 Hl) as (l & w & Hlw & _ & Hrel).
  exists xr, yr, l, w. split; [done |]. split; [done |]. split; [done |].
  split; [by rewrite (linked_length _ _ _ _ _ _ _ Hl), (settled_length _ _ Hset) |].
  intros z s Hs. apply Hrel. by apply (settled_root_of _ _ _ _ Hset).
Qed.

Lemma relinked_acyclic f l w f' :
  length f' = length f → relinked f l w f' → acyclic f → acyclic f'.
Proof.
  intros Hlen Hrel Hac z Hz. destruct (Hac z ltac:(lia)) as [s Hs]. eauto.
Qed.

Lemma ranks_valid_alter g f x :
  (∀ n, 0 ≤ rank_ n ≤ RANK_MAX → 0 ≤ rank_ (g n) ≤ RANK_MAX) →
  ranks_valid f → ranks_valid (alter g x f).
Proof.
  intros Hg Hrv y n Hy. destruct (decide (y = x)) as [-> | Hne].
  - destruct (f !! x) as [m |] eqn:Hm.
    + rewrite list_lookup_alter_eq, Hm in Hy. simplify_eq/=. eauto.
    + rewrite list_lookup_alter_eq, Hm in Hy. done.
  - rewrite list_lookup_alter_ne in Hy by done. eauto.
Qed.

Lemma incr_rank_valid n : 0 ≤ rank_ n ≤ RANK_MAX → 0 ≤ rank_ (incr_rank n) ≤ RANK_MAX.
Proof.
  intros _. simpl. unfold RANK_MAX, RANK_MODULUS.
  pose proof (Z.mod_pos_bound (rank_ n + 1) 65536). lia.
Qed.

Lemma linked_ranks_valid f2 xr yr rx ry f' st :
  linked f2 xr yr rx ry f' st → ranks_valid f2 → ranks_valid f'.
Proof.
  destruct 1; intros Hrv; try done;
    repeat (apply ranks_valid_alter; [first [apply incr_rank_valid | done] |]); done.
Qed.

Lemma unite_wf f x y f' st : unite f x y = Some (f', st) → wf f → wf f'.
Proof.
  intros Hu [Hac Hrv]. split.
  - destruct (unite_relinked _ _ _ _ _ Hu) as (xr & yr & l & w & _ & _ & _ & Hlen & Hrel).
    by eapply relinked_acyclic.
  - destruct (unite_inv _ _ _ _ _ Hu) as (f2 & xr & yr & _ & _ & Hset & Hl).
    eapply linked_ranks_valid; [done |].
    by apply (settled_wf _ _ Hset (conj Hac Hrv)).
Qed.

Lemma unite_length f x y f' st : unite f x y = Some (f', st) → length f' = length f.
Proof. intros (? & ? & ? & ? & _ & _ & _ & ? & _)%unite_relinked. done. Qed.

(** *** Components after [unite] *)

Lemma same_refl f x : acyclic f → (x < length f)%nat → same f x x.
Proof. intros Hac Hx. destruct (Hac x Hx) as [r Hr]. by exists r. Qed.

Lemma same_sym f x y : same f x y → same f y x.
Proof. intros (r & ? & ?). by exists r. Qed.

Lemma same_trans f x y z : same f x y → same f y z → same f x z.
Proof.
  intros (r & Hx & Hy) (r' & Hy' & Hz).
  rewrite (root_of_det _ _ _ _ Hy Hy') in Hx. by exists r'.
Qed.

Lemma same_lt f x y : same f x y → (x < length f)%nat ∧ (y < length f)%nat.
Proof. intros (r & Hx & Hy). split; by eapply root_of_lt. Qed.

Lemma unite_same_keep f x y f' st a b :
  unite f x y = Some (f', st) → same f a b → same f' a b.
Proof.
  intros (xr & yr & l & w & _ & _ & _ & _ & Hrel)%unite_relinked (r & Ha & Hb).
  exists (if decide (r = l) then w else r). split; by apply Hrel.
Qed.

Lemma unite_same_args f x y f' st :
  unite f x y = Some (f', st) → same f' x y.
Proof.
  intros (xr & yr & l & w & Hx & Hy & Hlw & _ & Hrel)%unite_relinked.
  apply Hrel in Hx, Hy. exists w.
  destruct Hlw as [[-> ->] | [-> ->]];
    repeat case_decide; simplify_eq; done.
Qed.

Lemma unite_same_inv f x y f' st a b :
  unite f x y = Some (f', st) → acyclic f → same f' a b →
  same f a b ∨ (same f a x ∧ same f y b) ∨ (same f a y ∧ same f x b).
Proof.
  intros Hu Hac Hab.
  destruct (unite_relinked _ _ _ _ _ Hu) as (xr & yr & l & w & Hx & Hy & Hlw & Hlen & Hrel).
  destruct (same_lt _ _ _ Hab) as [Ha Hb]. rewrite Hlen in Ha, Hb.
  destruct (Hac a Ha) as [ra Hra]. destruct (Hac b Hb) as [rb Hrb].
  destruct Hab as (r & Ha' & Hb').
  pose proof (root_of_det _ _ _ _ Ha' (Hrel _ _ Hra)) as Ea.
  pose proof (root_of_det _ _ _ _ Hb' (Hrel _ _ Hrb)) as Eb.
  assert (∀ c rc q, root_of f c rc → root_of f q rc → same f c q) as Hmk.
  { intros c rc q ? ?. by exists rc. }
  destruct Hlw as [[-> ->] | [-> ->]]; repeat case_decide; simplify_eq;
    eauto 6 using same_sym.
Qed.

(** ** Node fields *)

Lemma parent_of_parents f y : parents f !! y = Some (parent_of f y) ↔ (y < length f)%nat.
Proof.
  rewrite parents_lookup. unfold parent_of. split.
  - intros H. apply lookup_lt_is_Some. destruct (f !! y); [eauto | done].
  - intros [n ->]%lookup_lt_is_Some. done.
Qed.

Lemma parents_parent_of f y q : parents f !! y = Some q → parent_of f y = q.
Proof.
  rewrite parents_lookup. unfold parent_of. destruct (f !! y); naive_solver.
Qed.

Lemma alter_same_node (g : SetNode → SetNode) (f : forest) x n :
  f !! x = Some n → g n = n → alter g x f = f.
Proof.
  intros Hx Hg. apply list_eq. intros y. destruct (decide (y = x)) as [-> | Hne].
  - by rewrite list_lookup_alter_eq, Hx; simpl; rewrite Hg.
  - by rewrite list_lookup_alter_ne.
Qed.

(** On a root or a child of a root, [find] changes nothing. *)
Lemma find_flat f y r e :
  walk (parents f) y r e → (e ≤ 1)%nat → find f y = Some (f, r).
Proof.
  intros Hw He. unfold find.
  pose proof (walk_lt _ _ _ _ Hw) as Hy. rewrite parents_length in Hy.
  inversion Hw as [? Hroot | ? p ? d Hy' Hp]; simplify_eq.
  - destruct (length f) as [| k] eqn:Hlen; [lia |].
    rewrite find_fuel_S. rewrite parents_lookup in Hroot.
    destruct (f !! r) as [n |]; simpl in Hroot; simplify_eq. by rewrite Hroot.
  - assert (d = 0%nat) as -> by lia.
    inversion Hp as [? Hroot |]; simplify_eq.
    assert (y ≠ r) as Hne by (intros ->; congruence).
    pose proof (lookup_lt_Some _ _ _ Hroot) as Hr. rewrite parents_length in Hr.
    destruct (length f) as [| [| k]] eqn:Hlen; [lia | lia |].
    rewrite parents_lookup in Hy', Hroot.
    destruct (f !! y) as [n |] eqn:Hn; simpl in Hy'; simplify_eq.
    destruct (f !! r) as [m |] eqn:Hm; simpl in Hroot; simplify_eq.
    rewrite find_fuel_S, Hn, Hy', find_fuel_S, Hm, Hroot.
    rewrite (alter_same_node _ _ _ _ Hn); [done |].
    destruct n; simpl in *; by subst.
Qed.

(** C3 — [find] returns the root of the node's tree, the one ancestor
    whose parent is null; it leaves every node in the component it was in;
    every node visited on the walk, the root apart, gets the returned root as
    its parent, so that a later [find] on a visited node follows at most one
    parent link and changes nothing any more. *)
Theorem find_returns_root_and_compresses (f : forest) (x r : nat) :
  root_of f x r →
  ∃ f', find f x = Some (f', r)
    ∧ (∀ r', root_of f x r' → r' = r)
    ∧ parent_of f r = None
    ∧ length f' = length f
    ∧ (∀ y s, root_of f' y s ↔ root_of f y s)
    ∧ (∀ y, on_walk (parents f) x y → y ≠ r → parent_of f' y = Some r)
    ∧ parent_of f' r = None
    ∧ (∀ y, on_walk (parents f) x y →
         ∃ e, (e ≤ 1)%nat ∧ walk (parents f') y r e ∧ find f' y = Some (f', r)).
Proof.
  intros Hr. destruct (find_fuel_enough _ _ _ Hr) as (f' & Hfind & Hc).
  exists f'. split; [done |].
  split; [intros r' Hr'; by eapply root_of_det |].
  destruct Hr as [d Hw].
  assert (parent_of f r = None) as Hroot.
  { by apply parents_parent_of, (walk_ends_in_root _ _ _ _ Hw). }
  split; [done |]. split; [apply Hc |].
  split. { intros y s. symmetry. apply (compressed_root_of _ _ _ _ _ _ (ex_intro _ d Hw) Hc). }
  split.
  { intros y Hon Hyr. destruct Hc as (_ & _ & Hpath).
    unfold parent_of. rewrite (Hpath _ Hon Hyr).
    destruct (on_walk_walk _ _ _ _ _ Hw Hon) as (e & _ & Hwy).
    apply walk_lt in Hwy. rewrite parents_length in Hwy.
    apply lookup_lt_is_Some in Hwy as [n ->]. done. }
  split.
  { unfold parent_of in *. by rewrite (compressed_root_node _ _ _ _ _ Hw Hc). }
  intros y Hon. destruct (compressed_flat _ _ _ _ _ _ Hw Hc Hon) as (e & He & Hwy).
  exists e. split; [done |]. split; [done |]. by eapply find_flat.
Qed.

Lemma chain4_root_3 : root_of chain4 3 0.
Proof. exists 2%nat. repeat econstructor. Qed.

Lemma find_returns_root_and_compresses_witness :
  ∃ f', find chain4 3 = Some (f', 0%nat) ∧ parent_of f' 3 = Some 0%nat.
Proof.
  destruct (find_returns_root_and_compresses chain4 3 0 chain4_root_3)
    as (f' & Hf & _ & _ & _ & _ & Hp & _).
  exists f'. split; [exact Hf |]. apply Hp; [apply on_walk_here | discriminate].
Defined.

(** ** Label state *)

Lemma label_states_alter_keep g (f : forest) x :
  (∀ n, label_state (g n) = label_state n) →
  label_state <$> alter g x f = label_state <$> f.
Proof.
  intros Hg. revert x. induction f as [| n f IH]; intros [| x]; simpl; try done.
  - by rewrite Hg.
  - f_equal. apply IH.
Qed.

Lemma linked_label_states f2 xr yr rx ry f' st :
  linked f2 xr yr rx ry f' st → label_state <$> f' = label_state <$> f2.
Proof. destruct 1; by rewrite ?label_states_alter_keep. Qed.

Lemma find_label_states f x f' r :
  find f x = Some (f', r) → label_state <$> f' = label_state <$> f.
Proof. intros H. by apply settled_label_states, (find_settled _ _ _ _ H). Qed.

Lemma unite_label_states f x y f' st :
  unite f x y = Some (f', st) → label_state <$> f' = label_state <$> f.
Proof.
  intros (f2 & xr & yr & _ & _ & Hset & Hl)%unite_inv.
  by rewrite (linked_label_states _ _ _ _ _ _ _ Hl), (settled_label_states _ _ Hset).
Qed.

(** C8 — neither [find] nor [unite] writes [hasLabel_] or [label_]: after
    one call, and so after any sequence of calls, every node has the label
    state it started with. *)
Theorem find_unite_keep_label_state :
  (∀ f x f' r, find f x = Some (f', r) → label_state <$> f' = label_state <$> f)
  ∧ (∀ f x y f' st, unite f x y = Some (f', st) →
       label_state <$> f' = label_state <$> f)
  ∧ (∀ f f', rtc op_step f f' →
       ∀ i, label_state <$> f' !! i = label_state <$> f !! i).
Proof.
  split; [apply find_label_states |]. split; [apply unite_label_states |].
  intros f f' Hsteps i. rewrite <- !list_lookup_fmap. f_equal.
  induction Hsteps as [| f f1 f2 Hstep _ IH]; [done |]. rewrite IH.
  destruct Hstep; [by eapply find_label_states | by eapply unite_label_states].
Qed.

Lemma find_unite_keep_label_state_witness :
  label_state <$> [ mkSet 2 false 0 None; mkSet 0 false 0 (Some 0%nat);
                    mkSet 1 false 0 (Some 0%nat); mkSet 0 false 0 (Some 0%nat) ]
  = label_state <$> chain4.
Proof.
  exact (proj1 find_unite_keep_label_state chain4 3%nat _ 0%nat eq_refl).
Defined.

(** ** Failure of [unite] *)

Lemma linked_overflow_iff f2 xr yr rx ry f' st :
  linked f2 xr yr rx ry f' st →
  st = UniteOverflow ↔ xr ≠ yr ∧ rx = ry ∧ rx = RANK_MAX.
Proof. destruct 1; split; try done; try lia; naive_solver lia. Qed.

(** C4 — [unite] throws exactly when the two roots are different, have the
    same rank, and that rank is the largest value of the counter; in every
    other case it returns normally. *)
Theorem unite_overflow_iff (f : forest) (x y xr yr : nat) :
  root_of f x xr → root_of f y yr →
  ∃ f' st, unite f x y = Some (f', st)
    ∧ (st = UniteOverflow ↔
         xr ≠ yr ∧ rank_of f xr = rank_of f yr ∧ rank_of f xr = RANK_MAX)
    ∧ (st = UniteDone ↔
         ¬ (xr ≠ yr ∧ rank_of f xr = rank_of f yr ∧ rank_of f xr = RANK_MAX)).
Proof.
  intros Hx Hy. destruct (unite_total _ _ _ _ _ Hx Hy) as (f' & st & Hu).
  exists f', st. split; [done |].
  destruct (unite_inv _ _ _ _ _ Hu) as (f2 & xr' & yr' & Hx' & Hy' & _ & Hl).
  rewrite <- (root_of_det _ _ _ _ Hx Hx'), <- (root_of_det _ _ _ _ Hy Hy') in Hl.
  pose proof (linked_overflow_iff _ _ _ _ _ _ _ Hl) as Hiff.
  split; [done |]. rewrite <- Hiff. split.
  - by intros ->.
  - intros Hno. destruct st; [done | by destruct Hno].
Qed.

Lemma saturated2_root_0 : root_of saturated2 0 0.
Proof. exists 0%nat. by constructor. Qed.

Lemma saturated2_root_1 : root_of saturated2 1 1.
Proof. exists 0%nat. by constructor. Qed.

Lemma unite_overflow_iff_witness :
  ∃ f', unite saturated2 0 1 = Some (f', UniteOverflow).
Proof.
  destruct (unite_overflow_iff saturated2 0 1 0 1 saturated2_root_0 saturated2_root_1)
    as (f' & st & Hu & Hover & _).
  exists f'. rewrite Hu. f_equal. f_equal. apply Hover.
  split; [discriminate |]. split; reflexivity.
Defined.

(** C10 — when [unite] throws, the root of [y] has already been attached
    under the root of [x]: the two components are merged in the forest that
    the failed call leaves behind. *)
Theorem unite_overflow_leaves_merge (f : forest) (x y : nat) (f' : forest) :
  unite f x y = Some (f', UniteOverflow) →
  ∃ xr yr,
    root_of f x xr ∧ root_of f y yr ∧ xr ≠ yr
    ∧ parent_of f yr = None ∧ parent_of f' yr = Some xr
    ∧ root_of f' x xr ∧ root_of f' y xr
    ∧ ¬ same f x y ∧ same f' x y ∧ f' ≠ f.
Proof.
  intros Hu.
  destruct (unite_inv _ _ _ _ _ Hu) as (f2 & xr & yr & Hx & Hy & Hset & Hl).
  assert (root_of f2 xr xr) as Hx2.
  { apply (settled_root_of _ _ _ _ Hset). by eapply root_of_root. }
  assert (root_of f2 yr yr) as Hy2.
  { apply (settled_root_of _ _ _ _ Hset). by eapply root_of_root. }
  inversion Hl as [| | | Heq Hne Hmax |]; subst.
  pose proof (link_relinked _ _ _ Hy2 Hx2 (not_eq_sym Hne)) as Hrel.
  assert (parent_of f yr = None) as Hpy.
  { destruct (root_of_is_root _ _ _ Hy) as (n & Hn & Hp). unfold parent_of. by rewrite Hn. }
  assert (parent_of (alter (set_parent (Some xr)) yr f2) yr = Some xr) as Hpy'.
  { destruct (root_of_is_root _ _ _ Hy2) as (n & Hn & Hp).
    unfold parent_of. by rewrite list_lookup_alter_eq, Hn. }
  assert (root_of (alter (set_parent (Some xr)) yr f2) x xr) as Hx'.
  { apply (settled_root_of _ _ _ _ Hset) in Hx. apply Hrel in Hx.
    by destruct (decide (xr = yr)). }
  assert (root_of (alter (set_parent (Some xr)) yr f2) y xr) as Hy'.
  { apply (settled_root_of _ _ _ _ Hset) in Hy. apply Hrel in Hy.
    by destruct (decide (yr = yr)). }
  exists xr, yr. repeat split; try done.
  - intros (r & Hx1 & Hy1).
    apply Hne. by rewrite (root_of_det _ _ _ _ Hx Hx1), (root_of_det _ _ _ _ Hy Hy1).
  - by exists xr.
  - intros E. rewrite E in Hpy'. congruence.
Qed.

Lemma unite_overflow_leaves_merge_witness :
  ∃ xr yr, parent_of saturated2 yr = None
    ∧ parent_of [mkSet 65535 false 0 None; mkSet 65535 false 0 (Some 0%nat)] yr = Some xr.
Proof.
  destruct (unite_overflow_leaves_merge saturated2 0 1
              [mkSet 65535 false 0 None; mkSet 65535 false 0 (Some 0%nat)] eq_refl)
    as (xr & yr & _ & _ & _ & H1 & H2 & _).
  exists xr, yr. split; [exact H1 | exact H2].
Defined.

(** ** Ranks *)

Lemma rank_of_alter_keep g (f : forest) x z :
  (∀ n, rank_ (g n) = rank_ n) → rank_of (alter g x f) z = rank_of f z.
Proof.
  intros Hg. unfold rank_of. destruct (decide (z = x)) as [-> | Hne].
  - rewrite list_lookup_alter_eq. destruct (f !! x); simpl; [apply Hg | done].
  - by rewrite list_lookup_alter_ne.
Qed.

Lemma rank_of_alter_ne g (f : forest) x z :
  z ≠ x → rank_of (alter g x f) z = rank_of f z.
Proof. intros Hne. unfold rank_of. by rewrite list_lookup_alter_ne. Qed.

Lemma rank_of_alter_incr (f : forest) x :
  (x < length f)%nat →
  rank_of (alter incr_rank x f) x = (rank_of f x + 1) mod RANK_MODULUS.
Proof.
  intros [n Hn]%lookup_lt_is_Some. unfold rank_of.
  by rewrite list_lookup_alter_eq, Hn.
Qed.

Lemma parent_of_alter_keep g (f : forest) x z :
  (∀ n, parent_ (g n) = parent_ n) → parent_of (alter g x f) z = parent_of f z.
Proof.
  intros Hg. unfold parent_of. destruct (decide (z = x)) as [-> | Hne].
  - rewrite list_lookup_alter_eq. destruct (f !! x); simpl; [apply Hg | done].
  - by rewrite list_lookup_alter_ne.
Qed.

Lemma parent_of_alter_ne g (f : forest) x z :
  z ≠ x → parent_of (alter g x f) z = parent_of f z.
Proof. intros Hne. unfold parent_of. by rewrite list_lookup_alter_ne. Qed.

Lemma parent_of_alter_parent (f : forest) x q :
  (x < length f)%nat → parent_of (alter (set_parent q) x f) x = q.
Proof.
  intros [n Hn]%lookup_lt_is_Some. unfold parent_of.
  by rewrite list_lookup_alter_eq, Hn.
Qed.

Lemma parent_of_Some_lt f x p : parent_of f x = Some p → (x < length f)%nat.
Proof.
  unfold parent_of. intros H. apply lookup_lt_is_Some.
  destruct (f !! x); [eauto | done].
Qed.

Lemma walk_parent_of f x p :
  parents f !! x = Some (Some p) ↔ parent_of f x = Some p.
Proof.
  rewrite parents_lookup. unfold parent_of.
  destruct (f !! x) as [n |]; simpl; split; congruence.
Qed.

Lemma ranked_walk f x r d :
  ranked f → walk (parents f) x r d →
  rank_of f x ≤ rank_of f r ∧ (d ≠ 0%nat → rank_of f x < rank_of f r).
Proof.
  intros Hrk. induction 1 as [x Hx | x p r d Hx Hp [IH1 IH2]].
  - split; [lia | done].
  - apply walk_parent_of, Hrk in Hx. split; intros; lia.
Qed.

Lemma compressed_rank_of f x r f' z :
  compressed f x r f' → rank_of f' z = rank_of f z.
Proof.
  intros Hc. unfold rank_of. destruct (f' !! z) as [n' |] eqn:Hz.
  - by destruct (compressed_fields _ _ _ _ _ _ Hc Hz) as (n & -> & -> & _).
  - apply lookup_ge_None in Hz. destruct Hc as (Hlen & _). rewrite Hlen in Hz.
    by apply lookup_ge_None in Hz as ->.
Qed.

Lemma compressed_ranked f x r f' :
  root_of f x r → compressed f x r f' → ranked f → ranked f'.
Proof.
  intros [d Hw] Hc Hrk y p Hp.
  rewrite !(compressed_rank_of _ _ _ _ _ Hc).
  destruct Hc as (Hlen & Hchg & _).
  unfold parent_of in Hp. destruct (Hchg y) as [Heq | (Hon & Hyr & Heq)];
    rewrite Heq in Hp.
  - by apply Hrk.
  - destruct (f !! y) as [n |] eqn:Hn; simplify_eq/=.
    destruct (on_walk_walk _ _ _ _ _ Hw Hon) as (e & _ & Hwy).
    destruct (ranked_walk _ _ _ _ Hrk Hwy) as [_ Hlt]. apply Hlt.
    intros ->. inversion Hwy; simplify_eq.
Qed.

Lemma settled_ranked f f2 : settled f f2 → ranked f → ranked f2.
Proof.
  induction 1 as [| f x r f1 f2 Hr Hc _ IH]; [done |].
  intros Hrk. apply IH. by eapply compressed_ranked.
Qed.

Lemma link_ranked f l w :
  (l < length f)%nat → rank_of f l < rank_of f w → ranked f →
  ranked (alter (set_parent (Some w)) l f).
Proof.
  intros Hl Hlt Hrk y p Hp. rewrite !rank_of_alter_keep by done.
  destruct (decide (y = l)) as [-> | Hne].
  - rewrite parent_of_alter_parent in Hp by done. by simplify_eq.
  - rewrite parent_of_alter_ne in Hp by done. by apply Hrk.
Qed.

Lemma linked_ranked f2 xr yr f' :
  ranks_valid f2 → ranked f2 → root_of f2 xr xr → root_of f2 yr yr →
  linked f2 xr yr (rank_of f2 xr) (rank_of f2 yr) f' UniteDone →
  ranked f'.
Proof.
  intros Hrv Hrk Hx Hy Hl.
  pose proof (root_of_lt _ _ _ Hx) as Hxlt. pose proof (root_of_lt _ _ _ Hy) as Hylt.
  inversion Hl as [Hgt | Hlt | Heq Hne Hmax | | Heq Hsame]; subst; try done.
  - apply link_ranked; [done | lia | done].
  - apply link_ranked; [done | lia | done].
  - intros y p Hp. rewrite parent_of_alter_keep in Hp by done.
    assert (rank_of f2 xr + 1 < RANK_MODULUS) as Hsmall.
    { destruct (lookup_lt_is_Some_2 _ _ Hxlt) as [n Hn]. pose proof (Hrv _ _ Hn) as Hb.
      unfold rank_of in *. rewrite Hn in *. unfold RANK_MAX, RANK_MODULUS in *. lia. }
    assert (0 ≤ rank_of f2 xr) as Hpos.
    { destruct (lookup_lt_is_Some_2 _ _ Hxlt) as [n Hn]. pose proof (Hrv _ _ Hn) as Hb.
      unfold rank_of. rewrite Hn. lia. }
    assert (rank_of (alter incr_rank xr (alter (set_parent (Some xr)) yr f2)) xr
            = rank_of f2 xr + 1) as Hrx.
    { rewrite rank_of_alter_incr by (by rewrite length_alter).
      rewrite rank_of_alter_keep by done. apply Z.mod_small. lia. }
    assert (∀ z, z ≠ xr →
      rank_of (alter incr_rank xr (alter (set_parent (Some xr)) yr f2)) z
      = rank_of f2 z) as Hrz.
    { intros z Hz. rewrite rank_of_alter_ne by done. by rewrite rank_of_alter_keep. }
    assert (y ≠ xr) as Hyx.
    { intros ->. rewrite parent_of_alter_ne in Hp by done.
      destruct (root_of_is_root _ _ _ Hx) as (n & Hn & Hnp).
      unfold parent_of in Hp. rewrite Hn in Hp. congruence. }
    rewrite (Hrz y Hyx).
    destruct (decide (y = yr)) as [-> | Hne'].
    + rewrite parent_of_alter_parent in Hp by done. simplify_eq. lia.
    + rewrite parent_of_alter_ne in Hp by done. apply Hrk in Hp.
      destruct (decide (p = xr)) as [-> | Hpx]; [lia |]. by rewrite Hrz.
Qed.

Lemma init_wf n : wf (replicate n default_Set).
Proof.
  split.
  - intros x Hx. rewrite length_replicate in Hx. exists x, 0%nat. constructor.
    rewrite parents_lookup, lookup_replicate_2 by done. done.
  - intros x m [-> _]%lookup_replicate. unfold RANK_MAX. simpl. lia.
Qed.

Lemma init_ranked n : ranked (replicate n default_Set).
Proof.
  intros x p Hp. unfold parent_of in Hp.
  destruct (replicate n default_Set !! x) as [m |] eqn:Hm; [| done].
  apply lookup_replicate in Hm as [-> _]. done.
Qed.

(** Every forest the operations produce is well formed and ranked. *)
Lemma reachable_inv n f : reachable n f → wf f ∧ ranked f ∧ length f = n.
Proof.
  induction 1 as [| f x f' r _ (Hwf & Hrk & Hlen) Hfind
                  | f x y f' _ (Hwf & Hrk & Hlen) Hu].
  - split; [apply init_wf |]. split; [apply init_ranked | apply length_replicate].
  - destruct (find_Some _ _ _ _ Hfind) as [Hr Hc].
    split; [by eapply compressed_wf |]. split; [by eapply compressed_ranked |].
    destruct Hc as (-> & _). done.
  - split; [by eapply unite_wf |].
    split; [| by rewrite (unite_length _ _ _ _ _ Hu)].
    destruct (unite_inv _ _ _ _ _ Hu) as (f2 & xr & yr & Hx & Hy & Hset & Hl).
    rewrite <- !(settled_rank_of _ _ _ Hset) in Hl.
    eapply linked_ranked; [| | | | exact Hl].
    + by apply (settled_wf _ _ Hset).
    + by apply (settled_ranked _ _ Hset).
    + apply (settled_root_of _ _ _ _ Hset). by eapply root_of_root.
    + apply (settled_root_of _ _ _ _ Hset). by eapply root_of_root.
Qed.

(** C6 — in every forest reached from freshly constructed nodes by [find]
    and by [unite] calls that return, the rank of a component's root is at
    least the rank of every node of the component, its children included. *)
Theorem root_rank_dominates (n : nat) (f : forest) :
  reachable n f →
  (∀ x r, root_of f x r → rank_of f x ≤ rank_of f r)
  ∧ (∀ c r, root_of f r r → parent_of f c = Some r → rank_of f c ≤ rank_of f r).
Proof.
  intros (Hwf & Hrk & _)%reachable_inv. split.
  - intros x r [d Hw]. by destruct (ranked_walk _ _ _ _ Hrk Hw).
  - intros c r _ Hp. apply Hrk in Hp. lia.
Qed.

Lemma chain4_reachable : reachable 4 chain4.
Proof.
  apply (reachable_unite 4
    [ mkSet 1 false 0 None; mkSet 0 false 0 (Some 0%nat);
      mkSet 1 false 0 None; mkSet 0 false 0 (Some 2%nat) ] 0 2); [| reflexivity].
  apply (reachable_unite 4
    [ mkSet 1 false 0 None; mkSet 0 false 0 (Some 0%nat);
      default_Set; default_Set ] 2 3); [| reflexivity].
  apply (reachable_unite 4 (replicate 4 default_Set) 0 1); [| reflexivity].
  apply reachable_init.
Qed.

Lemma root_rank_dominates_witness : rank_of chain4 3 ≤ rank_of chain4 0.
Proof.
  destruct (root_rank_dominates 4 chain4 chain4_reachable) as [H _].
  apply (H 3%nat 0%nat chain4_root_3).
Defined.

(** ** Two [find]s in a row *)

Lemma on_walk_decide P x r d z :
  walk P x r d → on_walk P x z ∨ ¬ on_walk P x z.
Proof.
  induction 1 as [x Hx | x p r d Hx Hp IH].
  - destruct (decide (z = x)) as [-> | Hne]; [left; constructor |].
    right. intros Hon. inversion Hon; simplify_eq.
  - destruct (decide (z = x)) as [-> | Hne]; [left; constructor |].
    destruct IH as [IH | IH]; [left; by econstructor |].
    right. intros Hon. inversion Hon; simplify_eq.
Qed.

Lemma on_walk_root_of f x r z :
  root_of f x r → on_walk (parents f) x z → root_of f z r.
Proof.
  intros [d Hw] Hon. destruct (on_walk_walk _ _ _ _ _ Hw Hon) as (e & _ & He).
  by exists e.
Qed.

Lemma on_walk_is_root f x r z :
  root_of f x r → on_walk (parents f) x z → parent_of f z = None → z = r.
Proof.
  intros Hr Hon Hroot. destruct (on_walk_root_of _ _ _ _ Hr Hon) as [e He].
  assert (parents f !! z = Some None) as Hz.
  { rewrite <- Hroot. apply parent_of_parents.
    apply walk_lt in He. by rewrite parents_length in He. }
  by destruct (walk_from_root _ _ _ _ He Hz) as [-> _].
Qed.

(** The walk from [y] after [find] on [x] visits nodes of the old walk from
    [y] only, and misses none of them that the walk from [x] did not visit. *)
Lemma compressed_on_walk_back f x r f1 y s z :
  root_of f x r → compressed f x r f1 → root_of f y s →
  on_walk (parents f1) y z → on_walk (parents f) y z.
Proof.
  intros Hr Hc Hs Hon. revert s Hs.
  induction Hon as [y | y p z Hy Hp IH]; intros s Hs; [constructor |].
  destruct Hc as (Hlen & Hchg & Hpath). rewrite parents_lookup in Hy.
  destruct (Hchg y) as [Heq | (Hony & Hne & Heq)]; rewrite Heq in Hy.
  - assert (parents f !! y = Some (Some p)) as Hy' by (by rewrite parents_lookup).
    destruct Hs as [d Hw]. inversion Hw as [| ? p' ? e Hx' Hp']; simplify_eq.
    econstructor; [done |]. apply (IH s). by exists e.
  - destruct (f !! y) as [n |] eqn:Hn; [| done]. simpl in Hy.
    assert (p = r) as -> by congruence.
    assert (root_of f1 r r) as Hr1.
    { apply (compressed_root_of _ _ _ _ _ _ Hr (conj Hlen (conj Hchg Hpath))).
      by eapply root_of_root. }
    assert (z = r) as ->.
    { assert (parents f1 !! r = Some None) as Hroot.
      { destruct Hr1 as [e He]. eapply walk_ends_in_root, He. }
      inversion Hp as [| ? q ? Hq]; simplify_eq; done. }
    pose proof (on_walk_root_of _ _ _ _ Hr Hony) as Hyr.
    rewrite (root_of_det _ _ _ _ Hyr Hs). destruct Hs as [d Hw].
    by eapply on_walk_root.
Qed.

Lemma compressed_on_walk_fwd f x r f1 y z :
  compressed f x r f1 →
  on_walk (parents f) y z →
  on_walk (parents f1) y z ∨ on_walk (parents f) x z.
Proof.
  intros (Hlen & Hchg & Hpath). induction 1 as [y | y p z Hy Hp IH].
  - left. constructor.
  - destruct IH as [IH | IH]; [| by right].
    rewrite parents_lookup in Hy.
    destruct (Hchg y) as [Heq | (Hony & Hne & Heq)].
    + left. econstructor; [| exact IH]. by rewrite parents_lookup, Heq.
    + right. eapply on_walk_trans; [exact Hony |].
      econstructor; [by rewrite parents_lookup | done].
Qed.

(** The forest after [find] on [x] and then on [y], node by node. *)
Lemma compressed_twice f x r f1 y s f2 z :
  root_of f x r → root_of f y s →
  compressed f x r f1 → compressed f1 y s f2 →
  (on_walk (parents f) x z ∧ z ≠ r ∧ f2 !! z = set_parent (Some r) <$> f !! z)
  ∨ (¬ (on_walk (parents f) x z ∧ z ≠ r) ∧ on_walk (parents f) y z ∧ z ≠ s
     ∧ f2 !! z = set_parent (Some s) <$> f !! z)
  ∨ (¬ (on_walk (parents f) x z ∧ z ≠ r) ∧ ¬ (on_walk (parents f) y z ∧ z ≠ s)
     ∧ f2 !! z = f !! z).
Proof.
  intros Hr Hs Hc1 Hc2.
  assert (root_of f1 y s) as Hs1 by (by apply (compressed_root_of _ _ _ _ _ _ Hr Hc1)).
  pose proof Hc1 as (Hlen1 & Hchg1 & Hpath1).
  pose proof Hc2 as (Hlen2 & Hchg2 & Hpath2).
  destruct Hr as [dx Hwx]. destruct Hs as [dy Hwy].
  destruct (on_walk_decide _ _ _ _ z Hwx) as [Honx | Honx];
    [destruct (decide (z = r)) as [-> | Hzr] |].
  - (* the root of x *)
    assert (f1 !! r = f !! r) as Hr1.
    { destruct (Hchg1 r) as [? | (_ & ? & _)]; done. }
    assert (f2 !! r = f !! r) as Hr2.
    { destruct (Hchg2 r) as [-> | (Hon & Hne & _)]; [done |]. exfalso.
      apply Hne.
      eapply (on_walk_is_root f y s r); [by exists dy | |].
      - eapply compressed_on_walk_back; [by exists dx | done | by exists dy | done].
      - apply parents_parent_of. eapply walk_ends_in_root, Hwx. }
    destruct (on_walk_decide _ _ _ _ r Hwy) as [Hony | Hony].
    + right. right. split; [tauto |]. split; [| done].
      intros [_ Hne]. apply Hne.
      eapply (on_walk_is_root f y s r); [by exists dy | done |].
      apply parents_parent_of. eapply walk_ends_in_root, Hwx.
    + right. right. split; [tauto |]. split; [tauto | done].
  - (* a node that the first find re-pointed *)
    left. split; [done |]. split; [done |].
    destruct (Hchg2 z) as [-> | (Hon & Hne & ->)]; [by apply Hpath1 |].
    rewrite (Hpath1 z Honx Hzr).
    assert (s = r) as ->.
    { eapply root_of_det.
      - eapply on_walk_root_of; [by exists dy |].
        eapply compressed_on_walk_back; [by exists dx | done | by exists dy | done].
      - eapply on_walk_root_of; [by exists dx | done]. }
    by destruct (f !! z).
  - (* a node that the first find did not visit *)
    assert (f1 !! z = f !! z) as Hz1.
    { destruct (Hchg1 z) as [? | (? & _)]; done. }
    destruct (on_walk_decide _ _ _ _ z Hwy) as [Hony | Hony];
      [destruct (decide (z = s)) as [-> | Hzs] |].
    + right. right. split; [tauto |]. split; [tauto |].
      destruct (Hchg2 s) as [-> | (_ & ? & _)]; done.
    + right. left. split; [tauto |]. split; [done |]. split; [done |].
      destruct (compressed_on_walk_fwd _ _ _ _ _ _ Hc1 Hony) as [Hon1 | ?]; [| done].
      by rewrite (Hpath2 z Hon1 Hzs), Hz1.
    + right. right. split; [tauto |]. split; [tauto |].
      destruct (Hchg2 z) as [-> | (Hon & _)]; [done |]. exfalso. apply Hony.
      eapply compressed_on_walk_back; [by exists dx | done | by exists dy | done].
Qed.

(** What the two [find]s of [unite] do to the forest: the nodes on the two
    walks, the roots apart, get their root as parent; nothing else changes. *)
Lemma finds_compress f x xr f1 y yr f2 :
  root_of f x xr → root_of f y yr →
  compressed f x xr f1 → compressed f1 y yr f2 →
  length f2 = length f
  ∧ (∀ z, on_walk (parents f) x z → z ≠ xr →
          f2 !! z = set_parent (Some xr) <$> f !! z)
  ∧ (∀ z, on_walk (parents f) y z → z ≠ yr →
          f2 !! z = set_parent (Some yr) <$> f !! z)
  ∧ (∀ z, ¬ (on_walk (parents f) x z ∧ z ≠ xr) →
          ¬ (on_walk (parents f) y z ∧ z ≠ yr) → f2 !! z = f !! z).
Proof.
  intros Hx Hy Hc1 Hc2.
  split; [destruct Hc1 as [? _], Hc2 as [? _]; congruence |].
  split; [| split]; intros z.
  - intros Hon Hne.
    destruct (compressed_twice _ _ _ _ _ _ _ z Hx Hy Hc1 Hc2)
      as [(_ & _ & ->) | [(B1 & _) | (C1 & _)]]; tauto.
  - intros Hon Hne.
    destruct (compressed_twice _ _ _ _ _ _ _ z Hx Hy Hc1 Hc2)
      as [(A1 & _ & ->) | [(_ & _ & _ & ->) | (_ & C2 & _)]]; [| done | tauto].
    by rewrite (root_of_det _ _ _ _ (on_walk_root_of _ _ _ _ Hx A1)
                  (on_walk_root_of _ _ _ _ Hy Hon)).
  - intros Hnx Hny.
    destruct (compressed_twice _ _ _ _ _ _ _ z Hx Hy Hc1 Hc2)
      as [(A1 & A2 & _) | [(_ & B2 & B3 & _) | (_ & _ & ->)]]; tauto.
Qed.

(** A node two or more links from its root is changed by [find]. *)
Lemma deep_walk_changes f x r d :
  walk (parents f) x r (S (S d)) → f !! x ≠ set_parent (Some r) <$> f !! x.
Proof.
  intros Hw Heq.
  inversion Hw as [| ? p ? ? Hx Hp]; simplify_eq.
  rewrite parents_lookup in Hx.
  destruct (f !! x) as [n |] eqn:Hn; [| done]. simpl in Hx, Heq.
  assert (p = r) as ->.
  { injection Heq as Heq. rewrite Heq in Hx. simpl in Hx. congruence. }
  pose proof (walk_ends_in_root _ _ _ _ Hp) as Hroot.
  inversion Hp as [| ? q ? ? Hr _]; simplify_eq.
Qed.

Lemma walk_start_on_walk P x r d : walk P x r (S d) → on_walk P x x ∧ x ≠ r.
Proof.
  intros Hw. split; [constructor |]. intros ->.
  pose proof (walk_ends_in_root _ _ _ _ Hw) as Hroot.
  inversion Hw; simplify_eq.
Qed.

(** ** The branches of [unite] *)

(** The claim C2 taken literally fails twice.  On the chain 3 → 2 → 0, which
    the operations build from four fresh nodes, the nodes 3 and 0 have the
    same root, and yet [unite] changes the forest: the [find] on node 3
    re-points it to the root.  On two different roots whose equal rank is the
    largest value of the counter, [unite] attaches one under the other and
    throws, and no rank is incremented. *)
Lemma unite_same_root_compresses :
  (reachable 4 chain4 ∧ root_of chain4 3 0 ∧ root_of chain4 0 0
   ∧ ∃ f', unite chain4 3 0 = Some (f', UniteDone)
        ∧ f' ≠ chain4 ∧ parent_of chain4 3 = Some 2%nat
        ∧ parent_of f' 3 = Some 0%nat)
  ∧ (root_of saturated2 0 0 ∧ root_of saturated2 1 1
     ∧ rank_of saturated2 0 = rank_of saturated2 1
     ∧ ∃ f', unite saturated2 0 1 = Some (f', UniteOverflow)
          ∧ parent_of f' 1 = Some 0%nat
          ∧ rank_of f' 0 = rank_of saturated2 0
          ∧ rank_of f' 1 = rank_of saturated2 1).
Proof.
  split.
  - split; [apply chain4_reachable |]. split; [apply chain4_root_3 |].
    split; [exists 0%nat; by constructor |].
    eexists. split; [reflexivity |]. split; [discriminate |]. split; reflexivity.
  - split; [apply saturated2_root_0 |]. split; [apply saturated2_root_1 |].
    split; [reflexivity |].
    eexists. split; [reflexivity |]. split; [reflexivity |]. split; reflexivity.
Qed.

(** Between two nodes that are their common root or children of it,
    [unite] changes nothing at all. *)
Lemma unite_flat_same_root f x y r ex ey :
  walk (parents f) x r ex → walk (parents f) y r ey →
  (ex ≤ 1)%nat → (ey ≤ 1)%nat → unite f x y = Some (f, UniteDone).
Proof.
  intros Hx Hy Hex Hey. unfold unite.
  rewrite (find_flat _ _ _ _ Hx Hex), (find_flat _ _ _ _ Hy Hey).
  destruct (root_of_is_root f x r (ex_intro _ ex Hx)) as (n & -> & _).
  rewrite Z.gtb_ltb, Z.ltb_irrefl.
  by destruct (decide (r ≠ r)).
Qed.

Lemma rank_of_bounds f x : ranks_valid f → 0 ≤ rank_of f x ≤ RANK_MAX.
Proof.
  intros Hrv. unfold rank_of. destruct (f !! x) as [n |] eqn:Hn.
  - eauto.
  - unfold RANK_MAX. lia.
Qed.

(** C2 (amended) — [unite(x, y)] first finds both roots: the nodes that
    the two walks visit, the roots apart, get their root as parent (path
    compression), and no other node changes.  Then, if the ranks of the roots
    differ, the root of lower rank gets the other root as parent and no rank
    changes.  If the ranks are equal, the roots different and the rank below
    the largest value of the counter, the root of [y] gets the root of [x] as
    parent and the rank of the root of [x] grows by one; at the largest value
    the root of [y] is attached all the same and the call throws.  If the
    roots are the same node, no node is attached and no rank changes: the
    forest is the one the two [find]s left, with the same components, and it
    is the forest of before the call exactly when [x] and [y] were the root
    or children of it.  A call that returns leaves [x] and [y] in one
    component and keeps together what was together. *)
Theorem unite_merges_by_rank (f : forest) (x y xr yr : nat) :
  ranks_valid f → root_of f x xr → root_of f y yr →
  ∃ f1 f2 f' st,
    unite f x y = Some (f', st)
    ∧ find f x = Some (f1, xr) ∧ find f1 y = Some (f2, yr)
    ∧ length f2 = length f
    ∧ (∀ z, on_walk (parents f) x z → z ≠ xr →
            f2 !! z = set_parent (Some xr) <$> f !! z)
    ∧ (∀ z, on_walk (parents f) y z → z ≠ yr →
            f2 !! z = set_parent (Some yr) <$> f !! z)
    ∧ (∀ z, ¬ (on_walk (parents f) x z ∧ z ≠ xr) →
            ¬ (on_walk (parents f) y z ∧ z ≠ yr) → f2 !! z = f !! z)
    ∧ (rank_of f yr < rank_of f xr →
         st = UniteDone ∧ f' = alter (set_parent (Some xr)) yr f2
         ∧ parent_of f' yr = Some xr ∧ ∀ z, rank_of f' z = rank_of f z)
    ∧ (rank_of f xr < rank_of f yr →
         st = UniteDone ∧ f' = alter (set_parent (Some yr)) xr f2
         ∧ parent_of f' xr = Some yr ∧ ∀ z, rank_of f' z = rank_of f z)
    ∧ (rank_of f xr = rank_of f yr → xr ≠ yr → rank_of f xr ≠ RANK_MAX →
         st = UniteDone
         ∧ f' = alter incr_rank xr (alter (set_parent (Some xr)) yr f2)
         ∧ parent_of f' yr = Some xr
         ∧ rank_of f' xr = rank_of f xr + 1
         ∧ ∀ z, z ≠ xr → rank_of f' z = rank_of f z)
    ∧ (rank_of f xr = rank_of f yr → xr ≠ yr → rank_of f xr = RANK_MAX →
         st = UniteOverflow ∧ f' = alter (set_parent (Some xr)) yr f2)
    ∧ (xr = yr →
         st = UniteDone ∧ f' = f2 ∧ (∀ z, rank_of f' z = rank_of f z)
         ∧ (∀ z s, root_of f' z s ↔ root_of f z s)
         ∧ ∀ ex ey, walk (parents f) x xr ex → walk (parents f) y yr ey →
             (f' = f ↔ (ex ≤ 1)%nat ∧ (ey ≤ 1)%nat))
    ∧ (st = UniteDone → same f' x y ∧ ∀ a b, same f a b → same f' a b).
Proof.
  intros Hrv Hx Hy. destruct (unite_total _ _ _ _ _ Hx Hy) as (f' & st & Hu).
  destruct (unite_finds _ _ _ _ _ Hu) as (f1 & f2 & xr' & yr' & Hfx & Hfy & Hl).
  destruct (find_Some _ _ _ _ Hfx) as [Hx' Hc1].
  destruct (find_Some _ _ _ _ Hfy) as [Hy1 Hc2].
  assert (root_of f y yr') as Hy'
    by (by apply (compressed_root_of _ _ _ _ _ _ Hx' Hc1)).
  assert (xr' = xr) as -> by (by eapply root_of_det).
  assert (yr' = yr) as -> by (by eapply root_of_det).
  clear Hx' Hy'.
  assert (settled f f2) as Hset.
  { eapply settled_trans; eapply find_settled; eauto. }
  destruct (finds_compress _ _ _ _ _ _ _ Hx Hy Hc1 Hc2) as (Hlen & Hwx & Hwy & Hoff).
  exists f1, f2, f', st.
  split; [done |]. split; [done |]. split; [done |]. split; [done |].
  split; [done |]. split; [done |]. split; [done |].
  assert (xr < length f2)%nat as Hxlt.
  { rewrite Hlen. eapply root_of_lt, root_of_root, Hx. }
  assert (yr < length f2)%nat as Hylt.
  { rewrite Hlen. eapply root_of_lt, root_of_root, Hy. }
  pose proof (rank_of_bounds f xr Hrv) as Hbx.
  split; [| split; [| split; [| split; [| split]]]].
  - intros Hlt. inversion Hl; subst; try lia.
    split; [done |]. split; [done |].
    split; [by apply parent_of_alter_parent |].
    intros z. rewrite <- (settled_rank_of _ _ z Hset). by rewrite rank_of_alter_keep.
  - intros Hlt. inversion Hl; subst; try lia.
    split; [done |]. split; [done |].
    split; [by apply parent_of_alter_parent |].
    intros z. rewrite <- (settled_rank_of _ _ z Hset). by rewrite rank_of_alter_keep.
  - intros Heq Hne Hmax. inversion Hl; subst; try lia; try done.
    split; [done |]. split; [done |].
    split; [rewrite parent_of_alter_keep by done; by apply parent_of_alter_parent |].
    split.
    + rewrite rank_of_alter_incr by (by rewrite length_alter).
      rewrite rank_of_alter_keep by done. rewrite (settled_rank_of _ _ _ Hset).
      apply Z.mod_small. unfold RANK_MAX, RANK_MODULUS in *. lia.
    + intros z Hz. rewrite <- (settled_rank_of _ _ z Hset).
      rewrite rank_of_alter_ne by done. by rewrite rank_of_alter_keep.
  - intros Heq Hne Hmax. inversion Hl; subst; try lia; done.
  - intros Heq. inversion Hl; subst; try lia; try done.
    split; [done |]. split; [done |].
    split; [intros z; by rewrite <- (settled_rank_of _ _ z Hset) |].
    split; [intros z s; symmetry; by apply (settled_root_of _ _ _ _ Hset) |].
    intros ex ey Hwex Hwey. split.
    + intros Hsame. split.
      * destruct ex as [| [| d]]; [lia | lia |]. exfalso.
        destruct (walk_start_on_walk _ _ _ _ Hwex) as [Hon Hne].
        apply (deep_walk_changes _ _ _ _ Hwex). rewrite <- (Hwx x Hon Hne).
        by rewrite Hsame.
      * destruct ey as [| [| d]]; [lia | lia |]. exfalso.
        destruct (walk_start_on_walk _ _ _ _ Hwey) as [Hon Hne].
        apply (deep_walk_changes _ _ _ _ Hwey). rewrite <- (Hwy y Hon Hne).
        by rewrite Hsame.
    + intros [Hex Hey].
      pose proof (unite_flat_same_root _ _ _ _ _ _ Hwex Hwey Hex Hey) as Hflat.
      congruence.
  - intros ->. split; [by eapply unite_same_args |].
    intros a b Hab. by eapply unite_same_keep.
Qed.

Lemma saturated2_ranks_valid : ranks_valid saturated2.
Proof.
  intros i n Hi. unfold RANK_MAX.
  destruct i as [| [| i]]; simpl in Hi; simplify_eq; simpl; lia.
Qed.

Lemma chain4_ranks_valid : ranks_valid chain4.
Proof.
  intros i n Hi. unfold RANK_MAX.
  destruct i as [| [| [| [| i]]]]; simpl in Hi; simplify_eq; simpl; lia.
Qed.

Lemma chain4_root_0 : root_of chain4 0 0.
Proof. exists 0%nat. by constructor. Qed.

Lemma unite_merges_by_rank_witness :
  ∃ f', unite chain4 3 0 = Some (f', UniteDone) ∧ same f' 3 0
    ∧ f' !! 3%nat = Some (mkSet 0 false 0 (Some 0%nat))
    ∧ f' ≠ chain4.
Proof.
  destruct (unite_merges_by_rank chain4 3 0 0 0 chain4_ranks_valid chain4_root_3
              chain4_root_0)
    as (f1 & f2 & f' & st & Hu & _ & _ & _ & Hwx & _ & _ & _ & _ & _ & _ & Hsame
        & Hdone).
  destruct (Hsame eq_refl) as (-> & -> & _ & _ & Hiff).
  destruct (Hdone eq_refl) as [Hs _].
  exists f2. split; [exact Hu |]. split; [exact Hs |]. split.
  - rewrite (Hwx 3%nat); [reflexivity | constructor | discriminate].
  - intros Heq.
    assert (walk (parents chain4) 3 0 2) as H3.
    { econstructor; [reflexivity |]. econstructor; [reflexivity |].
      by constructor. }
    assert (walk (parents chain4) 0 0 0) as H0 by (by constructor).
    destruct (proj1 (Hiff 2%nat 0%nat H3 H0) Heq) as [Hle _]. lia.
Defined.

(** ** Loops *)

Lemma rbind_Ok_r {A} (r : result A) : rbind r Ok = r.
Proof. by destruct r. Qed.

Lemma rbind_Ok_inv {A B} (r : result A) (k : A → result B) b :
  rbind r k = Ok b → ∃ a, r = Ok a ∧ k a = Ok b.
Proof. destruct r; simpl; try done. eauto. Qed.

Lemma rbind_assoc {A B C} (r : result A) (k : A → result B) (h : B → result C) :
  rbind (rbind r k) h = rbind r (λ a, rbind (k a) h).
Proof. by destruct r. Qed.

Lemma for_each_app {A S} (l1 l2 : list A) (body : A → S → result S) s :
  for_each (l1 ++ l2) body s = rbind (for_each l1 body s) (for_each l2 body).
Proof.
  revert s. induction l1 as [| x l1 IH]; intros s; simpl; [done |].
  rewrite rbind_assoc. destruct (body x s); simpl; auto.
Qed.

Lemma for_each_ext {A S} (l : list A) (body body' : A → S → result S) s :
  (∀ x t, x ∈ l → body x t = body' x t) → for_each l body s = for_each l body' s.
Proof.
  revert s. induction l as [| x l IH]; intros s Hext; simpl; [done |].
  rewrite Hext by apply list_elem_of_here.
  destruct (body' x s); simpl; try done.
  apply IH. intros y t Hy. apply Hext. by apply list_elem_of_further.
Qed.

(** Nested loops are one loop over the concatenated ranges. *)
Lemma for_each_bind {A B S} (l : list A) (g : A → list B) (body : B → S → result S) s :
  for_each (l ≫= g) body s = for_each l (λ x, for_each (g x) body) s.
Proof.
  revert s. induction l as [| x l IH]; intros s; [done |].
  rewrite bind_cons, for_each_app. simpl.
  destruct (for_each (g x) body s); simpl; auto.
Qed.

Lemma for_each_voxels {S} (a : Args) (body : Z → Z → Z → S → result S) s :
  for_each (zrange (depth a))
    (λ w, for_each (zrange (height a))
       (λ v, for_each (zrange (width a)) (body w v))) s
  = for_each (voxels a) (λ c, let '(u, v, w) := c in body w v u) s.
Proof.
  unfold voxels. rewrite for_each_bind. apply for_each_ext. intros w t _.
  rewrite for_each_bind. apply for_each_ext. intros v t' _.
  rewrite for_each_bind. apply for_each_ext. intros u t'' _.
  simpl. by rewrite rbind_Ok_r.
Qed.

(** A loop invariant indexed by the part of the range already visited. *)
Lemma for_each_inv {A S} (I : list A → S → Prop) (l : list A)
    (body : A → S → result S) s s' :
  I [] s →
  (∀ pre x suf t t', l = pre ++ x :: suf → I pre t → body x t = Ok t' →
     I (pre ++ [x]) t') →
  for_each l body s = Ok s' → I l s'.
Proof.
  intros Hinit Hstep.
  assert (∀ suf pre t, l = pre ++ suf → I pre t →
            for_each suf body t = Ok s' → I l s') as Hgen.
  { induction suf as [| x suf IH]; intros pre t Hl Hpre Hrun.
    - simpl in Hrun. simplify_eq. by rewrite app_nil_r.
    - simpl in Hrun. apply rbind_Ok_inv in Hrun as (t' & Hx & Hrun).
      apply (IH (pre ++ [x]) t'); [by rewrite <- app_assoc | | done].
      by eapply Hstep. }
  by apply (Hgen l [] s).
Qed.

(** ** The scan as a list of unions *)

Lemma scan_voxel_edges a u v w f :
  scan_voxel a w v u f = unite_list (voxel_edges a (u, v, w)) f.
Proof.
  unfold scan_voxel, unite_list, voxel_edges.
  destruct (foreground a u v w); [| done].
  rewrite for_each_bind. apply for_each_ext. intros n t _.
  destruct (in_volume a _ _ _ && foreground a _ _ _); simpl; [| done].
  by rewrite rbind_Ok_r.
Qed.

Lemma scan_loops_unite_list a f :
  for_each (zrange (depth a))
    (λ w, for_each (zrange (height a))
       (λ v, for_each (zrange (width a)) (scan_voxel a w v))) f
  = unite_list (scan_edges a) f.
Proof.
  rewrite for_each_voxels.
  unfold unite_list, scan_edges. rewrite for_each_bind.
  apply for_each_ext. intros [[u v] w] t _. apply scan_voxel_edges.
Qed.

(** A loop whose body may run into undefined behaviour before it does its
    work does the work, or is undefined. *)
Lemma for_each_or_undefined {A S} (l : list A) (body body' : A → S → result S) s :
  (∀ x t, body' x t = Undefined ∨ body' x t = body x t) →
  for_each l body' s = Undefined ∨ for_each l body' s = for_each l body s.
Proof.
  intros Hbody. revert s. induction l as [| x l IH]; intros s; [by right |].
  simpl. destruct (Hbody x s) as [-> | ->]; [by left |].
  destruct (body x s) as [t | | | | | |]; simpl; auto.
Qed.

Lemma row_head_cases a v w :
  (∃ ps, row_head a v w = Ok ps) ∨ row_head a v w = Undefined.
Proof.
  unfold row_head, row_offset, row_index, int_mul, int_add.
  destruct (in_int (w * inputLeap a)); [| by right]. simpl.
  destruct (in_int (v * inputStride a)); [| by right]. simpl.
  destruct (in_int (w * width a)); [| by right]. simpl.
  destruct (in_int (w * width a * height a)); [| by right]. simpl.
  destruct (in_int (v * width a)); [| by right]. simpl.
  destruct (in_int _); [left; eauto | by right].
Qed.

(** The scan is the list of its unions, unless the head of a row runs into
    an overflow. *)
Lemma scan_cases a f :
  scan a f = Undefined ∨ scan a f = unite_list (scan_edges a) f.
Proof.
  rewrite <- scan_loops_unite_list. unfold scan.
  apply for_each_or_undefined. intros w t.
  apply for_each_or_undefined. intros v t'.
  destruct (row_head_cases a v w) as [[ps ->] | ->]; [by right | by left].
Qed.

Lemma scan_unite_list a f :
  (∀ v w, 0 ≤ v < height a → 0 ≤ w < depth a → ∃ ps, row_head a v w = Ok ps) →
  scan a f = unite_list (scan_edges a) f.
Proof.
  intros Hrows. rewrite <- scan_loops_unite_list. unfold scan.
  apply for_each_ext. intros w t Hw. apply for_each_ext. intros v t' Hv.
  unfold zrange in Hw, Hv. apply elem_of_seqZ in Hw, Hv.
  by destruct (Hrows v w ltac:(lia) ltac:(lia)) as [ps ->].
Qed.

Lemma resolve_for_each a st : resolve a st = for_each (voxels a) (resolve_at a) st.
Proof.
  unfold resolve. rewrite for_each_voxels. apply for_each_ext.
  by intros [[u v] w] t _.
Qed.

(** ** Components after a list of unions *)

Lemma rtsc_lift {A} (R R' : relation A) x y :
  (∀ a b, R a b → rtsc R' a b) → rtsc R x y → rtsc R' x y.
Proof.
  intros HR. induction 1 as [| x y z [Hxy | Hyx] _ IH]; [done | |].
  - etrans; [by apply HR | done].
  - etrans; [symmetry; by apply HR | done].
Qed.

Lemma closure_sound f (R : relation nat) x y :
  acyclic f → (∀ a b, R a b → same f a b) →
  rtsc R x y → (x < length f)%nat → same f x y.
Proof.
  intros Hac HR. induction 1 as [| x y z Hxy _ IH]; intros Hx.
  - by apply same_refl.
  - assert (same f x y) as Hs.
    { destruct Hxy as [?%HR | ?%HR]; [done | by apply same_sym]. }
    eapply same_trans; [done |]. apply IH. by destruct (same_lt _ _ _ Hs).
Qed.

Lemma unite_result_Ok f x y f' :
  unite_result f x y = Ok f' ↔ unite f x y = Some (f', UniteDone).
Proof.
  unfold unite_result. destruct (unite f x y) as [[g []] |]; naive_solver.
Qed.

Lemma unite_list_spec es f f' :
  wf f → unite_list es f = Ok f' →
  wf f' ∧ length f' = length f
  ∧ label_state <$> f' = label_state <$> f
  ∧ ∀ x y, (x < length f)%nat → same f' x y ↔ joined f es x y.
Proof.
  revert f. induction es as [| [e1 e2] es IH]; intros f Hwf Hrun.
  - unfold unite_list in Hrun. simpl in Hrun. simplify_eq.
    split; [done |]. split; [done |]. split; [done |].
    intros x y Hx. split.
    + intros Hs. apply rtsc_lr. by left.
    + intros Hj. eapply closure_sound; [apply Hwf | | exact Hj | done].
      intros a b [? | []%elem_of_nil]. done.
  - unfold unite_list in Hrun. simpl in Hrun.
    apply rbind_Ok_inv in Hrun as (f1 & Hu%unite_result_Ok & Hrun).
    pose proof (unite_wf _ _ _ _ _ Hu Hwf) as Hwf1.
    pose proof (unite_length _ _ _ _ _ Hu) as Hlen1.
    destruct (IH f1 Hwf1 Hrun) as (Hwf' & Hlen' & Hlab' & Hsame).
    split; [done |]. split; [lia |].
    split; [by rewrite Hlab', (unite_label_states _ _ _ _ _ Hu) |].
    intros x y Hx. rewrite Hsame by lia. unfold joined. split.
    + apply rtsc_lift. intros a b [Hab | Hin].
      * destruct (unite_same_inv _ _ _ _ _ a b Hu (proj1 Hwf) Hab)
          as [H0 | [[H1 H2] | [H1 H2]]].
        -- apply rtsc_lr. by left.
        -- etrans; [apply rtsc_lr; by left |].
           etrans; [apply rtsc_lr; right; apply list_elem_of_here |].
           apply rtsc_lr. by left.
        -- etrans; [apply rtsc_lr; by left |].
           etrans; [apply rtsc_rl; right; apply list_elem_of_here |].
           apply rtsc_lr. by left.
      * apply rtsc_lr. right. by apply list_elem_of_further.
    + apply rtsc_lift. intros a b [Hab | Hin].
      * apply rtsc_lr. left. by eapply unite_same_keep.
      * apply elem_of_cons in Hin as [Heq | Hin].
        -- simplify_eq. apply rtsc_lr. left. by eapply unite_same_args.
        -- apply rtsc_lr. by right.
Qed.

(** From freshly constructed nodes the pairs alone generate the components. *)
Lemma same_init n x y : same (replicate n default_Set) x y → x = y.
Proof.
  intros (r & [d Hx] & [e Hy]).
  assert (∀ z d', walk (parents (replicate n default_Set)) z r d' → z = r) as Hz.
  { intros z d' Hw. inversion Hw as [| ? p ? ? Hp]; simplify_eq; [done |].
    rewrite parents_lookup in Hp.
    destruct (replicate n default_Set !! z) as [m |] eqn:Hm; simplify_eq/=.
    by apply lookup_replicate in Hm as [-> _]. }
  by rewrite (Hz _ _ Hx), (Hz _ _ Hy).
Qed.

Lemma unite_list_init es n f' :
  unite_list es (replicate n default_Set) = Ok f' →
  wf f' ∧ length f' = n
  ∧ label_state <$> f' = replicate n (false, UNITIALIZED)
  ∧ ∀ x y, (x < n)%nat → same f' x y ↔ rtsc (λ a b, (a, b) ∈ es) x y.
Proof.
  intros Hrun.
  destruct (unite_list_spec _ _ _ (init_wf n) Hrun) as (Hwf & Hlen & Hlab & Hsame).
  rewrite length_replicate in Hlen, Hsame.
  split; [done |]. split; [done |].
  split; [by rewrite Hlab, fmap_replicate |].
  intros x y Hx. rewrite (Hsame x y Hx). unfold joined. split.
  - apply rtsc_lift. intros a b [->%same_init | Hin]; [done | by apply rtsc_lr].
  - apply rtsc_lift. intros a b Hin. apply rtsc_lr. by right.
Qed.

(** ** The voxel grid *)

Lemma elem_of_voxels a c : c ∈ voxels a ↔ in_vol a c.
Proof.
  destruct c as [[u v] w]. unfold voxels, zrange, in_vol. split.
  - intros (w' & (v' & (u' & Hc & Hu)%list_elem_of_bind & Hv)%list_elem_of_bind
            & Hw)%list_elem_of_bind.
    apply list_elem_of_singleton in Hc. simplify_eq.
    apply elem_of_seqZ in Hu, Hv, Hw. lia.
  - intros (Hu & Hv & Hw).
    apply list_elem_of_bind. exists w. split; [| apply elem_of_seqZ; lia].
    apply list_elem_of_bind. exists v. split; [| apply elem_of_seqZ; lia].
    apply list_elem_of_bind. exists u. split; [| apply elem_of_seqZ; lia].
    by apply list_elem_of_singleton.
Qed.

Lemma NoDup_voxels a : NoDup (voxels a).
Proof.
  unfold voxels, zrange. apply NoDup_bind; [| | apply NoDup_seqZ].
  - intros w1 w2 c _ _
      (v1 & (u1 & ->%list_elem_of_singleton & _)%list_elem_of_bind & _)%list_elem_of_bind
      (v2 & (u2 & ?%list_elem_of_singleton & _)%list_elem_of_bind & _)%list_elem_of_bind.
    by simplify_eq.
  - intros w _. apply NoDup_bind; [| | apply NoDup_seqZ].
    + intros v1 v2 c _ _
        (u1 & ->%list_elem_of_singleton & _)%list_elem_of_bind
        (u2 & ?%list_elem_of_singleton & _)%list_elem_of_bind.
      by simplify_eq.
    + intros v _. apply NoDup_bind; [| | apply NoDup_seqZ].
      * intros u1 u2 c _ _ ->%list_elem_of_singleton ?%list_elem_of_singleton.
        by simplify_eq.
      * intros u _. apply NoDup_singleton.
Qed.

Lemma length_bind_const {A B} (g : A → list B) (l : list A) k :
  (∀ x, length (g x) = k) → length (l ≫= g) = (length l * k)%nat.
Proof.
  intros Hg. induction l as [| x l IH]; [done |].
  rewrite bind_cons, length_app, Hg, IH. simpl. lia.
Qed.

Lemma length_voxels a :
  length (voxels a)
  = (Z.to_nat (depth a) * (Z.to_nat (height a) * Z.to_nat (width a)))%nat.
Proof.
  unfold voxels, zrange.
  rewrite (length_bind_const _ _ (Z.to_nat (height a) * Z.to_nat (width a))%nat).
  { by rewrite length_seqZ. }
  intros w. rewrite (length_bind_const _ _ (Z.to_nat (width a))).
  { by rewrite length_seqZ. }
  intros v. rewrite (length_bind_const _ _ 1%nat); [| done].
  rewrite length_seqZ. lia.
Qed.

Lemma in_volume_spec a u v w : in_volume a u v w = true ↔ in_vol a (u, v, w).
Proof.
  unfold in_volume, in_vol. rewrite !andb_true_iff, !Z.leb_le, !Z.ltb_lt.
  intuition lia.
Qed.

Lemma foreground_spec a u v w : foreground a u v w = true ↔ is_fg a (u, v, w).
Proof.
  unfold foreground, is_fg. rewrite negb_true_iff.
  destruct (Z.eqb_spec (voxel a u v w) (backgroundColor a)); split; congruence.
Qed.

Lemma foreground_false a u v w : foreground a u v w = false ↔ ¬ is_fg a (u, v, w).
Proof. rewrite <- foreground_spec. by destruct (foreground a u v w). Qed.

Lemma radix_inj b q r q' r' :
  0 ≤ r < b → 0 ≤ r' < b → q * b + r = q' * b + r' → q = q' ∧ r = r'.
Proof. intros Hr Hr' Heq. assert (q = q') by nia. subst. lia. Qed.

Lemma node_index_bound a u v w :
  in_vol a (u, v, w) →
  0 ≤ w * width a * height a + v * width a + u < width a * height a * depth a.
Proof.
  unfold in_vol. intros (Hu & Hv & Hw).
  assert (0 ≤ v * width a) by nia.
  assert (v * width a + u < height a * width a) by nia.
  assert (0 ≤ w * (width a * height a)) by nia.
  assert (w * (width a * height a) + width a * height a
          ≤ depth a * (width a * height a)) by nia.
  lia.
Qed.

Lemma index_of_lt a c :
  in_vol a c → (index_of a c < Z.to_nat (width a * height a * depth a))%nat.
Proof.
  destruct c as [[u v] w]. intros Hc%node_index_bound.
  unfold index_of, node_index. lia.
Qed.

Lemma index_of_inj a c c' :
  in_vol a c → in_vol a c' → index_of a c = index_of a c' → c = c'.
Proof.
  destruct c as [[u v] w], c' as [[u' v'] w']. intros Hc Hc' Heq.
  pose proof (node_index_bound _ _ _ _ Hc). pose proof (node_index_bound _ _ _ _ Hc').
  unfold index_of, node_index in Heq. apply Z2Nat.inj in Heq; [| lia | lia].
  destruct Hc as (Hu & Hv & Hw), Hc' as (Hu' & Hv' & Hw').
  destruct (radix_inj (width a) (w * height a + v) u (w' * height a + v') u')
    as [Hq ->]; [lia | lia | lia |].
  destruct (radix_inj (height a) w v w' v') as [-> ->]; [lia | lia | lia |]. done.
Qed.

Lemma output_offset_inj a c c' :
  output_layout_ok a → in_vol a c → in_vol a c' →
  (let '(u, v, w) := c in output_offset a u v w)
  = (let '(u, v, w) := c' in output_offset a u v w) →
  c = c'.
Proof.
  destruct c as [[u v] w], c' as [[u' v'] w'].
  intros (Hk & Hs & Hl) (Hu & Hv & Hw) (Hu' & Hv' & Hw') Heq.
  unfold output_offset in Heq.
  assert (0 ≤ u * sizeofU a < outputStride a) by nia.
  assert (0 ≤ u' * sizeofU a < outputStride a) by nia.
  assert (0 ≤ v * outputStride a + u * sizeofU a < outputLeap a) by nia.
  assert (0 ≤ v' * outputStride a + u' * sizeofU a < outputLeap a) by nia.
  destruct (radix_inj (outputLeap a) w (v * outputStride a + u * sizeofU a)
              w' (v' * outputStride a + u' * sizeofU a)) as [-> Hq]; [lia | lia | lia |].
  destruct (radix_inj (outputStride a) v (u * sizeofU a) v' (u' * sizeofU a))
    as [-> Hr]; [lia | lia | lia |].
  assert (u = u') by nia. by subst.
Qed.

Lemma face_adjacent_backward c c' :
  face_adjacent c c' ↔ backward c c' ∨ backward c' c.
Proof.
  destruct c as [[u v] w], c' as [[u' v'] w']. unfold face_adjacent, backward.
  split.
  - intros H.
    assert ((u' = u ∧ v' = v ∧ w' = w - 1) ∨ (u' = u - 1 ∧ v' = v ∧ w' = w)
            ∨ (u' = u ∧ v' = v - 1 ∧ w' = w)
            ∨ (u = u' ∧ v = v' ∧ w = w' - 1) ∨ (u = u' - 1 ∧ v = v' ∧ w = w')
            ∨ (u = u' ∧ v = v' - 1 ∧ w = w')) as Hcases by lia.
    destruct Hcases as [(-> & -> & ->) | [(-> & -> & ->) | [(-> & -> & ->)
      | [(-> & -> & ->) | [(-> & -> & ->) | (-> & -> & ->)]]]]]; auto.
  - intros [[? | [? | ?]] | [? | [? | ?]]]; simplify_eq; lia.
Qed.

Lemma fg_step_scan_pair a c c' :
  fg_step a c c' ↔ scan_pair a c c' ∨ scan_pair a c' c.
Proof.
  unfold fg_step, scan_pair. rewrite face_adjacent_backward. tauto.
Qed.

Lemma elem_of_voxel_edges a c x y :
  (x, y) ∈ voxel_edges a c ↔
  is_fg a c ∧ ∃ c', backward c c' ∧ in_vol a c' ∧ is_fg a c'
                    ∧ x = index_of a c ∧ y = index_of a c'.
Proof.
  destruct c as [[u v] w]. unfold voxel_edges.
  destruct (foreground a u v w) eqn:Hfg.
  - apply foreground_spec in Hfg. split.
    + intros (n & Hin & Hn)%list_elem_of_bind. split; [done |].
      destruct (in_volume a _ _ _ && foreground a _ _ _) eqn:Hnb;
        [| by apply elem_of_nil in Hin].
      apply andb_true_iff in Hnb as [Hv%in_volume_spec Hf%foreground_spec].
      apply list_elem_of_singleton in Hin. simplify_eq.
      eexists (_, _, _). split; [| done].
      unfold N in Hn. apply elem_of_seq in Hn.
      destruct n as [| [| [| n]]]; simpl; [| | | lia].
      * left. f_equal; try f_equal; lia.
      * right. left. f_equal; try f_equal; lia.
      * right. right. f_equal; try f_equal; lia.
    + intros (_ & [[u' v'] w'] & Hb & Hv & Hf & -> & ->).
      apply list_elem_of_bind.
      assert (∃ n, (n < 3)%nat ∧ u' = u + nth n du 0 ∧ v' = v + nth n dv 0
                   ∧ w' = w + nth n dw 0) as (n & Hn & -> & -> & ->).
      { destruct Hb as [? | [? | ?]]; simplify_eq.
        - exists 0%nat. simpl. split; [lia |]. split; [lia |]. split; lia.
        - exists 1%nat. simpl. split; [lia |]. split; [lia |]. split; lia.
        - exists 2%nat. simpl. split; [lia |]. split; [lia |]. split; lia. }
      exists n. split; [| apply elem_of_seq; unfold N; lia].
      apply in_volume_spec in Hv. apply foreground_spec in Hf.
      rewrite Hv, Hf. simpl. by apply list_elem_of_singleton.
  - apply foreground_false in Hfg. split; [by intros ?%elem_of_nil | by intros [? _]].
Qed.

Lemma elem_of_scan_edges a x y :
  (x, y) ∈ scan_edges a ↔
  ∃ c c', scan_pair a c c' ∧ x = index_of a c ∧ y = index_of a c'.
Proof.
  unfold scan_edges. rewrite list_elem_of_bind. split.
  - intros (c & (Hfg & c' & Hb & Hv & Hf & -> & ->)%elem_of_voxel_edges
            & Hc%elem_of_voxels).
    exists c, c'. done.
  - intros (c & c' & (Hv & Hf & Hv' & Hf' & Hb) & -> & ->).
    exists c. split; [| by apply elem_of_voxels].
    apply elem_of_voxel_edges. split; [done |]. exists c'. done.
Qed.

(** The pairs united by the scan generate the face connectivity of the
    foreground. *)
Lemma scan_edges_connected a c c' :
  in_vol a c → in_vol a c' →
  rtsc (λ x y, (x, y) ∈ scan_edges a) (index_of a c) (index_of a c')
  ↔ connected a c c'.
Proof.
  intros Hc Hc'. split.
  - intros H. remember (index_of a c) as x eqn:Hx.
    remember (index_of a c') as y eqn:Hy.
    revert c Hc Hx. induction H as [x | x z y Hxz _ IH]; intros c Hc Hx.
    + subst. apply index_of_inj in Hx; [| done | done]. subst. apply rtc_refl.
    + assert (∃ d, fg_step a c d ∧ in_vol a d ∧ z = index_of a d) as (d & Hs & Hd & Hz).
      { destruct Hxz as [(d & e & Hp & Hd & He)%elem_of_scan_edges
                        | (d & e & Hp & Hd & He)%elem_of_scan_edges].
        - assert (c = d) as <-.
          { apply (index_of_inj a); [done | apply Hp | congruence]. }
          exists e. split; [apply fg_step_scan_pair; by left |].
          split; [apply Hp | done].
        - assert (c = e) as <-.
          { apply (index_of_inj a); [done | apply Hp | congruence]. }
          exists d. split; [apply fg_step_scan_pair; by right |].
          split; [apply Hp | done]. }
      eapply rtc_l; [exact Hs |]. by apply IH.
  - induction 1 as [c | c d c' Hs _ IH].
    + done.
    + assert (in_vol a d) as Hd by apply Hs.
      etrans; [| by apply IH].
      apply fg_step_scan_pair in Hs as [Hp | Hp].
      * apply rtsc_lr. apply elem_of_scan_edges. by exists c, d.
      * apply rtsc_rl. apply elem_of_scan_edges. by exists d, c.
Qed.

(** ** The allocation *)

Lemma le_decode_zeros m : le_decode (replicate m 0) = 0.
Proof.
  induction m as [| m IH]; [done |].
  change (le_decode (replicate (S m) 0)) with (0 + 256 * le_decode (replicate m 0)).
  by rewrite IH.
Qed.

Lemma field_zeros off size m v : field off size (replicate m 0) = Some v → v = 0.
Proof.
  unfold field. case_decide; [| done]. intros [= <-].
  by rewrite drop_replicate, take_replicate, le_decode_zeros.
Qed.

Lemma decode_array_S sizeofU base k bs :
  decode_array sizeofU base (S k) bs =
  (nd ← decode_Set sizeofU base (take (Z.to_nat (sizeof_Set sizeofU)) bs);
   f ← decode_array sizeofU base k (drop (Z.to_nat (sizeof_Set sizeofU)) bs);
   Some (nd :: f)).
Proof. reflexivity. Qed.

(** Zero bytes hold default-constructed nodes only. *)
Lemma decode_Set_zeros_inv sizeofU base m nd :
  decode_Set sizeofU base (replicate m 0) = Some nd → nd = default_Set.
Proof.
  unfold decode_Set. case_decide; [| done]. intros H1.
  apply bind_Some in H1 as (r & ->%field_zeros & H2).
  apply bind_Some in H2 as (h & ->%field_zeros & H3).
  apply bind_Some in H3 as (l & ->%field_zeros & H4).
  apply bind_Some in H4 as (q & ->%field_zeros & H5).
  by injection H5 as <-.
Qed.

Lemma decode_array_zeros_inv sizeofU base n m f :
  decode_array sizeofU base n (replicate m 0) = Some f → f = replicate n default_Set.
Proof.
  revert m f. induction n as [| n IH]; intros m f; [by intros [= <-] |].
  rewrite decode_array_S, take_replicate, drop_replicate. intros H1.
  apply bind_Some in H1 as (nd & ->%decode_Set_zeros_inv & H2).
  apply bind_Some in H2 as (g & ->%IH & H3).
  by injection H3 as <-.
Qed.

Lemma sizeof_Set_values sizeofU :
  label_size_ok sizeofU →
  sizeof_Set sizeofU = 16 ∨ sizeof_Set sizeofU = 24 ∨ sizeof_Set sizeofU = 48.
Proof. intros [-> | [-> | [-> | [-> | ->]]]]; vm_compute; tauto. Qed.

Lemma decode_Set_zeros sizeofU base :
  label_size_ok sizeofU →
  decode_Set sizeofU base (replicate (Z.to_nat (sizeof_Set sizeofU)) 0)
  = Some default_Set.
Proof. intros [-> | [-> | [-> | [-> | ->]]]]; vm_compute; reflexivity. Qed.

(** Enough zero bytes decode to the array of default nodes ... *)
Lemma decode_array_zeros sizeofU base n m :
  label_size_ok sizeofU →
  Z.of_nat n * sizeof_Set sizeofU ≤ Z.of_nat m →
  decode_array sizeofU base n (replicate m 0) = Some (replicate n default_Set).
Proof.
  intros Hsz. pose proof (sizeof_Set_values _ Hsz) as Hs.
  revert m. induction n as [| n IH]; intros m Hm; [done |].
  rewrite decode_array_S, take_replicate, drop_replicate.
  replace (Z.to_nat (sizeof_Set sizeofU) `min` m)%nat
    with (Z.to_nat (sizeof_Set sizeofU)) by lia.
  rewrite (decode_Set_zeros _ _ Hsz), IH by lia. done.
Qed.

(** ... and no buffer shorter than [n*sizeof(Set<U>)] holds [n] nodes. *)
Lemma decode_array_needs sizeofU base n bs f :
  decode_array sizeofU base n bs = Some f →
  Z.of_nat n * sizeof_Set sizeofU ≤ Z.of_nat (length bs).
Proof.
  revert bs f. induction n as [| n IH]; intros bs f; [intros _; lia |].
  rewrite decode_array_S. intros H1.
  apply bind_Some in H1 as (nd & Hnd & H2).
  apply bind_Some in H2 as (g & Hg%IH & _).
  unfold decode_Set in Hnd. case_decide as Hlen; [| done].
  rewrite length_take in Hlen. rewrite length_drop in Hg. lia.
Qed.

Lemma int_mul_Ok x y z :
  int_mul x y = Ok z ↔ z = x * y ∧ INT_MIN ≤ x * y ≤ INT_MAX.
Proof.
  unfold int_mul, in_int.
  destruct (Z.leb_spec INT_MIN (x * y)), (Z.leb_spec (x * y) INT_MAX); simpl;
    split; try done; try (intros [= <-]; lia); try lia; by intros [-> _].
Qed.

Lemma int_add_Ok x y z :
  int_add x y = Ok z ↔ z = x + y ∧ INT_MIN ≤ x + y ≤ INT_MAX.
Proof.
  unfold int_add, in_int.
  destruct (Z.leb_spec INT_MIN (x + y)), (Z.leb_spec (x + y) INT_MAX); simpl;
    split; try done; try (intros [= <-]; lia); try lia; by intros [-> _].
Qed.

Lemma int_mul_in x y : INT_MIN ≤ x * y ≤ INT_MAX → int_mul x y = Ok (x * y).
Proof. intros H. by apply int_mul_Ok. Qed.

Lemma int_add_in x y : INT_MIN ≤ x + y ≤ INT_MAX → int_add x y = Ok (x + y).
Proof. intros H. by apply int_add_Ok. Qed.

Lemma int_mul_out x y : ¬ INT_MIN ≤ x * y ≤ INT_MAX → int_mul x y = Undefined.
Proof.
  intros H. unfold int_mul, in_int.
  destruct (Z.leb_spec INT_MIN (x * y)), (Z.leb_spec (x * y) INT_MAX); simpl;
    try done; lia.
Qed.

Lemma node_count_Ok a n :
  node_count a = Ok n ↔
  n = width a * height a * depth a
  ∧ INT_MIN ≤ width a * height a ≤ INT_MAX
  ∧ INT_MIN ≤ width a * height a * depth a ≤ INT_MAX.
Proof.
  unfold node_count. split.
  - intros H1. apply rbind_Ok_inv in H1 as (wh & [-> Hwh]%int_mul_Ok & H2).
    apply int_mul_Ok in H2 as [-> Hn]. done.
  - intros (-> & Hwh & Hn). rewrite (int_mul_in _ _ Hwh). simpl.
    by apply int_mul_in.
Qed.

Lemma node_count_in a :
  INT_MIN ≤ width a * height a ≤ INT_MAX →
  INT_MIN ≤ width a * height a * depth a ≤ INT_MAX →
  node_count a = Ok (width a * height a * depth a).
Proof. intros Hwh Hn. by apply node_count_Ok. Qed.

Lemma node_count_cases a :
  (∃ n, node_count a = Ok n) ∨ node_count a = Undefined.
Proof.
  unfold node_count, int_mul.
  destruct (in_int (width a * height a)); [| by right]. simpl.
  destruct (in_int (width a * height a * depth a)); [left; eauto | by right].
Qed.

Lemma node_count_out a :
  ¬ (INT_MIN ≤ width a * height a ≤ INT_MAX
     ∧ INT_MIN ≤ width a * height a * depth a ≤ INT_MAX) →
  node_count a = Undefined.
Proof.
  intros Hout. destruct (node_count_cases a) as [[n Hn] | H]; [| done].
  apply node_count_Ok in Hn. tauto.
Qed.

(** The bytes of the vector, by the node count and the bytes the allocator
    grants. *)
Lemma components_zeros a bytes :
  components_ a = Ok bytes → ∃ m, bytes = replicate m 0.
Proof.
  unfold components_. intros H1.
  apply rbind_Ok_inv in H1 as (n & _ & H2). revert H2.
  destruct (MAX_SIZE <? _); [done |].
  destruct ((0 <? _) && _); [done |]. intros [= <-]. eauto.
Qed.

Lemma components_fresh a :
  label_size_ok (sizeofU a) →
  INT_MIN ≤ width a * height a ≤ INT_MAX →
  0 < width a * height a * depth a ≤ INT_MAX →
  width a * height a * depth a * sizeof_Set (sizeofU a) ≤ heapBytes a →
  components_ a
  = Ok (replicate (Z.to_nat (width a * height a * depth a
                             * sizeof_Set (sizeofU a))) 0).
Proof.
  intros Hsz Hwh Hn Hheap. pose proof (sizeof_Set_values _ Hsz) as Hs.
  unfold components_.
  rewrite node_count_in by (unfold INT_MIN, INT_MAX in *; lia).
  simpl. unfold INT_MIN, INT_MAX in *.
  set (n := width a * height a * depth a) in *.
  set (s := sizeof_Set (sizeofU a)) in *.
  assert (n mod SIZE_MODULUS = n) as -> by (apply Z.mod_small; unfold SIZE_MODULUS; lia).
  assert (0 < n * s < 2147483648 * 48) as Hns by nia.
  assert ((n * s) mod SIZE_MODULUS = n * s) as ->
    by (apply Z.mod_small; unfold SIZE_MODULUS; lia).
  destruct (Z.ltb_spec MAX_SIZE (n * s)); [unfold MAX_SIZE in *; lia |].
  destruct (Z.ltb_spec (heapBytes a) (n * s)); [lia |].
  by rewrite andb_false_r.
Qed.

(** A returning allocation has made one fresh root per voxel. *)
Lemma allocate_Ok a f :
  allocate a = Ok f →
  INT_MIN ≤ width a * height a * depth a ≤ INT_MAX
  ∧ f = replicate (Z.to_nat (width a * height a * depth a)) default_Set.
Proof.
  unfold allocate. intros H1.
  apply rbind_Ok_inv in H1 as (bytes & Hb & H2).
  apply components_zeros in Hb as [m ->].
  destruct (replicate m 0) as [| b bs] eqn:Hbs; [done |]. rewrite <- Hbs in H2.
  apply rbind_Ok_inv in H2 as (n & (-> & _ & Hn)%node_count_Ok & H3).
  split; [done |].
  destruct (decode_array _ _ _ _) as [g |] eqn:Hg; [| done].
  apply decode_array_zeros_inv in Hg. congruence.
Qed.

Lemma allocate_returns a : allocate a ≠ NoReturn.
Proof.
  unfold allocate, components_.
  destruct (node_count_cases a) as [[n ->] | ->]; [| done]. simpl.
  destruct (MAX_SIZE <? _); [done |]. destruct ((0 <? _) && _); [done |]. simpl.
  destruct (replicate _ 0); [done |].
  by destruct (decode_array _ _ _ _).
Qed.

Lemma allocate_fresh a :
  label_size_ok (sizeofU a) →
  INT_MIN ≤ width a * height a ≤ INT_MAX →
  0 < width a * height a * depth a ≤ INT_MAX →
  width a * height a * depth a * sizeof_Set (sizeofU a) ≤ heapBytes a →
  allocate a = Ok (constructed_array (Z.to_nat (width a * height a * depth a))).
Proof.
  intros Hsz Hwh Hn Hheap. pose proof (sizeof_Set_values _ Hsz) as Hs.
  unfold allocate. rewrite components_fresh by done. simpl.
  destruct (replicate _ 0) as [| b bs] eqn:Hbs.
  { apply (f_equal length) in Hbs. rewrite length_replicate in Hbs.
    simpl in Hbs. nia. }
  rewrite <- Hbs.
  rewrite node_count_in by (unfold INT_MIN, INT_MAX in *; lia).
  simpl. by rewrite decode_array_zeros by (done || lia).
Qed.

Lemma allocate_negative a :
  label_size_ok (sizeofU a) →
  INT_MIN ≤ width a * height a ≤ INT_MAX →
  INT_MIN ≤ width a * height a * depth a < 0 →
  allocate a = LengthError.
Proof.
  intros Hsz Hwh Hn. pose proof (sizeof_Set_values _ Hsz) as Hs.
  unfold allocate, components_.
  rewrite node_count_in by (unfold INT_MIN, INT_MAX in *; lia).
  simpl. unfold INT_MIN, INT_MAX in *.
  set (n := width a * height a * depth a) in *.
  set (s := sizeof_Set (sizeofU a)) in *.
  assert (n mod SIZE_MODULUS = SIZE_MODULUS + n) as ->.
  { symmetry. apply (Z.mod_unique n SIZE_MODULUS (-1)); unfold SIZE_MODULUS; lia. }
  assert (- (2147483648 * 48) ≤ n * s < 0) as Hns by nia.
  assert (((SIZE_MODULUS + n) * s) mod SIZE_MODULUS = SIZE_MODULUS + n * s) as ->.
  { symmetry. apply (Z.mod_unique _ SIZE_MODULUS (s - 1)); unfold SIZE_MODULUS; lia. }
  destruct (Z.ltb_spec MAX_SIZE (SIZE_MODULUS + n * s)); [done |].
  unfold MAX_SIZE, SIZE_MODULUS in *. lia.
Qed.

Lemma allocate_empty a :
  INT_MIN ≤ width a * height a ≤ INT_MAX →
  width a * height a * depth a = 0 →
  allocate a = Undefined.
Proof.
  intros Hwh Hn. unfold allocate, components_.
  rewrite node_count_in by (rewrite ?Hn; unfold INT_MIN, INT_MAX in *; lia).
  simpl. by rewrite Hn.
Qed.

Lemma allocate_refused a :
  label_size_ok (sizeofU a) →
  INT_MIN ≤ width a * height a ≤ INT_MAX →
  0 < width a * height a * depth a ≤ INT_MAX →
  heapBytes a < width a * height a * depth a * sizeof_Set (sizeofU a) →
  allocate a = BadAlloc.
Proof.
  intros Hsz Hwh Hn Hheap. pose proof (sizeof_Set_values _ Hsz) as Hs.
  unfold allocate, components_.
  rewrite node_count_in by (unfold INT_MIN, INT_MAX in *; lia).
  simpl. unfold INT_MIN, INT_MAX in *.
  set (n := width a * height a * depth a) in *.
  set (s := sizeof_Set (sizeofU a)) in *.
  assert (n mod SIZE_MODULUS = n) as -> by (apply Z.mod_small; unfold SIZE_MODULUS; lia).
  assert (0 < n * s < 2147483648 * 48) as Hns by nia.
  assert ((n * s) mod SIZE_MODULUS = n * s) as ->
    by (apply Z.mod_small; unfold SIZE_MODULUS; lia).
  destruct (Z.ltb_spec MAX_SIZE (n * s)); [unfold MAX_SIZE in *; lia |].
  destruct (Z.ltb_spec 0 (n * s)); [| lia].
  destruct (Z.ltb_spec (heapBytes a) (n * s)); [done | lia].
Qed.

Lemma allocate_overflow a :
  ¬ (INT_MIN ≤ width a * height a ≤ INT_MAX
     ∧ INT_MIN ≤ width a * height a * depth a ≤ INT_MAX) →
  allocate a = Undefined.
Proof.
  intros H. unfold allocate, components_. by rewrite (node_count_out a H).
Qed.

(** ** The resolution pass *)

Lemma total_pixelCount_app s1 s2 :
  total_pixelCount (s1 ++ s2) = total_pixelCount s1 + total_pixelCount s2.
Proof.
  induction s1 as [| c s1 IH]; [done |].
  change (total_pixelCount ((c :: s1) ++ s2))
    with (pixelCount_ c + total_pixelCount (s1 ++ s2)).
  change (total_pixelCount (c :: s1)) with (pixelCount_ c + total_pixelCount s1).
  rewrite IH. lia.
Qed.

Lemma total_pixelCount_nonneg stats :
  Forall (λ c, 0 ≤ pixelCount_ c) stats → 0 ≤ total_pixelCount stats.
Proof.
  induction 1 as [| c stats Hc _ IH]; [done |].
  change (total_pixelCount (c :: stats)) with (pixelCount_ c + total_pixelCount stats).
  lia.
Qed.

(** Below the modulus of the counter, an increment adds one to the sum. *)
Lemma total_pixelCount_bump stats i :
  (i < length stats)%nat →
  Forall (λ c, 0 ≤ pixelCount_ c) stats →
  total_pixelCount stats + 1 < ULONG_MODULUS →
  Forall (λ c, 0 ≤ pixelCount_ c) (alter bump i stats)
  ∧ total_pixelCount (alter bump i stats) = total_pixelCount stats + 1.
Proof.
  revert i. induction stats as [| c stats IH]; intros [| i] Hi Hpos Hsmall;
    simpl in Hi; try lia.
  - apply Forall_cons in Hpos as [Hc Hpos].
    pose proof (total_pixelCount_nonneg _ Hpos) as Hrest.
    change (total_pixelCount (c :: stats))
      with (pixelCount_ c + total_pixelCount stats) in *.
    change (alter bump 0%nat (c :: stats)) with (bump c :: stats).
    change (total_pixelCount (bump c :: stats))
      with ((pixelCount_ c + 1) mod ULONG_MODULUS + total_pixelCount stats).
    rewrite Z.mod_small by lia. split; [| lia].
    apply Forall_cons. split; [| done]. simpl. rewrite Z.mod_small by lia. lia.
  - apply Forall_cons in Hpos as [Hc Hpos].
    change (total_pixelCount (c :: stats))
      with (pixelCount_ c + total_pixelCount stats) in *.
    change (alter bump (S i) (c :: stats)) with (c :: alter bump i stats).
    change (total_pixelCount (c :: alter bump i stats))
      with (pixelCount_ c + total_pixelCount (alter bump i stats)).
    destruct (IH i ltac:(lia) Hpos ltac:(lia)) as [Hpos' ->].
    split; [| lia]. by apply Forall_cons.
Qed.

Lemma label_at_insert a out c l :
  label_at a (<[(let '(u, v, w) := c in output_offset a u v w) := l]> out) c = Some l.
Proof. destruct c as [[u v] w]. apply lookup_insert_eq. Qed.

Lemma label_at_insert_ne a out c c' l :
  output_layout_ok a → in_vol a c → in_vol a c' → c ≠ c' →
  label_at a (<[(let '(u, v, w) := c in output_offset a u v w) := l]> out) c'
  = label_at a out c'.
Proof.
  intros Hok Hc Hc' Hne.
  assert ((let '(u, v, w) := c in output_offset a u v w)
          ≠ (let '(u, v, w) := c' in output_offset a u v w)) as Hoff.
  { intros Heq. by apply Hne, (output_offset_inj a). }
  destruct c as [[u v] w], c' as [[u' v'] w']. by apply lookup_insert_ne.
Qed.

Lemma set_label_wf f r l : wf f → wf (alter (set_label l) r f).
Proof.
  intros [Hac Hrv]. split.
  - intros x Hx. rewrite length_alter in Hx. destruct (Hac x Hx) as [s Hs].
    exists s. by apply root_of_alter_keep.
  - by apply ranks_valid_alter.
Qed.

Lemma filter_snoc_fg a pre c :
  is_fg a c → filter (is_fg a) (pre ++ [c]) = filter (is_fg a) pre ++ [c].
Proof. intros Hc. rewrite filter_app, filter_cons_True by done. done. Qed.

Lemma filter_snoc_bg a pre c :
  ¬ is_fg a c → filter (is_fg a) (pre ++ [c]) = filter (is_fg a) pre.
Proof.
  intros Hc. rewrite filter_app, filter_cons_False by done.
  by rewrite filter_nil, app_nil_r.
Qed.

Lemma resolve_at_step a fs pre c suf st st' :
  voxels a = pre ++ c :: suf →
  resolved a fs pre st → resolve_at a c st = Ok st' →
  resolved a fs (pre ++ [c]) st'.
Proof.
  intros Hvox Hinv Hstep.
  assert (in_vol a c) as Hc.
  { apply elem_of_voxels. rewrite Hvox. apply elem_of_app. right. apply list_elem_of_here. }
  assert (∀ c', c' ∈ pre → in_vol a c' ∧ c ≠ c') as Hpre.
  { intros c' Hc'. split.
    - apply elem_of_voxels. rewrite Hvox. apply elem_of_app. by left.
    - intros <-. pose proof (NoDup_voxels a) as Hnd. rewrite Hvox in Hnd.
      apply NoDup_app in Hnd as (_ & Hnd & _). apply (Hnd c Hc'), list_elem_of_here. }
  destruct st as [[f stats] out].
  destruct Hinv as (Hwf & Hlen & Hroots & Hrange & Hinj & Hcnt & Htot & Hout).
  assert (length (filter (is_fg a) pre) < length (voxels a))%nat as Hroom.
  { pose proof (length_filter (is_fg a) pre). rewrite Hvox, length_app. simpl. lia. }
  destruct c as [[u v] w]. unfold resolve_at, resolve_voxel in Hstep.
  destruct (foreground a u v w) eqn:Hfg.
  2:{ (* a background voxel *)
    apply foreground_false in Hfg. simplify_eq. unfold resolved.
    rewrite (filter_snoc_bg _ _ _ Hfg).
    do 7 (split; [done |]). intros Hok. destruct (Hout Hok) as [Hfgs Hbgs]. split.
    - intros c' [Hc' | ->%list_elem_of_singleton]%elem_of_app Hfg'; [| done].
      destruct (Hpre c' Hc') as [Hv Hne].
      destruct (Hfgs c' Hc' Hfg') as (r & nr & ? & ? & ? & ?).
      exists r, nr. rewrite (label_at_insert_ne a out (u, v, w) c') by done. done.
    - intros c' [Hc' | ->%list_elem_of_singleton]%elem_of_app Hfg'.
      + destruct (Hpre c' Hc') as [Hv Hne].
        rewrite (label_at_insert_ne a out (u, v, w) c') by done. by apply Hbgs.
      + apply (label_at_insert a out (u, v, w)). }
  (* a foreground voxel *)
  apply foreground_spec in Hfg.
  destruct (find f (node_index a u v w)) as [[f1 r] |] eqn:Hfind; [| done].
  destruct (find_Some _ _ _ _ Hfind) as [Hr Hc1].
  pose proof (compressed_wf _ _ _ _ Hr Hc1 Hwf) as Hwf1.
  assert (length f1 = length fs) as Hlen1 by (destruct Hc1 as [-> _]; done).
  assert (∀ x s, root_of f1 x s ↔ root_of fs x s) as Hroots1.
  { intros x s. by rewrite <- (compressed_root_of _ _ _ _ _ _ Hr Hc1). }
  assert (root_of f1 (node_index a u v w) r) as Hr1.
  { by apply (compressed_root_of _ _ _ _ _ _ Hr Hc1). }
  destruct (f1 !! r) as [nr |] eqn:Hnr; [| done].
  assert (∀ x nd, f1 !! x = Some nd → hasLabel_ nd = true →
            1 ≤ label_ nd ≤ Z.of_nat (length stats)) as Hrange1.
  { intros x nd Hx Hl.
    destruct (compressed_fields _ _ _ _ _ _ Hc1 Hx) as (n0 & Hx0 & _ & Hl0 & Hv0).
    rewrite Hv0. apply (Hrange x n0); congruence. }
  assert (∀ x y nx ny, f1 !! x = Some nx → f1 !! y = Some ny →
            hasLabel_ nx = true → hasLabel_ ny = true →
            label_ nx = label_ ny → x = y) as Hinj1.
  { intros x y nx ny Hx Hy Hlx Hly Heq.
    destruct (compressed_fields _ _ _ _ _ _ Hc1 Hx) as (nx0 & Hx0 & _ & Hlx0 & Hvx0).
    destruct (compressed_fields _ _ _ _ _ _ Hc1 Hy) as (ny0 & Hy0 & _ & Hly0 & Hvy0).
    apply (Hinj x y nx0 ny0); congruence. }
  assert (output_layout_ok a → ∀ c', c' ∈ pre → is_fg a c' →
            ∃ r' nr', root_of f1 (index_of a c') r' ∧ f1 !! r' = Some nr'
                      ∧ hasLabel_ nr' = true ∧ label_at a out c' = Some (label_ nr'))
    as Hfgs1.
  { intros Hok c' Hc' Hfg'. destruct (Hout Hok) as [Hfgs _].
    destruct (Hfgs c' Hc' Hfg') as (r' & nr' & Hr' & Hn' & Hl' & Ho').
    destruct (compressed_fields_fwd _ _ _ _ _ _ Hc1 Hn') as (n1 & Hn1 & _ & Hl1 & Hv1).
    exists r', n1. split; [by apply (compressed_root_of _ _ _ _ _ _ Hr Hc1) |].
    split; [done |]. split; [congruence |]. by rewrite Hv1. }
  destruct (hasLabel_ nr) eqn:Hhas.
  - (* the root has a label *)
    simplify_eq. pose proof (Hrange1 _ _ Hnr Hhas) as Hlr.
    unfold resolved. rewrite (filter_snoc_fg _ _ _ Hfg), length_app. simpl.
    split; [done |]. split; [done |]. split; [done |].
    split. { intros x nd Hx Hl. rewrite length_alter. by eapply Hrange1. }
    split; [done |].
    split. { rewrite length_alter. lia. }
    split.
    { intros Hsmall. destruct (Htot Hsmall) as [Hpos Hsum].
      destruct (total_pixelCount_bump stats (Z.to_nat (label_ nr - 1)))
        as [Hpos' ->]; [lia | done | lia |].
      split; [done | lia]. }
    intros Hok. destruct (Hout Hok) as [_ Hbgs]. split.
    + intros c' [Hc' | ->%list_elem_of_singleton]%elem_of_app Hfg'.
      * destruct (Hpre c' Hc') as [Hv Hne].
        rewrite (label_at_insert_ne a out (u, v, w) c') by done. by apply Hfgs1.
      * exists r, nr. split; [done |]. split; [done |]. split; [done |].
        apply (label_at_insert a out (u, v, w)).
    + intros c' [Hc' | ->%list_elem_of_singleton]%elem_of_app Hfg'; [| done].
      destruct (Hpre c' Hc') as [Hv Hne].
      rewrite (label_at_insert_ne a out (u, v, w) c') by done. by apply Hbgs.
  - (* the root gets the next label *)
    destruct (Z.ltb_spec (maxU a) (Z.of_nat (length stats) + 1)); [done |].
    simplify_eq.
    assert (r < length f1)%nat as Hrlt by (by eapply lookup_lt_Some).
    unfold resolved. rewrite (filter_snoc_fg _ _ _ Hfg), length_app. simpl.
    split; [by apply set_label_wf |]. split; [by rewrite length_alter |].
    split. { intros x s. by rewrite root_of_alter_keep. }
    split.
    { intros x nd Hx Hl. rewrite length_alter, length_app. simpl.
      destruct (decide (x = r)) as [-> | Hne].
      - rewrite list_lookup_alter_eq, Hnr in Hx. simplify_eq/=. lia.
      - rewrite list_lookup_alter_ne in Hx by done.
        pose proof (Hrange1 _ _ Hx Hl). lia. }
    split.
    { intros x y nx ny Hx Hy Hlx Hly Heq.
      destruct (decide (x = r)) as [-> | Hxr], (decide (y = r)) as [-> | Hyr]; [done | | |].
      - rewrite list_lookup_alter_eq, Hnr in Hx. simplify_eq/=.
        rewrite list_lookup_alter_ne in Hy by done.
        pose proof (Hrange1 _ _ Hy Hly). lia.
      - rewrite list_lookup_alter_eq, Hnr in Hy. simplify_eq/=.
        rewrite list_lookup_alter_ne in Hx by done.
        pose proof (Hrange1 _ _ Hx Hlx). lia.
      - rewrite list_lookup_alter_ne in Hx, Hy by done. by eapply Hinj1. }
    split. { rewrite length_alter, length_app. simpl. lia. }
    split.
    { intros Hsmall. destruct (Htot Hsmall) as [Hpos Hsum].
      assert (total_pixelCount (stats ++ [mkStats 0 (voxel a u v w)])
              = total_pixelCount stats) as Hsum'.
      { rewrite total_pixelCount_app.
        change (total_pixelCount [mkStats 0 (voxel a u v w)]) with (0 + 0). lia. }
      destruct (total_pixelCount_bump (stats ++ [mkStats 0 (voxel a u v w)])
                  (Z.to_nat (Z.of_nat (length stats) + 1 - 1)))
        as [Hpos' ->].
      - rewrite length_app. simpl. lia.
      - apply Forall_app. split; [done |]. by apply Forall_singleton.
      - lia.
      - split; [done | lia]. }
    intros Hok. destruct (Hout Hok) as [_ Hbgs]. split.
    + intros c' [Hc' | ->%list_elem_of_singleton]%elem_of_app Hfg'.
      * destruct (Hpre c' Hc') as [Hv Hne].
        rewrite (label_at_insert_ne a out (u, v, w) c') by done.
        destruct (Hfgs1 Hok c' Hc' Hfg') as (r' & nr' & Hr' & Hn' & Hl' & Ho').
        assert (r' ≠ r) as Hne' by (intros ->; congruence).
        exists r', nr'. split; [by apply root_of_alter_keep |].
        split; [by rewrite list_lookup_alter_ne |]. done.
      * exists r, (set_label (Z.of_nat (length stats) + 1) nr).
        split; [by apply root_of_alter_keep |].
        split; [by rewrite list_lookup_alter_eq, Hnr |]. split; [done |].
        apply (label_at_insert a out (u, v, w)).
    + intros c' [Hc' | ->%list_elem_of_singleton]%elem_of_app Hfg'; [| done].
      destruct (Hpre c' Hc') as [Hv Hne].
      rewrite (label_at_insert_ne a out (u, v, w) c') by done. by apply Hbgs.
Qed.

(** ** The labeller as a whole *)

(** What a returning call has computed: the forest [fs] of the scan, whose
    components are the face-connected sets of foreground voxels, and the
    final state of the resolution pass on it. *)
Lemma labeller_spec a stats out :
  findConnectedComponents3d a = Ok (stats, out) →
  ∃ fs f,
    wf fs
    ∧ length fs = Z.to_nat (width a * height a * depth a)
    ∧ (∀ x y, (x < length fs)%nat →
         same fs x y ↔ rtsc (λ x y, (x, y) ∈ scan_edges a) x y)
    ∧ resolved a fs (voxels a) (f, stats, out).
Proof.
  unfold findConnectedComponents3d. intros H.
  apply rbind_Ok_inv in H as (f0 & [Hn ->]%allocate_Ok & H).
  apply rbind_Ok_inv in H as (fs & Hscan & H).
  apply rbind_Ok_inv in H as ([[f stats'] out'] & Hres & H). simplify_eq.
  destruct (scan_cases a (replicate (Z.to_nat (width a * height a * depth a))
                            default_Set)) as [Hu | Hu];
    rewrite Hu in Hscan; [done |].
  destruct (unite_list_init _ _ _ Hscan) as (Hwf & Hlen & Hlab & Hsame).
  exists fs, f. split; [done |]. split; [done |].
  split; [by rewrite Hlen |].
  rewrite resolve_for_each in Hres.
  apply (for_each_inv (resolved a fs) _ _ _ _) in Hres; [done | |].
  - split; [done |]. split; [done |]. split; [done |].
    assert (∀ x nd, fs !! x = Some nd → hasLabel_ nd = false) as Hno.
    { intros x nd Hx.
      assert ((label_state <$> fs) !! x = Some (label_state nd)) as Hx'
        by (by rewrite list_lookup_fmap, Hx).
      rewrite Hlab in Hx'. apply lookup_replicate in Hx' as [Hx' _].
      unfold label_state in Hx'. by simplify_eq. }
    split. { intros x nd Hx Hl. rewrite (Hno _ _ Hx) in Hl. done. }
    split. { intros x y nx ny Hx _ Hl. rewrite (Hno _ _ Hx) in Hl. done. }
    split; [done |]. split; [done |].
    intros _. split; intros c Hc; by apply elem_of_nil in Hc.
  - intros pre c suf t t' Hvox Hinv Hstep. by eapply resolve_at_step.
Qed.

(** C1 — component maximality.  On a returning call whose output rows and
    slices do not overlap, two foreground voxels of the volume get the same
    label in the output buffer if a path of face-adjacent foreground voxels
    connects them, and different labels if none does. *)
Theorem face_connected_iff_same_label
    (a : Args) (stats : list ComponentStatistics) (out : gmap Z Z) (c1 c2 : coord) :
  findConnectedComponents3d a = Ok (stats, out) →
  output_layout_ok a →
  in_vol a c1 → in_vol a c2 → is_fg a c1 → is_fg a c2 →
  ∃ l1 l2,
    label_at a out c1 = Some l1 ∧ label_at a out c2 = Some l2
    ∧ (connected a c1 c2 → l1 = l2)
    ∧ (¬ connected a c1 c2 → l1 ≠ l2).
Proof.
  intros Hrun Hok Hv1 Hv2 Hfg1 Hfg2.
  destruct (labeller_spec _ _ _ Hrun) as (fs & f & Hwfs & Hlens & Hsame & Hres).
  destruct Hres as (Hwf & Hlen & Hroots & Hrange & Hinj & _ & _ & Hout).
  destruct (Hout Hok) as [Hfgs _].
  destruct (Hfgs c1 (proj2 (elem_of_voxels a c1) Hv1) Hfg1)
    as (r1 & n1 & Hr1 & Hn1 & Hl1 & Ho1).
  destruct (Hfgs c2 (proj2 (elem_of_voxels a c2) Hv2) Hfg2)
    as (r2 & n2 & Hr2 & Hn2 & Hl2 & Ho2).
  exists (label_ n1), (label_ n2). split; [done |]. split; [done |].
  assert (connected a c1 c2 ↔ r1 = r2) as Hconn.
  { rewrite <- (scan_edges_connected a c1 c2 Hv1 Hv2).
    rewrite <- Hsame by (rewrite Hlens; by apply index_of_lt).
    apply Hroots in Hr1, Hr2. split.
    - intros (r & H1 & H2).
      by rewrite (root_of_det _ _ _ _ Hr1 H1), (root_of_det _ _ _ _ Hr2 H2).
    - intros ->. by exists r2. }
  split.
  - intros ->%Hconn. congruence.
  - intros Hnc Heq. apply Hnc, Hconn. by eapply Hinj.
Qed.

Lemma face_connected_iff_same_label_witness :
  ∃ l1 l2,
    label_at row_5_5_0 {[0 := 1; 1 := 1; 2 := 0]} (0, 0, 0) = Some l1
    ∧ label_at row_5_5_0 {[0 := 1; 1 := 1; 2 := 0]} (1, 0, 0) = Some l2
    ∧ (connected row_5_5_0 (0, 0, 0) (1, 0, 0) → l1 = l2)
    ∧ (¬ connected row_5_5_0 (0, 0, 0) (1, 0, 0) → l1 ≠ l2).
Proof.
  apply (face_connected_iff_same_label row_5_5_0 [mkStats 2 5]).
  - vm_compute. reflexivity.
  - unfold output_layout_ok. simpl. lia.
  - unfold in_vol. simpl. lia.
  - unfold in_vol. simpl. lia.
  - unfold is_fg, voxel. simpl. lia.
  - unfold is_fg, voxel. simpl. lia.
Defined.

Lemma background_foreground_length a :
  (length (filter (is_fg a) (voxels a))
   + length (filter (λ c, ¬ is_fg a c) (voxels a)))%nat
  = length (voxels a).
Proof.
  rewrite <- length_app. apply Permutation_length, filter_app_complement.
Qed.

(** C7 — conservation.  On a returning call on a volume of non-negative
    dimensions whose voxel count the counter type can hold, the pixel counts
    of the returned records and the number of background voxels add up to
    [width*height*depth]; a volume without a foreground voxel yields no
    record. *)
Theorem pixel_counts_conserved
    (a : Args) (stats : list ComponentStatistics) (out : gmap Z Z) :
  0 ≤ width a → 0 ≤ height a → 0 ≤ depth a →
  width a * height a * depth a < ULONG_MODULUS →
  findConnectedComponents3d a = Ok (stats, out) →
  total_pixelCount stats + background_count a = width a * height a * depth a
  ∧ ((∀ c, in_vol a c → ¬ is_fg a c) → stats = []).
Proof.
  intros Hw Hh Hd Hsmall Hrun.
  destruct (labeller_spec _ _ _ Hrun) as (fs & f & _ & _ & _ & Hres).
  destruct Hres as (_ & _ & _ & _ & _ & Hcnt & Htot & _).
  assert (Z.of_nat (length (voxels a)) = width a * height a * depth a) as Hvox.
  { rewrite length_voxels. nia. }
  split.
  - destruct Htot as [_ Htot]; [lia |].
    rewrite Htot. unfold background_count.
    pose proof (background_foreground_length a) as Hsum. lia.
  - intros Hbg. apply length_zero_iff_nil.
    assert (filter (is_fg a) (voxels a) = []) as Hnil.
    { apply elem_of_nil_inv. intros c [Hc Hin%elem_of_voxels]%list_elem_of_filter.
      by apply (Hbg c). }
    rewrite Hnil in Hcnt. simpl in Hcnt. lia.
Qed.

Lemma pixel_counts_conserved_witness :
  total_pixelCount [mkStats 1 5; mkStats 1 5] + background_count row_5_0_5
  = 3 * 1 * 1.
Proof.
  refine (proj1 (pixel_counts_conserved row_5_0_5 [mkStats 1 5; mkStats 1 5]
                   {[0 := 1; 1 := 0; 2 := 2]} _ _ _ _ _)).
  - simpl. lia.
  - simpl. lia.
  - simpl. lia.
  - vm_compute. reflexivity.
  - vm_compute. reflexivity.
Defined.

(** ** Union by rank keeps the trees heavy *)

Lemma relinked_root_inv f l w f' r :
  acyclic f → length f' = length f → relinked f l w f' →
  root_of f w w → l ≠ w →
  root_of f' r r → root_of f r r ∧ r ≠ l.
Proof.
  intros Hac Hlen Hrel Hw Hne Hr.
  pose proof (root_of_lt _ _ _ Hr) as Hlt. rewrite Hlen in Hlt.
  destruct (Hac r Hlt) as [s Hs].
  pose proof (root_of_det _ _ _ _ Hr (Hrel _ _ Hs)) as Heq.
  destruct (decide (s = l)) as [-> | Hsl].
  - subst r. pose proof (root_of_det _ _ _ _ Hs Hw). congruence.
  - by subst r.
Qed.

Lemma heavy_same_trees f f' :
  (∀ x r, root_of f' x r ↔ root_of f x r) → (∀ x, rank_of f' x = rank_of f x) →
  heavy f → heavy f'.
Proof.
  intros Hroots Hranks Hh r Hr. apply Hroots in Hr.
  destruct (Hh r Hr) as (l & Hnd & Hl & Hsz).
  exists l. split; [done |]. split; [| by rewrite Hranks].
  intros x Hx. by apply Hroots, Hl.
Qed.

Lemma settled_heavy f f2 : settled f f2 → heavy f → heavy f2.
Proof.
  intros Hset. apply heavy_same_trees.
  - intros x r. symmetry. apply (settled_root_of _ _ _ _ Hset).
  - intros x. apply (settled_rank_of _ _ _ Hset).
Qed.

(** Attaching a root of lower or equal rank: the trees stay heavy, also when
    the rank of the surviving root grows by one over two equal ranks. *)
Lemma link_heavy f l w f' :
  acyclic f → length f' = length f →
  root_of f l l → root_of f w w → l ≠ w →
  relinked f l w f' →
  (∀ z, z ≠ w → rank_of f' z = rank_of f z) →
  (rank_of f' w = rank_of f w
   ∨ (rank_of f' w = rank_of f w + 1 ∧ rank_of f l = rank_of f w
      ∧ 0 ≤ rank_of f w)) →
  heavy f → heavy f'.
Proof.
  intros Hac Hlen Hl Hw Hne Hrel Hother Hrank Hh r Hr.
  destruct (relinked_root_inv _ _ _ _ _ Hac Hlen Hrel Hw Hne Hr) as [Hr0 Hrl].
  destruct (Hh r Hr0) as (lr & Hnd & Hin & Hsz).
  assert (∀ x, x ∈ lr → root_of f' x r) as Hin'.
  { intros x Hx. pose proof (Hrel _ _ (Hin x Hx)) as Hx'.
    by destruct (decide (r = l)). }
  destruct (decide (r = w)) as [-> | Hrw].
  2:{ exists lr. split; [done |]. split; [done |]. by rewrite Hother. }
  destruct Hrank as [Hsame | (Hup & Heq & Hpos)].
  { exists lr. split; [done |]. split; [done |]. by rewrite Hsame. }
  destruct (Hh l Hl) as (ll & Hndl & Hinl & Hszl).
  exists (lr ++ ll). split; [| split].
  - apply NoDup_app. split; [done |]. split; [| done].
    intros x Hx Hx'. apply Hne.
    exact (root_of_det _ _ _ _ (Hinl x Hx') (Hin x Hx)).
  - intros x [Hx | Hx]%elem_of_app; [by apply Hin' |].
    pose proof (Hrel _ _ (Hinl x Hx)) as Hx'. by destruct (decide (l = l)).
  - rewrite Hup, length_app, Nat2Z.inj_add, Z.pow_add_r, Z.pow_1_r by lia.
    rewrite Heq in Hszl. lia.
Qed.

Lemma linked_heavy f2 xr yr f' st :
  wf f2 → root_of f2 xr xr → root_of f2 yr yr →
  linked f2 xr yr (rank_of f2 xr) (rank_of f2 yr) f' st →
  heavy f2 → heavy f'.
Proof.
  intros [Hac Hrv] Hx Hy Hl Hh.
  pose proof (root_of_lt _ _ _ Hx) as Hxlt.
  inversion Hl as [Hgt | Hlt | Heq Hne Hmax | Heq Hne Hmax | Heq Hsame]; subst.
  - assert (yr ≠ xr) as Hne by (intros ->; lia).
    eapply (link_heavy f2 yr xr); try done.
    + by rewrite length_alter.
    + by apply link_relinked.
    + intros z _. by rewrite rank_of_alter_keep.
    + left. by rewrite rank_of_alter_keep.
  - assert (xr ≠ yr) as Hne by (intros ->; lia).
    eapply (link_heavy f2 xr yr); try done.
    + by rewrite length_alter.
    + by apply link_relinked.
    + intros z _. by rewrite rank_of_alter_keep.
    + left. by rewrite rank_of_alter_keep.
  - pose proof (rank_of_bounds f2 xr Hrv) as Hb.
    assert (yr ≠ xr) as Hne' by (by apply not_eq_sym).
    eapply (link_heavy f2 yr xr); try done.
    + by rewrite !length_alter.
    + intros z s Hs. apply root_of_alter_keep; [done |].
      by apply link_relinked.
    + intros z Hz. rewrite rank_of_alter_ne by done. by rewrite rank_of_alter_keep.
    + right. split; [| split; [done | lia]].
      rewrite rank_of_alter_incr by (by rewrite length_alter).
      rewrite rank_of_alter_keep by done.
      apply Z.mod_small. unfold RANK_MAX, RANK_MODULUS in *. lia.
  - assert (yr ≠ xr) as Hne' by (by apply not_eq_sym).
    eapply (link_heavy f2 yr xr); try done.
    + by rewrite length_alter.
    + by apply link_relinked.
    + intros z _. by rewrite rank_of_alter_keep.
    + left. by rewrite rank_of_alter_keep.
  - done.
Qed.

Lemma init_heavy n : heavy (replicate n default_Set).
Proof.
  intros r Hr. exists [r]. split; [apply NoDup_singleton |].
  split; [by intros x ->%list_elem_of_singleton |].
  pose proof (root_of_lt _ _ _ Hr) as Hlt. rewrite length_replicate in Hlt.
  unfold rank_of. rewrite lookup_replicate_2 by done. simpl. lia.
Qed.

Lemma unite_heavy f x y f' st :
  unite f x y = Some (f', st) → wf f → heavy f → heavy f'.
Proof.
  intros Hu Hwf Hh.
  destruct (unite_inv _ _ _ _ _ Hu) as (f2 & xr & yr & Hx & Hy & Hset & Hl).
  rewrite <- !(settled_rank_of _ _ _ Hset) in Hl.
  eapply linked_heavy; [| | | exact Hl |].
  - by apply (settled_wf _ _ Hset).
  - apply (settled_root_of _ _ _ _ Hset). by eapply root_of_root.
  - apply (settled_root_of _ _ _ _ Hset). by eapply root_of_root.
  - by apply (settled_heavy _ _ Hset).
Qed.

Lemma reachable_heavy n f : reachable n f → heavy f.
Proof.
  induction 1 as [| f x f' r Hreach IH Hfind | f x y f' Hreach IH Hu].
  - apply init_heavy.
  - by apply (settled_heavy _ _ (find_settled _ _ _ _ Hfind)).
  - eapply unite_heavy; [exact Hu | | done].
    apply (reachable_inv _ _ Hreach).
Qed.

Lemma tree_nodes_bound f r (l : list nat) :
  NoDup l → (∀ x, x ∈ l → root_of f x r) → (length l ≤ length f)%nat.
Proof.
  intros Hnd Hl.
  assert (l ⊆+ seq 0 (length f)) as Hsub.
  { apply NoDup_submseteq; [done |]. intros x Hx. apply elem_of_seq.
    pose proof (root_of_lt _ _ _ (Hl x Hx)). lia. }
  apply submseteq_length in Hsub. by rewrite length_seq in Hsub.
Qed.

Lemma reachable_rank_bound n f x :
  reachable n f → (x < n)%nat → 2 ^ rank_of f x ≤ Z.of_nat n.
Proof.
  intros Hreach Hx.
  destruct (reachable_inv _ _ Hreach) as ([Hac Hrv] & Hrk & Hlen).
  destruct (Hac x ltac:(lia)) as (r & d & Hw).
  destruct (ranked_walk _ _ _ _ Hrk Hw) as [Hle _].
  pose proof (reachable_heavy _ _ Hreach r (root_of_root _ _ _ (ex_intro _ d Hw)))
    as (l & Hnd & Hl & Hsz).
  pose proof (tree_nodes_bound _ _ _ Hnd Hl) as Hlen'.
  pose proof (rank_of_bounds f x Hrv) as Hb.
  pose proof (Z.pow_le_mono_r 2 (rank_of f x) (rank_of f r)). lia.
Qed.

(** ** The call returns or throws *)

Lemma unite_list_returns es f :
  wf f → (∀ e, e ∈ es → (e.1 < length f)%nat ∧ (e.2 < length f)%nat) →
  unite_list es f ≠ NoReturn.
Proof.
  revert f. induction es as [| [e1 e2] es IH]; intros f Hwf Hes; [done |].
  unfold unite_list. simpl.
  destruct (Hes (e1, e2) (list_elem_of_here _ _)) as [H1 H2]. simpl in H1, H2.
  destruct (proj1 Hwf e1 H1) as [r1 Hr1]. destruct (proj1 Hwf e2 H2) as [r2 Hr2].
  destruct (unite_total _ _ _ _ _ Hr1 Hr2) as (f' & st & Hu).
  unfold unite_result. rewrite Hu. destruct st; [| done]. simpl.
  apply IH; [by eapply unite_wf |].
  intros e He. rewrite (unite_length _ _ _ _ _ Hu).
  apply Hes. by apply list_elem_of_further.
Qed.

Lemma for_each_returns {A S} (J : S → Prop) (l : list A) (body : A → S → result S) s :
  J s →
  (∀ x t, x ∈ l → J t → body x t ≠ NoReturn ∧ ∀ t', body x t = Ok t' → J t') →
  for_each l body s ≠ NoReturn.
Proof.
  revert s. induction l as [| x l IH]; intros s Hs Hbody; [done |].
  simpl. destruct (Hbody x s (list_elem_of_here _ _) Hs) as [Hret Hkeep].
  destruct (body x s) as [t | | | | | |] eqn:Hx; try done. simpl.
  apply IH; [by apply Hkeep |].
  intros y t' Hy. apply Hbody. by apply list_elem_of_further.
Qed.

Lemma resolve_at_returns a c f stats out :
  wf f → in_vol a c →
  length f = Z.to_nat (width a * height a * depth a) →
  resolve_at a c (f, stats, out) ≠ NoReturn
  ∧ ∀ f' stats' out', resolve_at a c (f, stats, out) = Ok (f', stats', out') →
      wf f' ∧ length f' = length f.
Proof.
  intros Hwf Hc Hlen. destruct c as [[u v] w]. unfold resolve_at, resolve_voxel.
  destruct (foreground a u v w); [| split; [done | by intros ??? [= <- _ _]]].
  pose proof (index_of_lt a (u, v, w) Hc) as Hlt. simpl in Hlt.
  destruct (proj1 Hwf (node_index a u v w) ltac:(lia)) as [r Hr].
  destruct (find_fuel_enough _ _ _ Hr) as (f1 & -> & Hc1).
  pose proof (compressed_wf _ _ _ _ Hr Hc1 Hwf) as Hwf1.
  assert (length f1 = length f) as Hlen1 by apply Hc1.
  assert (root_of f1 (node_index a u v w) r) as Hr1.
  { by apply (compressed_root_of _ _ _ _ _ _ Hr Hc1). }
  destruct (root_of_is_root _ _ _ Hr1) as (nr & -> & _).
  destruct (hasLabel_ nr).
  - split; [done |]. by intros ??? [= <- _ _].
  - destruct (maxU a <? Z.of_nat (length stats) + 1); [done |].
    split; [done |]. intros ??? [= <- _ _].
    split; [by apply set_label_wf | by rewrite length_alter].
Qed.

(** The fuel of [find] never runs out inside the labeller: a call returns
    its result or throws. *)
Lemma findConnectedComponents3d_returns a : findConnectedComponents3d a ≠ NoReturn.
Proof.
  unfold findConnectedComponents3d.
  destruct (allocate a) as [f0 | | | | | |] eqn:Halloc; try done.
  2:{ by destruct (allocate_returns a). }
  apply allocate_Ok in Halloc as [Hn ->]. simpl.
  destruct (scan_cases a (replicate (Z.to_nat (width a * height a * depth a))
                            default_Set)) as [-> | ->]; [done |].
  destruct (unite_list _ _) as [fs | | | | | |] eqn:Hscan; try done.
  2:{ intros _.
      eapply unite_list_returns; [apply init_wf | | exact Hscan].
      intros [x y] (c & c' & Hp & -> & ->)%elem_of_scan_edges.
      rewrite length_replicate. split; apply index_of_lt; apply Hp. }
  simpl.
  destruct (unite_list_init _ _ _ Hscan) as (Hwfs & Hlens & _).
  destruct (resolve a _) as [[[f stats] out] | | | | | |] eqn:Hres; try done.
  intros _. rewrite resolve_for_each in Hres.
  eapply (for_each_returns
            (λ st : resolution,
               wf st.1.1 ∧ length st.1.1 = Z.to_nat (width a * height a * depth a)));
    [| | exact Hres]; [done |].
  intros c [[f stats] out] Hc%elem_of_voxels [Hwf Hlen]. simpl in Hwf, Hlen.
  destruct (resolve_at_returns a c f stats out Hwf Hc Hlen) as [Hret Hkeep].
  split; [done |]. intros [[f' stats'] out'] Hstep.
  destruct (Hkeep _ _ _ Hstep) as [? ?]. simpl. split; [done | congruence].
Qed.

(** ** Call entry *)

(** A loop that fails has failed in its body. *)
Lemma for_each_fails {A S} (l : list A) (body : A → S → result S) s :
  (∃ s', for_each l body s = Ok s') ∨ ∃ x t, for_each l body s = body x t.
Proof.
  revert s. induction l as [| x l IH]; intros s; [left; by exists s |].
  simpl. destruct (body x s) as [t | | | | | |] eqn:Hx;
    try (right; exists x, s; by rewrite Hx).
  simpl. apply IH.
Qed.

Lemma for_each_progress {A S} (I : list A → S → Prop) (l : list A)
    (body : A → S → result S) s :
  I [] s →
  (∀ pre x suf t, l = pre ++ x :: suf → I pre t →
     ∃ t', body x t = Ok t' ∧ I (pre ++ [x]) t') →
  ∃ s', for_each l body s = Ok s' ∧ I l s'.
Proof.
  intros Hinit Hstep.
  assert (∀ suf pre t, l = pre ++ suf → I pre t →
            ∃ s', for_each suf body t = Ok s' ∧ I l s') as Hgen.
  { induction suf as [| x suf IH]; intros pre t Hl Hpre.
    - exists t. split; [done |]. by rewrite Hl, app_nil_r.
    - destruct (Hstep pre x suf t Hl Hpre) as (t' & Hx & Ht').
      destruct (IH (pre ++ [x]) t') as (s' & Hrun & Hs');
        [by rewrite <- app_assoc | done |].
      exists s'. split; [| done]. simpl. by rewrite Hx. }
  by apply (Hgen l [] s).
Qed.

(** The rank counter cannot overflow in a forest of as many nodes as an
    [int] can count. *)
Lemma int_below_rank_cap n : n ≤ INT_MAX → n < 2 ^ RANK_MAX.
Proof.
  intros Hn.
  pose proof (Z.pow_le_mono_r 2 31 RANK_MAX ltac:(lia) ltac:(unfold RANK_MAX; lia))
    as H.
  change (2 ^ 31) with 2147483648 in H. unfold INT_MAX in Hn. lia.
Qed.

Lemma reachable_unite_returns n f x y :
  reachable n f → Z.of_nat n < 2 ^ RANK_MAX → (x < n)%nat → (y < n)%nat →
  ∃ f', unite f x y = Some (f', UniteDone) ∧ reachable n f'.
Proof.
  intros Hreach Hn Hx Hy.
  destruct (reachable_inv _ _ Hreach) as ([Hac Hrv] & Hrk & Hlen).
  destruct (Hac x ltac:(lia)) as [xr Hxr]. destruct (Hac y ltac:(lia)) as [yr Hyr].
  destruct (unite_total _ _ _ _ _ Hxr Hyr) as (f' & st & Hu).
  assert (st = UniteDone) as ->.
  { destruct st; [done | exfalso].
    destruct (unite_inv _ _ _ _ _ Hu) as (f2 & xr' & yr' & Hx' & Hy' & _ & Hl).
    apply linked_overflow_iff in Hl. destruct (proj1 Hl eq_refl) as (_ & _ & Hmax).
    pose proof (root_of_lt _ _ _ (root_of_root _ _ _ Hx')) as Hlt.
    pose proof (reachable_rank_bound n f xr' Hreach ltac:(lia)) as Hb.
    rewrite Hmax in Hb. lia. }
  exists f'. split; [done |]. by eapply reachable_unite.
Qed.

Lemma unite_list_reachable n es f :
  reachable n f → Z.of_nat n < 2 ^ RANK_MAX →
  (∀ e, e ∈ es → (e.1 < n)%nat ∧ (e.2 < n)%nat) →
  ∃ f', unite_list es f = Ok f' ∧ reachable n f'.
Proof.
  revert f. induction es as [| [e1 e2] es IH]; intros f Hreach Hn Hes.
  - by exists f.
  - destruct (Hes (e1, e2) (list_elem_of_here _ _)) as [H1 H2]. simpl in H1, H2.
    destruct (reachable_unite_returns n f e1 e2 Hreach Hn H1 H2) as (f1 & Hu & Hr1).
    destruct (IH f1 Hr1 Hn) as (f' & Hrun & Hr').
    { intros e He. apply Hes. by apply list_elem_of_further. }
    exists f'. split; [| done].
    unfold unite_list. simpl. unfold unite_result. rewrite Hu. exact Hrun.
Qed.

(** The heads of the rows. *)
Lemma product_between x k m :
  0 ≤ x ≤ k → (0 ≤ x * m ≤ k * m) ∨ (k * m ≤ x * m ≤ 0).
Proof. intros Hx. destruct (Z.le_gt_cases 0 m); [left | right]; nia. Qed.

Lemma row_index_Ok a v w :
  INT_MIN ≤ width a * height a * depth a ≤ INT_MAX →
  0 ≤ v < height a → 0 ≤ w < depth a →
  row_index a v w = Ok (w * width a * height a + v * width a).
Proof.
  intros Hn Hv Hw. unfold row_index.
  set (W := width a) in *. set (H := height a) in *. set (D := depth a) in *.
  assert (W * H * D = W * H * (D - 1) + W * H) as E1 by lia.
  assert (W * H = W * (H - 1) + W) as E2 by lia.
  assert (INT_MIN ≤ w * W ≤ INT_MAX ∧ INT_MIN ≤ w * W * H ≤ INT_MAX
          ∧ INT_MIN ≤ v * W ≤ INT_MAX
          ∧ INT_MIN ≤ w * W * H + v * W ≤ INT_MAX) as (B1 & B2 & B3 & B4).
  { unfold INT_MIN, INT_MAX in *.
    destruct (Z.le_gt_cases 0 W).
    - assert (0 ≤ w * W ≤ (D - 1) * W) by nia.
      assert (0 ≤ w * W * H ≤ W * H * (D - 1)) by nia.
      assert (0 ≤ v * W ≤ W * (H - 1)) by nia.
      assert ((D - 1) * W ≤ W * H * (D - 1)) by nia.
      lia.
    - assert ((D - 1) * W ≤ w * W ≤ 0) by nia.
      assert (W * H * (D - 1) ≤ w * W * H ≤ 0) by nia.
      assert (W * (H - 1) ≤ v * W ≤ 0) by nia.
      assert (W * H * (D - 1) ≤ (D - 1) * W) by nia.
      lia. }
  rewrite (int_mul_in _ _ B1). simpl. rewrite (int_mul_in _ _ B2). simpl.
  rewrite (int_mul_in _ _ B3). simpl. by apply int_add_in.
Qed.

Lemma row_offset_Ok a v w :
  row_offsets_in_int a → 0 ≤ v < height a → 0 ≤ w < depth a →
  row_offset a v w = Ok (w * inputLeap a + v * inputStride a).
Proof.
  intros [HL HS] Hv Hw. unfold row_offset.
  destruct (product_between w (depth a - 1) (inputLeap a) ltac:(lia));
  destruct (product_between v (height a - 1) (inputStride a) ltac:(lia));
    rewrite !int_mul_in by (unfold INT_MIN, INT_MAX in *; lia); done.
Qed.

Lemma row_head_Ok a v w :
  INT_MIN ≤ width a * height a * depth a ≤ INT_MAX → row_offsets_in_int a →
  0 ≤ v < height a → 0 ≤ w < depth a → ∃ ps, row_head a v w = Ok ps.
Proof.
  intros Hn Hoff Hv Hw. unfold row_head.
  rewrite row_offset_Ok, row_index_Ok by done. simpl. eauto.
Qed.

(** The scan of a volume never fails: its forest has too few nodes for a
    rank to reach the largest value of the counter. *)
Lemma scan_returns a :
  INT_MIN ≤ width a * height a * depth a ≤ INT_MAX → row_offsets_in_int a →
  ∃ fs, scan a (replicate (Z.to_nat (width a * height a * depth a)) default_Set)
        = Ok fs
        ∧ unite_list (scan_edges a)
            (replicate (Z.to_nat (width a * height a * depth a)) default_Set)
          = Ok fs.
Proof.
  intros Hn Hoff.
  rewrite scan_unite_list by (intros v w Hv Hw; by apply row_head_Ok).
  destruct (unite_list_reachable (Z.to_nat (width a * height a * depth a))
              (scan_edges a) _ (reachable_init _)) as (fs & Hfs & _).
  - apply int_below_rank_cap. unfold INT_MAX in *. lia.
  - intros [x y] (c & c' & Hp & -> & ->)%elem_of_scan_edges.
    split; apply index_of_lt; apply Hp.
  - by exists fs.
Qed.

Lemma resolve_at_Ok a fs pre c suf st :
  voxels a = pre ++ c :: suf →
  length fs = Z.to_nat (width a * height a * depth a) →
  foreground_count a ≤ maxU a →
  resolved a fs pre st → ∃ st', resolve_at a c st = Ok st'.
Proof.
  intros Hvox Hlenfs Hfew Hres. destruct st as [[f stats] out].
  destruct Hres as (Hwf & Hlen & _ & _ & _ & Hcnt & _).
  assert (in_vol a c) as Hc.
  { apply elem_of_voxels. rewrite Hvox. apply elem_of_app. right.
    apply list_elem_of_here. }
  destruct c as [[u v] w]. unfold resolve_at, resolve_voxel.
  destruct (foreground a u v w) eqn:Hfg; [| eauto].
  pose proof (index_of_lt a (u, v, w) Hc) as Hlt. simpl in Hlt.
  destruct (proj1 Hwf (node_index a u v w) ltac:(lia)) as [r Hr].
  destruct (find_fuel_enough _ _ _ Hr) as (f1 & -> & Hc1).
  assert (root_of f1 (node_index a u v w) r) as Hr1.
  { by apply (compressed_root_of _ _ _ _ _ _ Hr Hc1). }
  destruct (root_of_is_root _ _ _ Hr1) as (nr & -> & _).
  destruct (hasLabel_ nr); [eauto |].
  destruct (Z.ltb_spec (maxU a) (Z.of_nat (length stats) + 1)); [| eauto].
  exfalso. unfold foreground_count in Hfew. rewrite Hvox in Hfew.
  rewrite filter_app, filter_cons_True, length_app in Hfew
    by (by apply foreground_spec).
  simpl in Hfew. lia.
Qed.

Lemma resolve_returns a fs :
  wf fs → length fs = Z.to_nat (width a * height a * depth a) →
  (∀ x nd, fs !! x = Some nd → hasLabel_ nd = false) →
  foreground_count a ≤ maxU a →
  ∃ f stats out, resolve a (fs, [], outputBuffer a) = Ok (f, stats, out).
Proof.
  intros Hwf Hlen Hno Hfew. rewrite resolve_for_each.
  destruct (for_each_progress (resolved a fs) (voxels a) (resolve_at a)
              (fs, [], outputBuffer a)) as ([[f stats] out] & Hrun & _).
  - split; [done |]. split; [done |]. split; [done |].
    split. { intros x nd Hx Hl. rewrite (Hno _ _ Hx) in Hl. done. }
    split. { intros x y nx ny Hx _ Hl. rewrite (Hno _ _ Hx) in Hl. done. }
    split; [done |]. split; [done |].
    intros _. split; intros c Hc; by apply elem_of_nil in Hc.
  - intros pre c suf t Hvox Hinv.
    destruct (resolve_at_Ok _ _ _ _ _ _ Hvox Hlen Hfew Hinv) as [t' Ht'].
    exists t'. split; [done |]. by eapply resolve_at_step.
  - eauto.
Qed.

(** Once the forest is allocated the call returns, runs out of label
    values, or runs into undefined behaviour at the head of a row. *)
Lemma labeller_ends a f0 :
  allocate a = Ok f0 →
  (∃ stats out, findConnectedComponents3d a = Ok (stats, out))
  ∨ findConnectedComponents3d a = LabelRangeOverflow
  ∨ findConnectedComponents3d a = Undefined.
Proof.
  intros Ha. pose proof (findConnectedComponents3d_returns a) as Hret.
  revert Hret. unfold findConnectedComponents3d. rewrite Ha. simpl.
  apply allocate_Ok in Ha as [Hn ->].
  destruct (scan_cases a (replicate (Z.to_nat (width a * height a * depth a))
                            default_Set)) as [-> | ->]; [by right; right |].
  destruct (unite_list_reachable (Z.to_nat (width a * height a * depth a))
              (scan_edges a) _ (reachable_init _)) as (fs & -> & _).
  { apply int_below_rank_cap. unfold INT_MAX in *. lia. }
  { intros [x y] (c & c' & Hp & -> & ->)%elem_of_scan_edges.
    split; apply index_of_lt; apply Hp. }
  simpl. intros Hret.
  destruct (for_each_fails (voxels a) (resolve_at a) (fs, [], outputBuffer a))
    as [[[[f stats] out] Hrun] | ([[u v] w] & [[f stats] out] & Hrun)];
    rewrite resolve_for_each in *; rewrite Hrun in *.
  - left. by exists stats, out.
  - unfold resolve_at, resolve_voxel in *.
    destruct (foreground a u v w); [| left; eauto].
    destruct (find f _) as [[f1 root] |]; [| done].
    destruct (f1 !! root) as [nr |]; [| done].
    destruct (hasLabel_ nr); [left; eauto |].
    destruct (maxU a <? _); [right; by left | left; eauto].
Qed.

(** Once the forest is allocated and the offsets of the rows are values
    of [int], the call returns, unless it runs out of label values. *)
Lemma labeller_past_entry a f0 :
  allocate a = Ok f0 → row_offsets_in_int a →
  ((∃ stats out, findConnectedComponents3d a = Ok (stats, out))
   ∨ findConnectedComponents3d a = LabelRangeOverflow)
  ∧ (foreground_count a ≤ maxU a →
     ∃ stats out, findConnectedComponents3d a = Ok (stats, out)).
Proof.
  intros Ha Hoff. pose proof (findConnectedComponents3d_returns a) as Hret.
  revert Hret. unfold findConnectedComponents3d. rewrite Ha. simpl.
  apply allocate_Ok in Ha as [Hn ->].
  destruct (scan_returns a Hn Hoff) as (fs & Hscan & Hlist). rewrite Hscan. simpl.
  intros Hret. split.
  - destruct (for_each_fails (voxels a) (resolve_at a) (fs, [], outputBuffer a))
      as [[[[f stats] out] Hrun] | ([[u v] w] & [[f stats] out] & Hrun)];
      rewrite resolve_for_each in *; rewrite Hrun in *.
    + left. by exists stats, out.
    + unfold resolve_at, resolve_voxel in *.
      destruct (foreground a u v w); [| left; eauto].
      destruct (find f _) as [[f1 root] |]; [| done].
      destruct (f1 !! root) as [nr |]; [| done].
      destruct (hasLabel_ nr); [left; eauto |].
      destruct (maxU a <? _); [by right | left; eauto].
  - intros Hfew.
    destruct (unite_list_init _ _ _ Hlist) as (Hwfs & Hlens & Hlab & _).
    destruct (resolve_returns a fs Hwfs Hlens) as (f & stats & out & ->); [| done |].
    + intros x nd Hx.
      assert ((label_state <$> fs) !! x = Some (label_state nd)) as Hx'
        by (by rewrite list_lookup_fmap, Hx).
      rewrite Hlab in Hx'. apply lookup_replicate in Hx' as [Hx' _].
      unfold label_state in Hx'. by simplify_eq.
    + by exists stats, out.
Qed.

Lemma scan_edges_background a :
  (∀ c, in_vol a c → ¬ is_fg a c) → scan_edges a = [].
Proof.
  intros Hbg. unfold scan_edges.
  assert (∀ l : list coord, (∀ c, c ∈ l → in_vol a c) → l ≫= voxel_edges a = [])
    as Hgen.
  { induction l as [| [[u v] w] l IH]; intros Hl; [done |].
    rewrite bind_cons, IH by (intros c Hc; by apply Hl, list_elem_of_further).
    rewrite app_nil_r. unfold voxel_edges.
    destruct (foreground a u v w) eqn:Hfg; [| done].
    exfalso. apply foreground_spec in Hfg.
    by apply (Hbg (u, v, w)); [apply Hl, list_elem_of_here |]. }
  apply Hgen. intros c. apply elem_of_voxels.
Qed.

Lemma resolve_background a f out :
  (∀ c, in_vol a c → ¬ is_fg a c) →
  ∃ out', resolve a (f, [], out) = Ok (f, [], out').
Proof.
  intros Hbg. rewrite resolve_for_each.
  assert (∀ (l : list coord) out0, (∀ c, c ∈ l → in_vol a c) →
            ∃ out', for_each l (resolve_at a) (f, [], out0) = Ok (f, [], out'))
    as Hgen.
  { induction l as [| [[u v] w] l IH]; intros out0 Hl; [by exists out0 |].
    change (for_each ((u, v, w) :: l) (resolve_at a) (f, [], out0))
      with (rbind (resolve_voxel a w v u (f, [], out0)) (for_each l (resolve_at a))).
    unfold resolve_voxel.
    destruct (foreground a u v w) eqn:Hfg.
    - exfalso. apply foreground_spec in Hfg.
      by apply (Hbg (u, v, w)); [apply Hl, list_elem_of_here |].
    - apply IH. intros c Hc. by apply Hl, list_elem_of_further. }
  apply Hgen. intros c. apply elem_of_voxels.
Qed.

Lemma labeller_background a f0 :
  allocate a = Ok f0 → row_offsets_in_int a →
  (∀ c, in_vol a c → ¬ is_fg a c) →
  ∃ out, findConnectedComponents3d a = Ok ([], out).
Proof.
  intros Ha Hoff Hbg. unfold findConnectedComponents3d. rewrite Ha. simpl.
  apply allocate_Ok in Ha as [Hn ->].
  rewrite scan_unite_list by (intros v w Hv Hw; by apply row_head_Ok).
  rewrite (scan_edges_background a Hbg). simpl.
  destruct (resolve_background a
              (replicate (Z.to_nat (width a * height a * depth a)) default_Set)
              (outputBuffer a) Hbg) as [out ->].
  by exists out.
Qed.

(** The claim C5 taken literally fails: calls that violate the preconditions
    are not reported, and their forest is allocated.  A volume with two sides
    of -1 and depth 1 gets its forest of one node and the call returns an
    empty statistics list; a 2×2×1 volume all of whose strides and leaps are
    zero, too small for its width and height, gets its forest of four nodes
    and is labelled without complaint. *)
Lemma precondition_violations_not_reported :
  (width negative_sides ≤ 0 ∧ height negative_sides ≤ 0
   ∧ allocate negative_sides = Ok (constructed_array 1)
   ∧ findConnectedComponents3d negative_sides = Ok ([], ∅))
  ∧ (inputStride strides_zero < width strides_zero * sizeofT strides_zero
     ∧ outputStride strides_zero < width strides_zero * sizeofU strides_zero
     ∧ allocate strides_zero = Ok (constructed_array 4)
     ∧ findConnectedComponents3d strides_zero
       = Ok ([mkStats 4 5], {[0 := 1; 1 := 1]})).
Proof.
  split.
  - split; [simpl; lia |]. split; [simpl; lia |]. split; vm_compute; reflexivity.
  - split; [simpl; lia |]. split; [simpl; lia |].
    split; vm_compute; reflexivity.
Qed.

Lemma decode_Set_zeros_base sizeofU base base' m :
  decode_Set sizeofU base (replicate m 0) = decode_Set sizeofU base' (replicate m 0).
Proof.
  unfold decode_Set. case_decide; [| done].
  destruct (field offset_rank 2 _) as [r |]; [| done]. simpl.
  destruct (field offset_hasLabel 1 _) as [h |]; [| done]. simpl.
  destruct (field (offset_label sizeofU) sizeofU _) as [l |]; [| done]. simpl.
  destruct (field (offset_parent sizeofU) POINTER_SIZE _) as [q |] eqn:Hq; [| done].
  apply field_zeros in Hq as ->. done.
Qed.

Lemma decode_array_zeros_base sizeofU base base' n m :
  decode_array sizeofU base n (replicate m 0)
  = decode_array sizeofU base' n (replicate m 0).
Proof.
  revert m. induction n as [| n IH]; intros m; [done |].
  rewrite !decode_array_S, !take_replicate, !drop_replicate.
  by rewrite (decode_Set_zeros_base _ base base'), IH.
Qed.

(** C5 (amended) — the function does not check its arguments.  Its first
    action is the allocation of the forest, whose outcome depends on
    [width], [height], [depth], [sizeof(U)] and the bytes the allocator
    grants, and on no buffer, stride or leap.  When the products
    [width*height] and [width*height*depth] are values of [int]: with a
    positive node count the forest of that many fresh roots is created if
    the allocator grants the bytes; the call then returns, runs out of label
    values, or runs into an overflow of [int] at the head of a row; when the
    row offsets [w*inputLeap] and [v*inputStride] are values of [int] it
    returns or runs out of label values, it returns when the volume has no
    more foreground voxels than [U] has values above zero, and it returns an
    empty list on a volume without foreground voxel; the vector constructor
    throws [std::bad_alloc] if the allocator does not grant the bytes, and
    [std::length_error] for a negative count; with a count of zero the
    address of the first byte of an empty vector is taken, which is
    undefined.  A product that is no value of [int] is undefined.  The passes
    over the voxels behind the allocation are those of section 4.2 of the
    specification. *)
Theorem no_validation_at_entry (a : Args) :
  label_size_ok (sizeofU a) →
  let n := width a * height a * depth a in
  let in_range :=
    INT_MIN ≤ width a * height a ≤ INT_MAX ∧ INT_MIN ≤ n ≤ INT_MAX in
  (∀ a', width a' = width a → height a' = height a → depth a' = depth a →
         sizeofU a' = sizeofU a → heapBytes a' = heapBytes a →
         allocate a' = allocate a)
  ∧ (in_range → 0 < n → n * sizeof_Set (sizeofU a) ≤ heapBytes a →
       allocate a = Ok (constructed_array (Z.to_nat n))
       ∧ ((∃ stats out, findConnectedComponents3d a = Ok (stats, out))
          ∨ findConnectedComponents3d a = LabelRangeOverflow
          ∨ findConnectedComponents3d a = Undefined)
       ∧ (row_offsets_in_int a →
          ((∃ stats out, findConnectedComponents3d a = Ok (stats, out))
           ∨ findConnectedComponents3d a = LabelRangeOverflow)
          ∧ (foreground_count a ≤ maxU a →
             ∃ stats out, findConnectedComponents3d a = Ok (stats, out))
          ∧ ((∀ c, in_vol a c → ¬ is_fg a c) →
             ∃ out, findConnectedComponents3d a = Ok ([], out))))
  ∧ (in_range → 0 < n → heapBytes a < n * sizeof_Set (sizeofU a) →
       findConnectedComponents3d a = BadAlloc)
  ∧ (in_range → n < 0 → findConnectedComponents3d a = LengthError)
  ∧ (in_range → n = 0 → findConnectedComponents3d a = Undefined)
  ∧ (¬ in_range → findConnectedComponents3d a = Undefined).
Proof.
  intros Hsz n in_range. split; [| split; [| split; [| split; [| split]]]].
  - intros a' Hw Hh Hd Hs Hm.
    assert (node_count a' = node_count a) as Hcount
      by (unfold node_count; by rewrite Hw, Hh, Hd).
    assert (components_ a' = components_ a) as Hbytes
      by (unfold components_; by rewrite Hcount, Hs, Hm).
    unfold allocate. rewrite Hbytes, Hcount, Hs.
    destruct (components_ a) as [bytes | | | | | |] eqn:Hb; try done. simpl.
    apply components_zeros in Hb as [m ->].
    destruct (replicate m 0) as [| b bs] eqn:Hbs; [done |]. rewrite <- Hbs.
    destruct (node_count a) as [k | | | | | |]; try done. simpl.
    by rewrite (decode_array_zeros_base _ (componentsBase a') (componentsBase a)).
  - intros [Hwh Hn] Hpos Hheap.
    assert (allocate a = Ok (constructed_array (Z.to_nat n))) as Ha.
    { apply allocate_fresh; [done | done | subst n; lia | done]. }
    split; [done |]. split.
    + by eapply labeller_ends.
    + intros Hoff. destruct (labeller_past_entry _ _ Ha Hoff) as [Hend Hfew].
      split; [done |]. split; [done |]. by eapply labeller_background.
  - intros [Hwh Hn] Hpos Hheap. unfold findConnectedComponents3d.
    rewrite allocate_refused; [done | done | done | subst n; lia | done].
  - intros [Hwh Hn] Hneg. unfold findConnectedComponents3d.
    rewrite allocate_negative; [done | done | done | subst n; lia].
  - intros [Hwh Hn] Hzero. unfold findConnectedComponents3d.
    by rewrite allocate_empty.
  - intros Hout. unfold findConnectedComponents3d.
    by rewrite allocate_overflow.
Qed.

Lemma no_validation_at_entry_witness :
  allocate strides_zero = Ok (constructed_array 4).
Proof.
  refine (proj1 (proj1 (proj2 (no_validation_at_entry strides_zero _)) _ _ _)).
  - left. reflexivity.
  - unfold INT_MIN, INT_MAX. simpl. lia.
  - simpl. lia.
  - vm_compute. discriminate.
Defined.

(** An array of [n] nodes cannot be laid over fewer than
    [n*sizeof(Set<U>)] zero bytes. *)
Lemma decode_array_short sizeofU base n m :
  (Z.of_nat m < Z.of_nat n * sizeof_Set sizeofU) →
  decode_array sizeofU base n (replicate m 0) = None.
Proof.
  intros Hm. destruct (decode_array _ _ _ _) as [f |] eqn:Hf; [| done].
  apply decode_array_needs in Hf. rewrite length_replicate in Hf. lia.
Qed.

(** C9 — the buffer the function allocates,
    [width*height*depth*sizeof(Set<U>)] zero bytes seen as an array of
    [Set<U>], is the array of [width*height*depth] default-constructed
    nodes: every node is a root of rank 0 without a label, its label field
    holding [UNITIALIZED].  No shorter buffer of zero bytes holds that
    array.  The count is positive and computed within [int], [U] is an
    integral type, and the allocator grants the bytes. *)
Theorem zeroed_buffer_is_constructed_array (a : Args) :
  label_size_ok (sizeofU a) →
  INT_MIN ≤ width a * height a ≤ INT_MAX →
  0 < width a * height a * depth a ≤ INT_MAX →
  width a * height a * depth a * sizeof_Set (sizeofU a) ≤ heapBytes a →
  let n := Z.to_nat (width a * height a * depth a) in
  let size := Z.to_nat (width a * height a * depth a * sizeof_Set (sizeofU a)) in
  components_ a = Ok (replicate size 0)
  ∧ decode_array (sizeofU a) (componentsBase a) n (replicate size 0)
    = Some (constructed_array n)
  ∧ (∀ m, (m < size)%nat →
       decode_array (sizeofU a) (componentsBase a) n (replicate m 0) = None)
  ∧ allocate a = Ok (constructed_array n)
  ∧ length (constructed_array n) = n
  ∧ ∀ i nd, constructed_array n !! i = Some nd →
      rank_ nd = 0 ∧ parent_ nd = None ∧ hasLabel_ nd = false
      ∧ label_ nd = UNITIALIZED.
Proof.
  intros Hsz Hwh Hn Hheap n size.
  pose proof (sizeof_Set_values _ Hsz) as Hs.
  split; [| split; [| split; [| split; [| split]]]].
  - by apply components_fresh.
  - apply decode_array_zeros; [done |]. subst n size. nia.
  - intros m Hm. apply decode_array_short. subst n size. nia.
  - by apply allocate_fresh.
  - apply length_replicate.
  - intros i nd [-> _]%lookup_replicate. done.
Qed.

Lemma zeroed_buffer_is_constructed_array_witness :
  allocate block_2_2 = Ok (constructed_array 4).
Proof.
  refine (proj1 (proj2 (proj2 (proj2
            (zeroed_buffer_is_constructed_array block_2_2 _ _ _ _))))).
  - left. reflexivity.
  - unfold INT_MIN, INT_MAX. simpl. lia.
  - unfold INT_MAX. simpl. lia.
  - vm_compute. discriminate.
Defined.

(** * Further properties of the forest operations *)

(** ** When [find] returns *)

(** X1 — [x->find()] returns exactly when the parent chain of [x] ends in
    a node of the array whose parent is null, and then it returns that node:
    on a chain that leaves the array or runs into a cycle the call does not
    return. *)
Theorem find_returns_iff_rooted (f : forest) (x r : nat) :
  (∃ f', find f x = Some (f', r)) ↔ root_of f x r.
Proof.
  split.
  - intros [f' Hf]. by destruct (find_Some _ _ _ _ Hf).
  - intros Hr. destruct (find_fuel_enough _ _ _ Hr) as (f' & Hf & _). eauto.
Qed.

(** ** The partition after [unite] *)

Lemma unite_status_spec f x y f' st xr yr :
  unite f x y = Some (f', st) → root_of f x xr → root_of f y yr →
  st = UniteOverflow ↔
  xr ≠ yr ∧ rank_of f xr = rank_of f yr ∧ rank_of f xr = RANK_MAX.
Proof.
  intros Hu Hx Hy.
  destruct (unite_inv _ _ _ _ _ Hu) as (f2 & xr' & yr' & Hx' & Hy' & _ & Hl).
  rewrite <- (root_of_det _ _ _ _ Hx Hx'), <- (root_of_det _ _ _ _ Hy Hy') in Hl.
  by apply (linked_overflow_iff _ _ _ _ _ _ _ Hl).
Qed.

Lemma unite_same_iff f x y f' st a b :
  unite f x y = Some (f', st) → acyclic f →
  same f' a b ↔
  same f a b ∨ (same f a x ∧ same f y b) ∨ (same f a y ∧ same f x b).
Proof.
  intros Hu Hac. split; [by apply (unite_same_inv _ _ _ _ _ _ _ Hu) |].
  pose proof (unite_same_args _ _ _ _ _ Hu) as Hxy.
  intros [Hab | [[Hax Hyb] | [Hay Hxb]]].
  - by eapply unite_same_keep.
  - eapply same_trans; [by eapply unite_same_keep |].
    eapply same_trans; [exact Hxy |]. by eapply unite_same_keep.
  - eapply same_trans; [by eapply unite_same_keep |].
    eapply same_trans; [apply same_sym; exact Hxy |]. by eapply unite_same_keep.
Qed.

(** X2 — [unite(x, y)] merges the component of [x] with the component of
    [y] and nothing else, whether it returns or throws: afterwards two nodes
    are in one component exactly when they were before, or one was with [x]
    and the other with [y]. *)
Theorem unite_merges_exactly
    (f : forest) (x y : nat) (f' : forest) (st : unite_status) (a b : nat) :
  acyclic f → unite f x y = Some (f', st) →
  same f' a b ↔
  same f a b ∨ (same f a x ∧ same f y b) ∨ (same f a y ∧ same f x b).
Proof. intros Hac Hu. by apply (unite_same_iff _ _ _ _ _ _ _ Hu). Qed.

Lemma chain4_acyclic : acyclic chain4.
Proof. apply (reachable_inv 4 chain4 chain4_reachable). Qed.

Lemma unite_merges_exactly_witness :
  same [ mkSet 2 false 0 None; mkSet 0 false 0 (Some 0%nat);
         mkSet 1 false 0 (Some 0%nat); mkSet 0 false 0 (Some 0%nat) ] 1 3
  ↔ same chain4 1 3 ∨ (same chain4 1 3 ∧ same chain4 0 3)
    ∨ (same chain4 1 0 ∧ same chain4 3 3).
Proof.
  exact (unite_merges_exactly chain4 3 0 _ UniteDone 1 3 chain4_acyclic eq_refl).
Defined.

(** X3 — the order of the arguments of [unite] matters for the forest but
    not for the outcome: [unite(x, y)] and [unite(y, x)] end the same way
    (both return or both throw) and leave the same components. *)
Theorem unite_arguments_commute
    (f : forest) (x y : nat) (f1 f2 : forest) (s1 s2 : unite_status) :
  acyclic f →
  unite f x y = Some (f1, s1) → unite f y x = Some (f2, s2) →
  s1 = s2 ∧ ∀ a b, same f1 a b ↔ same f2 a b.
Proof.
  intros Hac H1 H2. split.
  - destruct (unite_inv _ _ _ _ _ H1) as (_ & xr & yr & Hx & Hy & _ & _).
    pose proof (unite_status_spec _ _ _ _ _ _ _ H1 Hx Hy) as E1.
    pose proof (unite_status_spec _ _ _ _ _ _ _ H2 Hy Hx) as E2.
    destruct s1, s2; try done.
    + exfalso. assert (UniteOverflow = UniteOverflow) as E by done.
      apply E2 in E as (Hne & Hrk & Hmax).
      assert (UniteDone = UniteOverflow) as E'; [| done].
      apply E1. split; [done |]. split; [done | congruence].
    + exfalso. assert (UniteOverflow = UniteOverflow) as E by done.
      apply E1 in E as (Hne & Hrk & Hmax).
      assert (UniteDone = UniteOverflow) as E'; [| done].
      apply E2. split; [done |]. split; [done | congruence].
  - intros a b.
    rewrite (unite_same_iff _ _ _ _ _ a b H1 Hac), (unite_same_iff _ _ _ _ _ a b H2 Hac).
    tauto.
Qed.

Lemma unite_arguments_commute_witness :
  UniteDone = UniteDone
  ∧ ∀ a b,
      same [ mkSet 1 false 0 None; mkSet 0 false 0 (Some 0%nat) ] a b
      ↔ same [ mkSet 0 false 0 (Some 1%nat); mkSet 1 false 0 None ] a b.
Proof.
  exact (unite_arguments_commute (replicate 2 default_Set) 0 1 _ _ _ _
           (proj1 (init_wf 2)) eq_refl eq_refl).
Defined.

(** X4 — after [unite(x, y)], also after one that throws, [x->find()] and
    [y->find()] return the same node. *)
Theorem find_agrees_after_unite
    (f : forest) (x y : nat) (f' : forest) (st : unite_status) :
  unite f x y = Some (f', st) →
  ∃ f1 f2 r, find f' x = Some (f1, r) ∧ find f1 y = Some (f2, r).
Proof.
  intros Hu. destruct (unite_same_args _ _ _ _ _ Hu) as (r & Hx & Hy).
  destruct (find_fuel_enough _ _ _ Hx) as (f1 & Hf1 & Hc1).
  assert (root_of f1 y r) as Hy1 by (by apply (compressed_root_of _ _ _ _ _ _ Hx Hc1)).
  destruct (find_fuel_enough _ _ _ Hy1) as (f2 & Hf2 & _).
  by exists f1, f2, r.
Qed.

Lemma find_agrees_after_unite_witness :
  ∃ f1 f2 r,
    find [ mkSet 65535 false 0 None; mkSet 65535 false 0 (Some 0%nat) ] 0
    = Some (f1, r)
    ∧ find f1 1 = Some (f2, r).
Proof.
  exact (find_agrees_after_unite saturated2 0 1 _ UniteOverflow eq_refl).
Defined.

(** ** What every call keeps *)

Lemma acyclic_parent_lt f x p :
  acyclic f → parent_of f x = Some p → (p < length f)%nat.
Proof.
  intros Hac Hp. pose proof (parent_of_Some_lt _ _ _ Hp) as Hx.
  destruct (Hac x Hx) as (r & d & Hw).
  apply walk_parent_of in Hp.
  inversion Hw as [? Hroot | ? p' ? e Hx' Hp']; simplify_eq.
  apply walk_lt in Hp'. by rewrite parents_length in Hp'.
Qed.

Lemma op_step_wf f f' : op_step f f' → wf f → wf f' ∧ length f' = length f.
Proof.
  intros [f0 x f1 r Hfind | f0 x y f1 st Hu] Hwf.
  - destruct (find_Some _ _ _ _ Hfind) as [Hr Hc].
    split; [by eapply compressed_wf | apply Hc].
  - split; [by eapply unite_wf | by eapply unite_length].
Qed.

(** X5 — no call of [find] or [unite], returning or throwing, breaks the
    forest: after any sequence of calls on a well-formed forest the array has
    its length, every node still reaches a root, every parent pointer points
    into the array and every rank is a value of the counter type. *)
Theorem calls_keep_forest_wellformed (f f' : forest) :
  wf f → rtc op_step f f' →
  wf f' ∧ length f' = length f
  ∧ ∀ x p, parent_of f' x = Some p → (p < length f')%nat.
Proof.
  intros Hwf Hsteps.
  assert (wf f' ∧ length f' = length f) as [Hwf' Hlen].
  { induction Hsteps as [| f f1 f2 Hstep _ IH]; [done |].
    destruct (op_step_wf _ _ Hstep Hwf) as [Hwf1 Hlen1].
    destruct (IH Hwf1) as [? ?]. split; [done | congruence]. }
  split; [done |]. split; [done |].
  intros x p. apply acyclic_parent_lt, Hwf'.
Qed.

Lemma calls_keep_forest_wellformed_witness :
  wf [ mkSet 65535 false 0 None; mkSet 65535 false 0 (Some 0%nat) ].
Proof.
  refine (proj1 (calls_keep_forest_wellformed saturated2 _ _ _)).
  - split.
    + intros x Hx. exists x, 0%nat. constructor.
      destruct x as [| [| x]]; [reflexivity | reflexivity | simpl in Hx; lia].
    + exact saturated2_ranks_valid.
  - apply rtc_once. exact (op_unite saturated2 0 1 _ UniteOverflow eq_refl).
Defined.

Lemma compressed_parent_kept f x r f' y :
  compressed f x r f' → is_Some (parent_of f y) → is_Some (parent_of f' y).
Proof.
  intros (_ & Hchg & _) Hy. unfold parent_of in *.
  destruct (Hchg y) as [-> | (_ & _ & ->)]; [done |].
  destruct (f !! y); [by eexists | by destruct Hy].
Qed.

Lemma settled_parent_kept f f2 y :
  settled f f2 → is_Some (parent_of f y) → is_Some (parent_of f2 y).
Proof.
  induction 1 as [| f x r f1 f2 _ Hc _ IH]; [done |].
  intros Hy. by apply IH, (compressed_parent_kept _ _ _ _ _ Hc).
Qed.

Lemma linked_parent_kept f2 xr yr rx ry f' st y :
  linked f2 xr yr rx ry f' st →
  is_Some (parent_of f2 y) → is_Some (parent_of f' y).
Proof.
  assert (∀ q l g, is_Some (parent_of g y) →
            is_Some (parent_of (alter (set_parent (Some q)) l g) y)) as Hlink.
  { intros q l g Hy. destruct (decide (y = l)) as [-> | Hne].
    - unfold parent_of in *. rewrite list_lookup_alter_eq.
      destruct (g !! l); [by eexists | by destruct Hy].
    - by rewrite parent_of_alter_ne. }
  destruct 1; intros Hy; try done; try by apply Hlink.
  rewrite parent_of_alter_keep by done. by apply Hlink.
Qed.

Lemma linked_rank_grows f2 xr yr f' st z :
  ranks_valid f2 → (xr < length f2)%nat →
  linked f2 xr yr (rank_of f2 xr) (rank_of f2 yr) f' st →
  rank_of f2 z ≤ rank_of f' z ≤ rank_of f2 z + 1.
Proof.
  intros Hrv Hx Hl.
  inversion Hl; subst; rewrite ?rank_of_alter_keep by done; try lia.
  destruct (decide (z = xr)) as [-> | Hne].
  - rewrite rank_of_alter_incr by (by rewrite length_alter).
    rewrite rank_of_alter_keep by done.
    pose proof (rank_of_bounds f2 xr Hrv) as Hb.
    rewrite Z.mod_small; unfold RANK_MAX, RANK_MODULUS in *; lia.
  - rewrite rank_of_alter_ne by done. rewrite rank_of_alter_keep by done. lia.
Qed.

Lemma op_step_monotone f f' x :
  op_step f f' → wf f →
  rank_of f x ≤ rank_of f' x ≤ rank_of f x + 1
  ∧ (is_Some (parent_of f x) → is_Some (parent_of f' x)).
Proof.
  intros [f0 y f1 r Hfind | f0 y z f1 st Hu] Hwf.
  - destruct (find_Some _ _ _ _ Hfind) as [Hr Hc].
    rewrite (compressed_rank_of _ _ _ _ x Hc).
    split; [lia | by apply (compressed_parent_kept _ _ _ _ _ Hc)].
  - destruct (unite_inv _ _ _ _ _ Hu) as (f2 & xr & yr & Hx & Hy & Hset & Hl).
    rewrite <- !(settled_rank_of _ _ _ Hset) in Hl.
    rewrite <- (settled_rank_of _ _ x Hset). split.
    + eapply linked_rank_grows; [| | exact Hl].
      * apply (settled_wf _ _ Hset Hwf).
      * rewrite (settled_length _ _ Hset). eapply root_of_lt, root_of_root, Hx.
    + intros Hp. eapply linked_parent_kept; [exact Hl |].
      by apply (settled_parent_kept _ _ _ Hset).
Qed.

(** X6 — the calls only ever go one way: over any sequence of [find] and
    [unite] calls no rank ever decreases, and a node that has a parent never
    becomes a root again. *)
Theorem ranks_grow_and_children_stay (f f' : forest) (x : nat) :
  wf f → rtc op_step f f' →
  rank_of f x ≤ rank_of f' x
  ∧ (is_Some (parent_of f x) → is_Some (parent_of f' x)).
Proof.
  intros Hwf Hsteps. induction Hsteps as [| f f1 f2 Hstep _ IH]; [done |].
  destruct (op_step_monotone _ _ x Hstep Hwf) as [Hrk Hp].
  destruct (op_step_wf _ _ Hstep Hwf) as [Hwf1 _].
  destruct (IH Hwf1) as [Hrk' Hp']. split; [lia | auto].
Qed.

Lemma ranks_grow_and_children_stay_witness :
  rank_of chain4 3 ≤ rank_of chain4_flat 3
  ∧ (is_Some (parent_of chain4 3) → is_Some (parent_of chain4_flat 3)).
Proof.
  refine (ranks_grow_and_children_stay chain4 chain4_flat 3 _ _).
  - exact (proj1 (reachable_inv 4 chain4 chain4_reachable)).
  - apply rtc_once. exact (op_find chain4 3 chain4_flat 0 eq_refl).
Defined.

(** ** Union by rank: ranks, sizes and depths *)

(** X7 — union by rank keeps the trees heavy: in a forest built from [n]
    fresh nodes by [find] and returning [unite] calls, the tree of a root of
    rank [k] has at least [2^k] nodes, so [2^k ≤ n]. *)
Theorem rank_is_logarithmic (n : nat) (f : forest) (r : nat) :
  reachable n f → root_of f r r →
  (∃ l : list nat, NoDup l ∧ (∀ x, x ∈ l → root_of f x r)
     ∧ 2 ^ rank_of f r ≤ Z.of_nat (length l))
  ∧ 2 ^ rank_of f r ≤ Z.of_nat n.
Proof.
  intros Hreach Hr.
  destruct (reachable_heavy _ _ Hreach r Hr) as (l & Hnd & Hl & Hsz).
  split; [by exists l |].
  pose proof (tree_nodes_bound _ _ _ Hnd Hl) as Hle.
  destruct (reachable_inv _ _ Hreach) as (_ & _ & Hlen). lia.
Qed.

Lemma rank_is_logarithmic_witness : 2 ^ rank_of chain4 0 ≤ Z.of_nat 4.
Proof.
  exact (proj2 (rank_is_logarithmic 4 chain4 0 chain4_reachable chain4_root_0)).
Defined.

(** X8 — the overflow of the rank counter is out of reach: on a forest
    built from fewer than [2^65535] fresh nodes, [unite] never throws. *)
Theorem unite_never_overflows
    (n : nat) (f : forest) (x y : nat) (f' : forest) (st : unite_status) :
  reachable n f → Z.of_nat n < 2 ^ RANK_MAX →
  unite f x y = Some (f', st) → st = UniteDone.
Proof.
  intros Hreach Hn Hu. destruct st; [done | exfalso].
  destruct (unite_inv _ _ _ _ _ Hu) as (_ & xr & yr & Hx & Hy & _ & _).
  assert (UniteOverflow = UniteOverflow) as E by done.
  apply (unite_status_spec _ _ _ _ _ _ _ Hu Hx Hy) in E as (_ & _ & Hmax).
  destruct (reachable_inv _ _ Hreach) as (_ & _ & Hlen).
  pose proof (root_of_lt _ _ _ (root_of_root _ _ _ Hx)) as Hlt.
  pose proof (reachable_rank_bound n f xr Hreach ltac:(lia)) as Hb.
  rewrite Hmax in Hb. lia.
Qed.

Lemma four_below_rank_cap : Z.of_nat 4 < 2 ^ RANK_MAX.
Proof.
  pose proof (Z.pow_le_mono_r 2 3 RANK_MAX ltac:(lia) ltac:(unfold RANK_MAX; lia)) as H.
  change (2 ^ 3) with 8 in H. change (Z.of_nat 4) with 4. lia.
Qed.

Lemma unite_never_overflows_witness : UniteDone = UniteDone.
Proof.
  exact (unite_never_overflows 4 chain4 3 0 chain4_flat UniteDone
           chain4_reachable four_below_rank_cap eq_refl).
Defined.

Lemma ranked_walk_depth f x r d :
  ranked f → walk (parents f) x r d → rank_of f x + Z.of_nat d ≤ rank_of f r.
Proof.
  intros Hrk. induction 1 as [x Hx | x p r d Hx Hp IH]; [simpl; lia |].
  apply walk_parent_of, Hrk in Hx. lia.
Qed.

(** X9 — union by rank keeps the trees shallow: in a forest built from [n]
    fresh nodes, a node that is [d] parent links away from its root has
    [2^d ≤ n], so [find] follows at most [log2 n] links. *)
Theorem depth_is_logarithmic (n : nat) (f : forest) (x r d : nat) :
  reachable n f → walk (parents f) x r d →
  Z.of_nat d ≤ rank_of f r ∧ 2 ^ Z.of_nat d ≤ Z.of_nat n.
Proof.
  intros Hreach Hw.
  destruct (reachable_inv _ _ Hreach) as ([Hac Hrv] & Hrk & Hlen).
  pose proof (ranked_walk_depth _ _ _ _ Hrk Hw) as Hd.
  pose proof (rank_of_bounds f x Hrv) as Hb.
  assert (Z.of_nat d ≤ rank_of f r) as Hle by lia.
  split; [done |].
  pose proof (walk_root_lt _ _ _ _ Hw) as Hr. rewrite parents_length in Hr.
  pose proof (reachable_rank_bound n f r Hreach ltac:(lia)) as Hn.
  pose proof (Z.pow_le_mono_r 2 (Z.of_nat d) (rank_of f r)). lia.
Qed.

Lemma chain4_walk_3 : walk (parents chain4) 3 0 2.
Proof. repeat econstructor. Qed.

Lemma depth_is_logarithmic_witness :
  Z.of_nat 2 ≤ rank_of chain4 0 ∧ 2 ^ Z.of_nat 2 ≤ Z.of_nat 4.
Proof.
  exact (depth_is_logarithmic 4 chain4 3 0 2 chain4_reachable chain4_walk_3).
Defined.

(** ** The number of components *)

Lemma count_roots_cons n f :
  count_roots (n :: f)
  = ((if decide (parent_ n = None) then 1 else 0) + count_roots f)%nat.
Proof.
  unfold count_roots. destruct (decide (parent_ n = None)).
  - by rewrite filter_cons_True.
  - by rewrite filter_cons_False.
Qed.

Lemma count_roots_link f l q n :
  f !! l = Some n → parent_ n = None →
  (count_roots (alter (set_parent (Some q)) l f) + 1)%nat = count_roots f.
Proof.
  revert l. induction f as [| m f IH]; intros [| l] Hl Hroot; simplify_eq/=.
  - change (alter (set_parent (Some q)) 0%nat (n :: f)) with (set_parent (Some q) n :: f).
    rewrite !count_roots_cons. simpl. rewrite Hroot.
    destruct (decide (Some q = None)); [done |].
    destruct (decide (None = None)); [lia | done].
  - change (alter (set_parent (Some q)) (S l) (m :: f))
      with (m :: alter (set_parent (Some q)) l f).
    rewrite !count_roots_cons. rewrite <- (IH l Hl Hroot). lia.
Qed.

Lemma count_roots_same_flags (f f' : forest) :
  length f' = length f →
  (∀ y n n', f !! y = Some n → f' !! y = Some n' →
     (parent_ n' = None ↔ parent_ n = None)) →
  count_roots f' = count_roots f.
Proof.
  revert f'. induction f as [| n f IH]; intros [| n' f'] Hlen Hflags;
    simplify_eq/=; [done |].
  rewrite !count_roots_cons.
  rewrite (IH f'); [| lia | intros y m m' Hy Hy'; by apply (Hflags (S y))].
  pose proof (Hflags 0%nat n n' eq_refl eq_refl) as H0.
  destruct (decide (parent_ n' = None)), (decide (parent_ n = None)); tauto || lia.
Qed.

Lemma compressed_count_roots f x r f' :
  root_of f x r → compressed f x r f' → count_roots f' = count_roots f.
Proof.
  intros [d Hw] (Hlen & Hchg & Hpath). apply count_roots_same_flags; [done |].
  intros y n n' Hy Hy'.
  destruct (Hchg y) as [Heq | (Hon & Hyr & Heq)]; rewrite Heq, Hy in Hy'.
  - by simplify_eq.
  - simplify_eq/=. split; [done |]. intros Hroot. exfalso.
    destruct (on_walk_walk _ _ _ _ _ Hw Hon) as (e & _ & Hwy).
    assert (parents f !! y = Some None) as Hy0.
    { by rewrite parents_lookup, Hy; simpl; rewrite Hroot. }
    by destruct (walk_from_root _ _ _ _ Hwy Hy0) as [-> _].
Qed.

Lemma settled_count_roots f f2 : settled f f2 → count_roots f2 = count_roots f.
Proof.
  induction 1 as [| f x r f1 f2 Hr Hc _ IH]; [done |].
  by rewrite IH, (compressed_count_roots _ _ _ _ Hr Hc).
Qed.

Lemma count_roots_alter_keep g (f : forest) x :
  (∀ n, parent_ (g n) = parent_ n) → count_roots (alter g x f) = count_roots f.
Proof.
  intros Hg. apply count_roots_same_flags; [by rewrite length_alter |].
  intros y n n' Hy Hy'. destruct (decide (y = x)) as [-> | Hne].
  - rewrite list_lookup_alter_eq, Hy in Hy'. simplify_eq/=. by rewrite Hg.
  - rewrite list_lookup_alter_ne, Hy in Hy' by done. by simplify_eq.
Qed.

(** X10 — [find] keeps the number of components; [unite], returning or
    throwing, lowers it by one when [x] and [y] have different roots and
    keeps it when they have the same root. *)
Theorem unite_removes_one_root
    (f : forest) (x y : nat) (f' : forest) (st : unite_status) (xr yr : nat) :
  unite f x y = Some (f', st) → root_of f x xr → root_of f y yr →
  (count_roots f' + (if decide (xr = yr) then 0 else 1))%nat = count_roots f
  ∧ ∀ z g s, find f' z = Some (g, s) → count_roots g = count_roots f'.
Proof.
  intros Hu Hx Hy. split.
  - destruct (unite_inv _ _ _ _ _ Hu) as (f2 & xr' & yr' & Hx' & Hy' & Hset & Hl).
    rewrite <- (root_of_det _ _ _ _ Hx Hx'), <- (root_of_det _ _ _ _ Hy Hy') in Hl.
    rewrite <- (settled_count_roots _ _ Hset).
    assert (root_of f2 xr xr) as Hx2.
    { apply (settled_root_of _ _ _ _ Hset). by eapply root_of_root. }
    assert (root_of f2 yr yr) as Hy2.
    { apply (settled_root_of _ _ _ _ Hset). by eapply root_of_root. }
    destruct (root_of_is_root _ _ _ Hx2) as (nx & Hnx & Hpx).
    destruct (root_of_is_root _ _ _ Hy2) as (ny & Hny & Hpy).
    inversion Hl as [Hgt | Hlt | Heq Hne Hmax | Heq Hne Hmax | Heq Hsame]; subst.
    + destruct (decide (xr = yr)) as [-> | _]; [lia |].
      by apply (count_roots_link _ _ _ ny).
    + destruct (decide (xr = yr)) as [-> | _]; [lia |].
      by apply (count_roots_link _ _ _ nx).
    + destruct (decide (xr = yr)); [done |].
      rewrite count_roots_alter_keep by done. by apply (count_roots_link _ _ _ ny).
    + destruct (decide (xr = yr)); [done |]. by apply (count_roots_link _ _ _ ny).
    + destruct (decide (yr = yr)); [lia | done].
  - intros z g s [Hr Hc]%find_Some. by eapply compressed_count_roots.
Qed.

Lemma unite_removes_one_root_witness :
  (count_roots [ mkSet 1 false 0 None; mkSet 0 false 0 (Some 0%nat) ]
   + (if decide (0%nat = 1%nat) then 0 else 1))%nat
  = count_roots (replicate 2 default_Set).
Proof.
  refine (proj1 (unite_removes_one_root (replicate 2 default_Set) 0 1 _ UniteDone
                   0 1 eq_refl _ _)).
  - exists 0%nat. by constructor.
  - exists 0%nat. by constructor.
Defined.

(** ** Sequences of unions *)

(** X11 — union-find is correct: after a sequence of returning [unite]
    calls on [n] fresh nodes, two nodes are in the same component exactly
    when the united pairs connect them. *)
Theorem unite_sequence_components
    (es : list (nat * nat)) (n : nat) (f' : forest) (x y : nat) :
  unite_list es (replicate n default_Set) = Ok f' → (x < n)%nat →
  same f' x y ↔ rtsc (λ a b, (a, b) ∈ es) x y.
Proof.
  intros Hrun Hx. destruct (unite_list_init _ _ _ Hrun) as (_ & _ & _ & Hsame).
  by apply Hsame.
Qed.

Lemma unite_sequence_components_witness :
  same chain4 3 1 ↔ rtsc (λ a b, (a, b) ∈ [(0, 1); (2, 3); (0, 2)]%nat) 3%nat 1%nat.
Proof.
  refine (unite_sequence_components [(0, 1); (2, 3); (0, 2)]%nat 4 chain4 3 1 _ _).
  - reflexivity.
  - lia.
Defined.

(** X12 — the components do not depend on the order of the unions: two
    returning sequences of [unite] calls over the same pairs, in any order,
    from the same well-formed forest, leave the same components. *)
Theorem unite_order_irrelevant
    (es es' : list (nat * nat)) (f f1 f2 : forest) (x y : nat) :
  wf f → es ≡ₚ es' →
  unite_list es f = Ok f1 → unite_list es' f = Ok f2 →
  same f1 x y ↔ same f2 x y.
Proof.
  intros Hwf Hperm H1 H2.
  destruct (unite_list_spec _ _ _ Hwf H1) as (_ & Hlen1 & _ & Hs1).
  destruct (unite_list_spec _ _ _ Hwf H2) as (_ & Hlen2 & _ & Hs2).
  assert (joined f es x y ↔ joined f es' x y) as Hj.
  { unfold joined. split; apply rtsc_lift; intros a b [? | Hin];
      apply rtsc_lr; [by left | right | by left | right].
    - by rewrite <- Hperm.
    - by rewrite Hperm. }
  split; intros Hs.
  - pose proof (proj1 (same_lt _ _ _ Hs)) as Hx. rewrite Hlen1 in Hx.
    by apply (Hs2 x y Hx), Hj, (Hs1 x y Hx).
  - pose proof (proj1 (same_lt _ _ _ Hs)) as Hx. rewrite Hlen2 in Hx.
    by apply (Hs1 x y Hx), Hj, (Hs2 x y Hx).
Qed.

Lemma unite_order_irrelevant_witness :
  same chain4 3 1
  ↔ same [ mkSet 1 false 0 None; mkSet 0 false 0 (Some 0%nat);
           mkSet 0 false 0 (Some 0%nat); mkSet 0 false 0 (Some 0%nat) ] 3 1.
Proof.
  refine (unite_order_irrelevant [(0, 1); (2, 3); (0, 2)]%nat
            [(0, 2); (0, 1); (2, 3)]%nat (replicate 4 default_Set) _ _ 3 1
            (init_wf 4) _ eq_refl _).
  - symmetry. apply (Permutation_cons_append [(0, 1); (2, 3)]%nat).
  - reflexivity.
Defined.

(** ** Addressing of the forest and of the input *)

Lemma index_of_surj a x :
  0 < width a → 0 < height a → 0 < depth a →
  (x < Z.to_nat (width a * height a * depth a))%nat →
  ∃ c, in_vol a c ∧ index_of a c = x.
Proof.
  intros HW HH HD Hx. set (q := Z.of_nat x).
  assert (0 ≤ q < width a * height a * depth a) as Hq by (subst q; lia).
  pose proof (Z.div_mod q (width a) ltac:(lia)) as E1.
  pose proof (Z.mod_pos_bound q (width a) HW) as B1.
  pose proof (Z.div_mod (q / width a) (height a) ltac:(lia)) as E2.
  pose proof (Z.mod_pos_bound (q / width a) (height a) HH) as B2.
  assert (0 ≤ q / width a) as P1 by (apply Z.div_pos; lia).
  assert (0 ≤ q / width a / height a) as P2 by (apply Z.div_pos; lia).
  assert (q / width a < height a * depth a) as U1.
  { apply Z.div_lt_upper_bound; [lia | nia]. }
  assert (q / width a / height a < depth a) as U2.
  { apply Z.div_lt_upper_bound; [lia | nia]. }
  exists (q mod width a, (q / width a) mod height a, q / width a / height a).
  split; [unfold in_vol; lia |].
  unfold index_of, node_index.
  replace (q / width a / height a * width a * height a
           + (q / width a) mod height a * width a + q mod width a) with q by nia.
  subst q. lia.
Qed.

(** X13 — the forest has exactly one node per voxel: for positive
    dimensions whose product is a value of [int], and bytes that the
    allocator grants, the allocation returns an array of
    [width*height*depth] fresh roots; the row index
    [w*width*height + v*width] is computed without overflow,
    [w*width*height + v*width + u] is a valid index for every voxel of the
    volume, different voxels have different nodes, and every node belongs to
    a voxel. *)
Theorem one_node_per_voxel (a : Args) :
  label_size_ok (sizeofU a) →
  0 < width a → 0 < height a → 0 < depth a →
  width a * height a * depth a ≤ INT_MAX →
  width a * height a * depth a * sizeof_Set (sizeofU a) ≤ heapBytes a →
  ∃ f, allocate a = Ok f
    ∧ Z.of_nat (length f) = width a * height a * depth a
    ∧ (∀ u v w, in_vol a (u, v, w) →
         ∃ s, row_index a v w = Ok s ∧ 0 ≤ s
              ∧ index_of a (u, v, w) = Z.to_nat (s + u)
              ∧ f !! index_of a (u, v, w) = Some default_Set)
    ∧ (∀ c c', in_vol a c → in_vol a c' → index_of a c = index_of a c' → c = c')
    ∧ (∀ x, (x < length f)%nat → ∃ c, in_vol a c ∧ index_of a c = x).
Proof.
  intros Hsz HW HH HD Hn Hheap.
  assert (0 < width a * height a) as Hwh by nia.
  assert (width a * height a ≤ width a * height a * depth a) as Hle by nia.
  exists (replicate (Z.to_nat (width a * height a * depth a)) default_Set).
  split.
  { apply allocate_fresh; [done | unfold INT_MIN, INT_MAX in *; lia | nia | done]. }
  split; [rewrite length_replicate; nia |].
  split; [| split].
  - intros u v w Hc. exists (w * width a * height a + v * width a).
    destruct Hc as (Hu & Hv & Hw).
    split; [apply row_index_Ok; unfold INT_MIN, INT_MAX in *; lia |].
    split; [nia |]. split; [done |].
    apply lookup_replicate_2. by apply (index_of_lt a (u, v, w)).
  - intros c c'. apply index_of_inj.
  - intros x Hx. rewrite length_replicate in Hx. by apply index_of_surj.
Qed.

Lemma one_node_per_voxel_witness :
  ∃ f, allocate block_2_2 = Ok f
    ∧ Z.of_nat (length f) = 4
    ∧ (∀ u v w, in_vol block_2_2 (u, v, w) →
         ∃ s, row_index block_2_2 v w = Ok s ∧ 0 ≤ s
              ∧ index_of block_2_2 (u, v, w) = Z.to_nat (s + u)
              ∧ f !! index_of block_2_2 (u, v, w) = Some default_Set)
    ∧ (∀ c c', in_vol block_2_2 c → in_vol block_2_2 c' →
         index_of block_2_2 c = index_of block_2_2 c' → c = c')
    ∧ (∀ x, (x < length f)%nat → ∃ c, in_vol block_2_2 c ∧ index_of block_2_2 c = x).
Proof.
  apply (one_node_per_voxel block_2_2).
  - left. reflexivity.
  - simpl. lia.
  - simpl. lia.
  - simpl. lia.
  - unfold INT_MAX. simpl. lia.
  - vm_compute. discriminate.
Defined.

Lemma offsets_ordered L S k W H u v w u' v' w' :
  0 < k → W * k ≤ S → H * S ≤ L →
  0 ≤ u < W → 0 ≤ v < H → 0 ≤ u' < W → 0 ≤ v' < H → 0 ≤ w → 0 ≤ w' →
  w < w' ∨ (w = w' ∧ v < v') ∨ (w = w' ∧ v = v' ∧ u < u') →
  w * L + v * S + u * k + k ≤ w' * L + v' * S + u' * k.
Proof.
  intros Hk HS HL Hu Hv Hu' Hv' Hw Hw' Hlt.
  assert (u * k + k ≤ S) by nia.
  assert (0 ≤ u' * k) by nia.
  assert (0 ≤ S) by nia.
  assert (v * S + S ≤ L) by nia.
  assert (0 ≤ v' * S) by nia.
  assert (0 ≤ L) by nia.
  destruct Hlt as [Hlt | [[-> Hlt] | (-> & -> & Hlt)]].
  - assert (w * L + L ≤ w' * L) by nia. lia.
  - assert (v * S + S ≤ v' * S) by nia. lia.
  - assert (u * k + k ≤ u' * k) by nia. lia.
Qed.

Lemma row_offset_in a u v w :
  input_layout_ok a → in_vol a (u, v, w) → depth a * inputLeap a ≤ INT_MAX →
  row_offset a v w = Ok (w * inputLeap a + v * inputStride a).
Proof.
  intros (Hk & HS & HL) (Hu & Hv & Hw) Hn. unfold row_offset, INT_MAX in *.
  assert (0 ≤ inputStride a) by nia.
  assert (0 ≤ inputLeap a) by nia.
  assert (0 ≤ w * inputLeap a) by nia.
  assert (w * inputLeap a + inputLeap a ≤ depth a * inputLeap a) by nia.
  assert (0 ≤ v * inputStride a) by nia.
  assert (v * inputStride a + inputStride a ≤ height a * inputStride a) by nia.
  rewrite int_mul_in by (unfold INT_MIN, INT_MAX; lia). simpl.
  by rewrite int_mul_in by (unfold INT_MIN, INT_MAX; lia).
Qed.

(** X14 — under the input layout ([stride ≥ width*sizeof(T)],
    [leap ≥ height*stride]) and with a buffer of [depth*inputLeap] bytes that
    an [int] can count, the products [w*inputLeap] and [v*inputStride] of
    the row pointer are computed without overflow for every row of the
    volume; the [width] voxels from the row pointer on lie inside the first
    [depth*inputLeap] bytes of the input buffer, the voxel [(u, v, w)] that
    the model reads is the [u]-th of them, and different voxels occupy byte
    ranges that do not overlap. *)
Theorem input_reads_in_bounds_and_apart (a : Args) (c c' : coord) :
  input_layout_ok a → depth a * inputLeap a ≤ INT_MAX →
  in_vol a c → in_vol a c' →
  let '(u, v, w) := c in
  let '(u', v', w') := c' in
  ∃ p p',
    row_offset a v w = Ok p ∧ row_offset a v' w' = Ok p'
    ∧ 0 ≤ p ∧ p + width a * sizeofT a ≤ depth a * inputLeap a
    ∧ voxel a u v w = inputBuffer a (p + u * sizeofT a)
    ∧ 0 ≤ p + u * sizeofT a
    ∧ p + u * sizeofT a + sizeofT a ≤ p + width a * sizeofT a
    ∧ (c ≠ c' →
       p + u * sizeofT a + sizeofT a ≤ p' + u' * sizeofT a
       ∨ p' + u' * sizeofT a + sizeofT a ≤ p + u * sizeofT a).
Proof.
  destruct c as [[u v] w], c' as [[u' v'] w'].
  intros Hlay Hn Hc Hc'.
  exists (w * inputLeap a + v * inputStride a),
         (w' * inputLeap a + v' * inputStride a).
  split; [by eapply row_offset_in |]. split; [by eapply row_offset_in |].
  destruct Hlay as (Hk & HS & HL). destruct Hc as (Hu & Hv & Hw).
  destruct Hc' as (Hu' & Hv' & Hw').
  assert (0 ≤ inputStride a) by nia. assert (0 ≤ inputLeap a) by nia.
  assert (0 ≤ u * sizeofT a) by nia.
  assert (0 ≤ v * inputStride a) by nia.
  assert (0 ≤ w * inputLeap a) by nia.
  split; [lia |]. split.
  { pose proof (offsets_ordered (inputLeap a) (inputStride a) (sizeofT a)
                  (width a) (height a) (width a - 1) v w 0 0 (w + 1)) as Hord.
    assert ((w + 1) * inputLeap a ≤ depth a * inputLeap a) by nia.
    specialize (Hord Hk HS HL ltac:(lia) Hv ltac:(lia) ltac:(lia) ltac:(lia)
                  ltac:(lia) ltac:(lia)). lia. }
  split; [done |]. split; [lia |]. split; [nia |].
  intros Hne.
  assert ((w < w' ∨ (w = w' ∧ v < v') ∨ (w = w' ∧ v = v' ∧ u < u'))
          ∨ (w' < w ∨ (w' = w ∧ v' < v) ∨ (w' = w ∧ v' = v ∧ u' < u))) as [Hlt | Hlt].
  { destruct (Z.lt_trichotomy w w') as [? | [-> | ?]]; [lia | | lia].
    destruct (Z.lt_trichotomy v v') as [? | [-> | ?]]; [lia | | lia].
    destruct (Z.lt_trichotomy u u') as [? | [-> | ?]]; [lia | | lia].
    by destruct Hne. }
  - left. apply offsets_ordered with (W := width a) (H := height a); lia.
  - right. apply offsets_ordered with (W := width a) (H := height a); lia.
Qed.

Lemma block_2_2_input_layout : input_layout_ok block_2_2.
Proof. unfold input_layout_ok. simpl. lia. Qed.

Lemma input_reads_in_bounds_and_apart_witness :
  ∃ p p',
    row_offset block_2_2 0 0 = Ok p ∧ row_offset block_2_2 1 0 = Ok p'
    ∧ 0 ≤ p ∧ p + 2 * 1 ≤ 1 * 4.
Proof.
  destruct (input_reads_in_bounds_and_apart block_2_2 (1, 0, 0) (0, 1, 0)
              block_2_2_input_layout)
    as (p & p' & H1 & H2 & H3 & H4 & _).
  - unfold INT_MAX. simpl. lia.
  - unfold in_vol. simpl. lia.
  - unfold in_vol. simpl. lia.
  - exists p, p'. split; [exact H1 |]. split; [exact H2 |]. split; [exact H3 |].
    exact H4.
Defined.

(** ** [printImage] *)






Example printImage_2_by_2 :
  printImage 1 2 2 (λ off, nth (Z.to_nat off) [1; 2; 3; 4] 0) 2
  = [Value 1; Tab; Value 2; Endl; Value 3; Tab; Value 4; Endl].
Proof. reflexivity. Qed.

(** ** Two [find]s in either order *)

(** X17 — two [find]s commute: [x->find()] followed by [y->find()] returns
    the same two roots and leaves the same forest as the calls in the other
    order. *)
Theorem find_calls_commute (f : forest) (x y : nat) (f1 f2 : forest) (r s : nat) :
  find f x = Some (f1, r) → find f1 y = Some (f2, s) →
  ∃ g1, find f y = Some (g1, s) ∧ find g1 x = Some (f2, r).
Proof.
  intros [Hr Hc1]%find_Some [Hs1 Hc2]%find_Some.
  assert (root_of f y s) as Hs by (by apply (compressed_root_of _ _ _ _ _ _ Hr Hc1)).
  destruct (find_fuel_enough _ _ _ Hs) as (g1 & Hg1 & Hd1).
  assert (root_of g1 x r) as Hr1 by (by apply (compressed_root_of _ _ _ _ _ _ Hs Hd1)).
  destruct (find_fuel_enough _ _ _ Hr1) as (g2 & Hg2 & Hd2).
  exists g1. split; [done |]. rewrite Hg2. f_equal. f_equal.
  apply list_eq. intros z.
  pose proof (λ v, on_walk_root_of f x r v Hr) as Rx.
  pose proof (λ v, on_walk_root_of f y s v Hs) as Ry.
  destruct (compressed_twice _ _ _ _ _ _ _ z Hr Hs Hc1 Hc2)
    as [(A1 & A2 & ->) | [(B1 & B2 & B3 & ->) | (C1 & C2 & ->)]];
  destruct (compressed_twice _ _ _ _ _ _ _ z Hs Hr Hd1 Hd2)
    as [(A1' & A2' & ->) | [(B1' & B2' & B3' & ->) | (C1' & C2' & ->)]];
    try tauto.
  by rewrite (root_of_det _ _ _ _ (Rx z A1) (Ry z A1')).
Qed.

Lemma find_calls_commute_witness :
  ∃ g1, find chain4 2 = Some (g1, 0%nat) ∧ find g1 3 = Some (chain4_flat, 0%nat).
Proof.
  exact (find_calls_commute chain4 3 2 chain4_flat chain4_flat 0 0 eq_refl eq_refl).
Defined.
